(** * PanHub search core: result merger, plugin registry, memory cache

    A shallow embedding of the TypeScript sources

    - [composables/search/merger.ts]       ([mergeMergedByType]),
    - [composables/search/batch.ts]        ([performFastSearch], the batches),
    - [server/core/plugins/manager.ts]    ([PluginManager]),
    - [server/core/cache/memoryCache.ts]  ([MemoryCache]),

    together with a model of the search orchestrator, whose source file
    [server/core/services/searchService.ts] is not part of the tree. *)

From Stdlib Require Import ZArith QArith Qround Lia.
From stdpp Require Import gmap strings list fin_maps sorting.

Local Open Scope Z_scope.
#[local] Set Warnings "-clear-no-such-hyp".

(** ** Shared types *)

Module Types.

(** [SearchResult] of [server/core/types/search.ts]. *)
Record ResultLink : Type := mkResultLink {
  link_type : string;
  link_url : string;
  link_password : string;
}.

Record SearchResult : Type := mkResult {
  message_id : string;
  unique_id : string;
  channel : string;
  datetime : string;
  result_title : string;
  content : string;
  links : list ResultLink;
}.

(** How the promise returned by a plugin's [search] settles, and after how
    many milliseconds. *)
Inductive Settlement : Type :=
  | Fulfilled (results : list SearchResult)
  | Rejected (reason : string).

Record Invocation : Type := mkInvocation {
  elapsedMs : Z;
  settlement : Settlement;
}.

(** A computation that returns or throws. *)
Inductive Result (A : Type) : Type :=
  | Ok (a : A)
  | Throw (e : string).
Arguments Ok {A} a.
Arguments Throw {A} e.

End Types.

(** ** Result merger *)

Module Merger.
Import Types.

(** One element of a [MergedLinks] bucket:
    [{ url: string; password: string; title: string }]. *)
Record Link : Type := mkLink {
  url : string;
  password : string;
  title : string;
}.

#[global] Instance Link_eq_dec : EqDecision Link.
Proof. solve_decision. Defined.

(** [MergedLinks] is a JS object used as a map from the storage-type tag to
    an array of links: the map holds its own properties. *)
Abbreviation MergedLinks := (gmap string (list Link)).

(** The names of the members that every such object inherits from
    [Object.prototype].  A property read [o[type]] finds them when [o] has
    no own property of that name. *)
Definition Object_prototype : list string :=
  ["constructor"; "hasOwnProperty"; "isPrototypeOf"; "propertyIsEnumerable";
   "toLocaleString"; "toString"; "valueOf"; "__proto__";
   "__defineGetter__"; "__defineSetter__";
   "__lookupGetter__"; "__lookupSetter__"].

(** What a property read [o[type]] yields: the array of an own property, an
    inherited member (a function, or the prototype for [__proto__]), or
    [undefined]. *)
Inductive Property : Type :=
  | Own (bucket : list Link)
  | Inherited
  | Undefined.

(** [o[type]] *)
Definition getProperty (o : MergedLinks) (type : string) : Property :=
  match o !! type with
  | Some bucket => Own bucket
  | None => if decide (type ∈ Object_prototype) then Inherited else Undefined
  end.

(** [p || []]: an array is truthy, also when empty, and so is an inherited
    member; [undefined] gives the empty array.  [None] is the inherited
    member, which is no array: it has no [map] and cannot be iterated. *)
Definition orEmpty (p : Property) : option (list Link) :=
  match p with
  | Own bucket => Some bucket
  | Inherited => None
  | Undefined => Some []
  end.

(** Body of [for (const item of next)]: the loop state is the pair of the
    [seen] set and the array [mergedArr]. *)
Definition pushUnseen (st : gset string * list Link) (item : Link)
  : gset string * list Link :=
  if decide (url item ∈ st.1) then st
  else ({[ url item ]} ∪ st.1, st.2 ++ [item]).

(** [seen = new Set(existed.map(x => x.url)); mergedArr = [...existed];]
    followed by the inner loop. *)
Definition mergeArr (existed next : list Link) : list Link :=
  (fold_left pushUnseen next (list_to_set (url <$> existed), existed)).2.

(** Body of [for (const type of Object.keys(incoming))].  [existed.map]
    throws a [TypeError] when [out[type]] is an inherited member, and so
    does the iteration of [next]. *)
Definition mergeType (incoming : MergedLinks) (out : MergedLinks) (type : string)
  : Result MergedLinks :=
  let existed := orEmpty (getProperty out type) in
  let next := orEmpty (getProperty incoming type) in
  match existed with
  | None => Throw "TypeError"
  | Some existed =>
      match next with
      | None => Throw "TypeError"
      | Some next => Ok (<[ type := mergeArr existed next ]> out)
      end
  end.

(** [Object.keys(o)]: the own keys of the object, each once. *)
Definition Object_keys {V} (o : gmap string V) : list string :=
  (map_to_list o).*1.

(** The outer loop over [types], left at the first throw. *)
Fixpoint forTypes (incoming : MergedLinks) (types : list string)
    (out : MergedLinks) : Result MergedLinks :=
  match types with
  | [] => Ok out
  | type :: rest =>
      match mergeType incoming out type with
      | Ok out' => forTypes incoming rest out'
      | Throw e => Throw e
      end
  end.

(** [mergeMergedByType(target, incoming?)]; an absent [incoming] is [None].
    [out] starts as the spread copy [{ ...target }], which has the own
    properties of [target]. *)
Definition mergeMergedByType (target : MergedLinks) (incoming : option MergedLinks)
  : Result MergedLinks :=
  match incoming with
  | None => Ok target
  | Some inc => forTypes inc (Object_keys inc) target
  end.

(** Sequencing of two calls: the second is made with what the first
    returns; a throw of the first propagates. *)
Definition andThen {A B} (r : Result A) (f : A → Result B) : Result B :=
  match r with
  | Ok a => f a
  | Throw e => Throw e
  end.

(** *** Vocabulary of the properties *)

(** The links the specification says are appended: every link of [next]
    whose URL is not already present, in the order of [next].  [present]
    lists the URLs already in the bucket. *)
Fixpoint newLinks (present : list string) (next : list Link) : list Link :=
  match next with
  | [] => []
  | item :: rest =>
      if decide (url item ∈ present) then newLinks present rest
      else item :: newLinks (url item :: present) rest
  end.

(** The [MergedLinks] invariant of the data model: within one bucket, URLs
    are unique. *)
Definition uniqueUrls (l : list Link) : Prop := NoDup (url <$> l).

(** No key of [incoming] is the name of an inherited member that [target]
    does not own: every read of the outer loop finds an own bucket or
    [undefined]. *)
Definition safeKeys (target incoming : MergedLinks) : Prop :=
  ∀ type, type ∈ Object_prototype →
          is_Some (incoming !! type) → is_Some (target !! type).

(** The mapping the loops build when no read meets an inherited member:
    every bucket of [incoming] merged into the own bucket of [out].  It is
    what [mergeMergedByType] returns when it returns, and the merge that
    section 4.3 of the specification describes. *)
Definition mergeBucket (incoming : MergedLinks) (out : MergedLinks)
    (type : string) : MergedLinks :=
  <[ type := mergeArr (default [] (out !! type))
                      (default [] (incoming !! type)) ]> out.

Definition mergeBuckets (target incoming : MergedLinks) : MergedLinks :=
  fold_left (mergeBucket incoming) (Object_keys incoming) target.

(** Two links, told apart by their URL. *)
Definition url1 : Link := {| url := "url1"; password := ""; title := "" |}.
Definition url2 : Link := {| url := "url2"; password := ""; title := "" |}.

End Merger.

(** ** Result merger on a heap of JS objects

    [mergeMergedByType] receives references.  To speak about what it writes,
    the same code is read over a store of objects and arrays: the spread
    [{ ...target }] and [[...existed]] allocate, [mergedArr.push] and
    [out[type] = mergedArr] write.  Links are never written to and are kept
    as values.  A throw leaves the heap as it is at that point. *)

Module MergerHeap.
Import Types Merger.

Abbreviation loc := positive.

Inductive Cell : Type :=
  | CObj (fields : gmap string positive)   (* an object: type tag -> array *)
  | CArr (items : list Link).              (* an array of links *)

Abbreviation heap := (gmap positive Cell).

(** Allocation of a new object or array. *)
Definition alloc (h : heap) (c : Cell) : heap * loc :=
  let l := fresh (dom h) in (<[ l := c ]> h, l).

(** Reading an array reference. *)
Definition readArr (h : heap) (l : loc) : list Link :=
  match h !! l with Some (CArr items) => items | _ => [] end.

(** Reading the own properties of an object reference. *)
Definition readObj (h : heap) (l : loc) : gmap string positive :=
  match h !! l with Some (CObj fields) => fields | _ => ∅ end.

(** [o[type]]: the array an own property refers to, an inherited member, or
    [undefined]. *)
Definition readField (h : heap) (o : loc) (type : string) : Property :=
  match readObj h o !! type with
  | Some a => Own (readArr h a)
  | None => if decide (type ∈ Object_prototype) then Inherited else Undefined
  end.

(** [mergedArr.push(item)] *)
Definition push (h : heap) (arr : loc) (item : Link) : heap :=
  <[ arr := CArr (readArr h arr ++ [item]) ]> h.

(** [out[type] = mergedArr] *)
Definition setField (h : heap) (o : loc) (type : string) (v : loc) : heap :=
  <[ o := CObj (<[ type := v ]> (readObj h o)) ]> h.

(** Body of the inner loop; [seen] is a local [Set], the array lives in the
    heap. *)
Definition pushUnseenH (mergedArr : loc) (st : gset string * heap) (item : Link)
  : gset string * heap :=
  if decide (url item ∈ st.1) then st
  else ({[ url item ]} ∪ st.1, push st.2 mergedArr item).

(** Body of the outer loop: the heap it leaves, and whether it completed or
    threw. *)
Definition mergeTypeH (incoming out : loc) (h : heap) (type : string)
  : heap * Result unit :=
  let existed := orEmpty (readField h out type) in
  let next := orEmpty (readField h incoming type) in
  match existed with
  | None => (h, Throw "TypeError")
  | Some existed =>
      let seen : gset string := list_to_set (url <$> existed) in
      let '(h1, mergedArr) := alloc h (CArr existed) in
      match next with
      | None => (h1, Throw "TypeError")
      | Some next =>
          let h2 := (fold_left (pushUnseenH mergedArr) next (seen, h1)).2 in
          (setField h2 out type mergedArr, Ok ())
      end
  end.

(** The outer loop over [types], left at the first throw. *)
Fixpoint forTypesH (incoming out : loc) (types : list string) (h : heap)
  : heap * Result unit :=
  match types with
  | [] => (h, Ok ())
  | type :: rest =>
      match mergeTypeH incoming out h type with
      | (h', Ok _) => forTypesH incoming out rest h'
      | (h', Throw e) => (h', Throw e)
      end
  end.

(** [mergeMergedByType] over the heap: the final heap, and the returned
    reference or the throw. *)
Definition mergeMergedByTypeH (h : heap) (target : loc) (incoming : option loc)
  : heap * Result loc :=
  match incoming with
  | None => (h, Ok target)
  | Some inc =>
      let '(h0, out) := alloc h (CObj (readObj h target)) in
      match forTypesH inc out (Object_keys (readObj h inc)) h0 with
      | (h', Ok _) => (h', Ok out)
      | (h', Throw e) => (h', Throw e)
      end
  end.

(** The mapping an object reference denotes. *)
Definition view (h : heap) (o : loc) : MergedLinks := readArr h <$> readObj h o.

(** Every array reference held by an object is allocated. *)
Definition closed (h : heap) : Prop :=
  ∀ o fields type a,
    h !! o = Some (CObj fields) → fields !! type = Some a → a ∈ dom h.

(** The loop invariant of the outer loop: [h'] is the heap reached from [h]
    with the result object at [out], [acc] the mapping built so far. *)
Definition inv (h : heap) (out : loc) (h' : heap) (acc : MergedLinks) : Prop :=
  (∀ l, l ∈ dom h → h' !! l = h !! l)
  ∧ ∃ fields, h' !! out = Some (CObj fields)
      ∧ readArr h' <$> fields = acc
      ∧ ∀ type a, fields !! type = Some a → a ∈ dom h' ∧ a ≠ out.

(** A heap with a target {baidu: [url1]} at 1 and an incoming
    {baidu: [url2, url1]} at 3. *)
Definition sample_heap : heap :=
  <[ 1%positive := CObj {[ "baidu" := 2%positive ]} ]>
  (<[ 2%positive := CArr [url1] ]>
  (<[ 3%positive := CObj {[ "baidu" := 4%positive ]} ]>
  (<[ 4%positive := CArr [url2; url1] ]> ∅))).

End MergerHeap.

(** ** Plugin registry *)

Module Registry.
Import Types.

(** [interface AsyncSearchPlugin] *)
Class AsyncSearchPlugin (P : Type) : Type := {
  name : P → string;
  priority : P → Z;
  search : P → string → Invocation;
  skipServiceFilter : P → bool;
}.

(** [class BaseAsyncPlugin] *)
Record BaseAsyncPlugin : Type := mkBase {
  pluginName : string;
  pluginPriority : Z;
  mainCacheKey : string;
  currentKeyword : string;
}.

(** [new BaseAsyncPlugin(name, priority)] *)
Definition BaseAsyncPlugin_new (n : string) (p : Z) : BaseAsyncPlugin :=
  {| pluginName := n; pluginPriority := p;
     mainCacheKey := EmptyString; currentKeyword := EmptyString |}.

#[global] Instance BaseAsyncPlugin_plugin : AsyncSearchPlugin BaseAsyncPlugin := {|
  name := pluginName;
  priority := pluginPriority;
  search := λ _ _, {| elapsedMs := 0; settlement := Fulfilled [] |};
  skipServiceFilter := λ _, false;
|}.

(** [Array.prototype.sort(comparefn)] is a built-in; ECMAScript requires it
    to be stable and to order by the sign of [comparefn].  It is modelled by
    stable insertion: an element goes before the first one that it does not
    compare greater than. *)
Fixpoint insertBy {A} (comparefn : A → A → Z) (x : A) (sorted : list A) : list A :=
  match sorted with
  | [] => [x]
  | y :: rest =>
      if comparefn x y <=? 0 then x :: y :: rest
      else y :: insertBy comparefn x rest
  end.

Definition Array_sort {A} (comparefn : A → A → Z) (arr : list A) : list A :=
  foldr (insertBy comparefn) [] arr.

Section Manager.
Context {P : Type} `{AsyncSearchPlugin P}.

(** [class PluginManager]: [private plugins: AsyncSearchPlugin[] = []] *)
Record PluginManager : Type := mkManager {
  plugins : list P;
}.

Definition PluginManager_new : PluginManager := {| plugins := [] |}.

(** [registerPlugin(plugin)]:
    [if (!plugin) return; this.plugins.push(plugin)].
    A null or undefined argument is [None]. *)
Definition registerPlugin (plugin : option P) (m : PluginManager)
  : PluginManager :=
  match plugin with
  | None => m
  | Some p => {| plugins := plugins m ++ [p] |}
  end.

(** [registerPlugins(plugins)] *)
Definition registerPlugins (ps : list (option P)) (m : PluginManager)
  : PluginManager :=
  fold_left (λ m p, registerPlugin p m) ps m.

(** [getPlugins()]:
    [[...this.plugins].sort((a, b) => a.priority() - b.priority())] *)
Definition getPlugins (m : PluginManager) : list P :=
  Array_sort (λ a b, priority a - priority b) (plugins m).

(** [getPlugin(name)] *)
Definition getPlugin (n : string) (m : PluginManager) : option P :=
  find (λ p, bool_decide (name p = n)) (plugins m).

Definition size (m : PluginManager) : nat := length (plugins m).

Definition clear (m : PluginManager) : PluginManager := {| plugins := [] |}.

(** Ascending priority. *)
Definition prio_le (a b : P) : Prop := priority a ≤ priority b.
End Manager.

Arguments PluginManager P : clear implicits.

End Registry.

(** ** Memory cache *)

(** A JS [Map<string, V>]: an association list in insertion order, oldest
    entry first.  [set] on a present key keeps its position, [set] on a new
    key appends. *)

Module JsMap.
Section JsMap.
Context {V : Type}.

Fixpoint get (k : string) (m : list (string * V)) : option V :=
  match m with
  | [] => None
  | (k', v) :: rest => if decide (k' = k) then Some v else get k rest
  end.

Definition has (k : string) (m : list (string * V)) : bool :=
  match get k m with Some _ => true | None => false end.

Definition delete (k : string) (m : list (string * V)) : list (string * V) :=
  filter (λ kv, kv.1 ≠ k) m.

Definition set (k : string) (v : V) (m : list (string * V)) : list (string * V) :=
  if has k m
  then (λ kv : string * V, if decide (kv.1 = k) then (k, v) else kv) <$> m
  else m ++ [(k, v)].

Definition keys (m : list (string * V)) : list string := m.*1.

(** Keys of a [Map] are unique. *)
Definition wf (m : list (string * V)) : Prop := NoDup (keys m).
End JsMap.
End JsMap.

(** [class MemoryCache<T>].  The cache is a state, every operation a
    function on it.  [Date.now()] is an argument of the operation: one
    operation runs synchronously and reads the same millisecond throughout.
    Times, sizes and the integer options are integers; [ttlMs] and the
    expiry time may also be [Infinity]. *)

Module Cache.

(** The cached value, as far as [estimateSize] can tell values apart.  An
    object is represented by what [JSON.stringify] does on it.  Strings are
    sequences of UTF-16 code units, one [ascii] each. *)
Inductive Stringified : Type :=
  | JsonText (s : string)      (* JSON.stringify returned a string *)
  | JsonUndefined              (* JSON.stringify returned undefined *)
  | JsonThrows.                (* JSON.stringify threw, e.g. on a cycle *)

Inductive JsValue : Type :=
  | JsNull
  | JsUndefined
  | JsString (s : string)
  | JsNumber (n : Z)
  | JsBoolean (b : bool)
  | JsObject (json : Stringified)
  | JsOther.                   (* function, symbol, bigint *)

(** A time or a duration in milliseconds; [Infinity] is a legal [ttlMs]. *)
Inductive Num : Type :=
  | Finite (z : Z)
  | Infinity.

(** [Math.max(0, ttlMs)] *)
Definition max0 (ttlMs : Num) : Num :=
  match ttlMs with Finite z => Finite (Z.max 0 z) | Infinity => Infinity end.

(** [now + d] *)
Definition addNow (now : Z) (d : Num) : Num :=
  match d with Finite z => Finite (now + z) | Infinity => Infinity end.

(** [expireAt > now] *)
Definition gtNow (expireAt : Num) (now : Z) : bool :=
  match expireAt with Finite e => now <? e | Infinity => true end.

(** [expireAt <= now] *)
Definition leNow (expireAt : Num) (now : Z) : bool :=
  match expireAt with Finite e => e <=? now | Infinity => false end.

Record CacheRecord : Type := mkRecord {
  value : JsValue;
  expireAt : Num;
  size : Z;
}.

(** [Required<MemoryCacheOptions>].  The threshold is a fraction; it and the
    two quantities derived from it are kept exact, as rationals. *)
Record Options : Type := mkOptions {
  maxSize : Z;
  maxMemoryBytes : Z;
  cleanupInterval : Z;
  memoryThreshold : Q;
}.

(** [MemoryCacheOptions]: every field optional. *)
Record MemoryCacheOptions : Type := mkPartial {
  opt_maxSize : option Z;
  opt_maxMemoryBytes : option Z;
  opt_cleanupInterval : option Z;
  opt_memoryThreshold : option Q;
}.

Record Metrics : Type := mkMetrics {
  hits : nat;
  misses : nat;
  evictions : nat;
}.

Record MemoryCache : Type := mkCache {
  store : list (string * CacheRecord);
  options : Options;
  lastCleanup : Z;
  metrics : Metrics;
}.

(** [constructor(options = {})] *)
Definition MemoryCache_new (o : MemoryCacheOptions) : MemoryCache :=
  {| store := [];
     options :=
       {| maxSize := default 1000 (opt_maxSize o);
          maxMemoryBytes := default (100 * 1024 * 1024) (opt_maxMemoryBytes o);
          cleanupInterval := default (5 * 60 * 1000) (opt_cleanupInterval o);
          memoryThreshold := default (8 # 10)%Q (opt_memoryThreshold o) |};
     lastCleanup := 0;
     metrics := {| hits := 0; misses := 0; evictions := 0 |} |}.

(** [{}], the default argument of the constructor. *)
Definition noOptions : MemoryCacheOptions :=
  {| opt_maxSize := None; opt_maxMemoryBytes := None;
     opt_cleanupInterval := None; opt_memoryThreshold := None |}.

Definition strlen (s : string) : Z := Z.of_nat (String.length s).

(** [estimateSize(value)] *)
Definition estimateSize (v : JsValue) : Z :=
  match v with
  | JsNull | JsUndefined => 8
  | JsString s => strlen s * 2
  | JsNumber _ => 8
  | JsBoolean _ => 4
  | JsObject (JsonText str) =>
      if bool_decide (str = EmptyString) then 64 else strlen str * 2
  | JsObject JsonUndefined => 64
  | JsObject JsonThrows => 64
  | JsOther => 64
  end.

Definition with_store (c : MemoryCache) (s : list (string * CacheRecord))
  : MemoryCache :=
  {| store := s; options := options c; lastCleanup := lastCleanup c;
     metrics := metrics c |}.

Definition with_lastCleanup (c : MemoryCache) (t : Z) : MemoryCache :=
  {| store := store c; options := options c; lastCleanup := t;
     metrics := metrics c |}.

Definition with_metrics (c : MemoryCache) (m : Metrics) : MemoryCache :=
  {| store := store c; options := options c; lastCleanup := lastCleanup c;
     metrics := m |}.

Definition hit_incr (c : MemoryCache) : MemoryCache :=
  with_metrics c {| hits := S (hits (metrics c)); misses := misses (metrics c);
                    evictions := evictions (metrics c) |}.

Definition miss_incr (c : MemoryCache) : MemoryCache :=
  with_metrics c {| hits := hits (metrics c); misses := S (misses (metrics c));
                    evictions := evictions (metrics c) |}.

Definition eviction_incr (c : MemoryCache) : MemoryCache :=
  with_metrics c {| hits := hits (metrics c); misses := misses (metrics c);
                    evictions := S (evictions (metrics c)) |}.

(** [this.store.delete(key)] *)
Definition store_delete (key : string) (c : MemoryCache) : MemoryCache :=
  with_store c (JsMap.delete key (store c)).

(** [calculateMemoryUsage()] *)
Definition calculateMemoryUsage (c : MemoryCache) : Z :=
  fold_left (λ total kv, total + size kv.2) (store c) 0.

(** [cleanupExpired()]: collect the expired keys, then delete them; returns
    their number and the cache. *)
Definition expiredKeys (now : Z) (s : list (string * CacheRecord)) : list string :=
  (filter (λ kv, leNow (expireAt kv.2) now = true) s).*1.

Definition cleanupExpired (now : Z) (c : MemoryCache) : nat * MemoryCache :=
  let keys := expiredKeys now (store c) in
  (length keys, fold_left (λ c key, store_delete key c) keys c).

(** [evictLRU(count)].  The key iterator is taken once; the loop deletes only
    keys it has already yielded, so the iterator is the list of keys at entry. *)
Fixpoint evictLRU_loop (n : nat) (iterator : list string) (c : MemoryCache)
  : MemoryCache :=
  match n, iterator with
  | O, _ => c
  | S _, [] => c
  | S n', key :: iterator' =>
      evictLRU_loop n' iterator' (eviction_incr (store_delete key c))
  end.

Definition evictLRU (count : Z) (c : MemoryCache) : MemoryCache :=
  evictLRU_loop (Z.to_nat count) (JsMap.keys (store c)) c.

Definition Qltb (x y : Q) : bool := negb (Qle_bool y x).

(** [evictForMemory(bytesToFree)] *)
Fixpoint evictForMemory_loop (bytesToFree : Q) (iterator : list string)
    (freed : Z) (c : MemoryCache) : MemoryCache :=
  match iterator with
  | [] => c
  | key :: iterator' =>
      if Qltb (inject_Z freed) bytesToFree then
        match JsMap.get key (store c) with
        | Some rec =>
            evictForMemory_loop bytesToFree iterator' (freed + size rec)
              (eviction_incr (store_delete key c))
        | None => evictForMemory_loop bytesToFree iterator' freed c
        end
      else c
  end.

Definition evictForMemory (bytesToFree : Q) (c : MemoryCache) : MemoryCache :=
  evictForMemory_loop bytesToFree (JsMap.keys (store c)) 0 c.

(** [memoryUsage / maxMemoryBytes > memoryThreshold].  Division by zero gives
    [Infinity] for a positive usage and [NaN] for zero usage. *)
Definition aboveThreshold (memoryUsage : Z) (o : Options) : bool :=
  if maxMemoryBytes o =? 0 then 0 <? memoryUsage
  else Qltb (memoryThreshold o)
            (inject_Z memoryUsage / inject_Z (maxMemoryBytes o))%Q.

(** [smartCleanup(force = false)] with [Date.now() = now]. *)
Definition smartCleanup (force : bool) (now : Z) (c : MemoryCache) : MemoryCache :=
  if negb force && (now - lastCleanup c <? cleanupInterval (options c)) then c
  else
    let c := with_lastCleanup c now in
    let c := (cleanupExpired now c).2 in
    let sizeOver := Z.of_nat (length (store c)) - maxSize (options c) in
    let c := if 0 <? sizeOver then evictLRU sizeOver c else c in
    let memoryUsage := calculateMemoryUsage c in
    let memoryOver := memoryUsage - maxMemoryBytes (options c) in
    let c := if 0 <? memoryOver then evictForMemory (inject_Z memoryOver) c else c in
    if aboveThreshold memoryUsage (options c)
    then evictForMemory (inject_Z memoryUsage * (1 # 10))%Q c
    else c.

Record GetResult : Type := mkGet {
  hit : bool;
  result_value : option JsValue;
}.

(** [get(key)] with [Date.now() = now]. *)
Definition get (key : string) (now : Z) (c : MemoryCache) : GetResult * MemoryCache :=
  let c := smartCleanup false now c in
  match JsMap.get key (store c) with
  | None => ({| hit := false; result_value := None |}, miss_incr c)
  | Some rec =>
      if gtNow (expireAt rec) now then
        let c := store_delete key c in
        let c := with_store c (JsMap.set key rec (store c)) in
        ({| hit := true; result_value := Some (value rec) |}, hit_incr c)
      else
        ({| hit := false; result_value := None |},
         miss_incr (store_delete key c))
  end.

(** [set(key, value, ttlMs)] with [Date.now() = now]. *)
Definition set (key : string) (v : JsValue) (ttlMs : Num) (now : Z)
    (c : MemoryCache) : MemoryCache :=
  let c := smartCleanup false now c in
  let c := if JsMap.has key (store c) then store_delete key c else c in
  let size := estimateSize v in
  let record := {| value := v; expireAt := addNow now (max0 ttlMs); size := size |} in
  let currentMemory := calculateMemoryUsage c in
  let needSizeEviction := maxSize (options c) <=? Z.of_nat (length (store c)) in
  let needMemoryEviction := maxMemoryBytes (options c) <? currentMemory + size in
  let c :=
    if needSizeEviction || needMemoryEviction then
      let c := (cleanupExpired now c).2 in
      let stillNeedSizeEviction :=
        maxSize (options c) <=? Z.of_nat (length (store c)) in
      let currentMemoryAfter := calculateMemoryUsage c in
      let stillNeedMemoryEviction :=
        maxMemoryBytes (options c) <? currentMemoryAfter + size in
      if stillNeedSizeEviction then
        let toEvict := Z.of_nat (length (store c)) - maxSize (options c) + 1 in
        evictLRU toEvict c
      else if stillNeedMemoryEviction then
        let bytesToFree := currentMemoryAfter + size - maxMemoryBytes (options c) in
        evictForMemory (inject_Z bytesToFree) c
      else c
    else c in
  with_store c (JsMap.set key record (store c)).

(** [delete(key)] *)
Definition delete (key : string) (c : MemoryCache) : MemoryCache :=
  store_delete key c.

(** [clear()] *)
Definition clear (c : MemoryCache) : MemoryCache :=
  with_metrics (with_store c []) {| hits := 0; misses := 0; evictions := 0 |}.

(** [get size()] *)
Definition cache_size (c : MemoryCache) : nat := length (store c).

(** [get memoryUsage()] *)
Definition memoryUsage (c : MemoryCache) : Z := calculateMemoryUsage c.

(** [forceCleanup()] *)
Definition forceCleanup (now : Z) (c : MemoryCache) : MemoryCache :=
  smartCleanup true now c.

(** The public operations, for runs of the cache. *)
Inductive Op : Type :=
  | OpGet (key : string) (now : Z)
  | OpSet (key : string) (v : JsValue) (ttlMs : Num) (now : Z)
  | OpDelete (key : string)
  | OpClear
  | OpForceCleanup (now : Z).

Definition step (c : MemoryCache) (op : Op) : MemoryCache :=
  match op with
  | OpGet key now => (get key now c).2
  | OpSet key v ttlMs now => set key v ttlMs now c
  | OpDelete key => delete key c
  | OpClear => clear c
  | OpForceCleanup now => forceCleanup now c
  end.

Definition run (ops : list Op) (c : MemoryCache) : MemoryCache :=
  fold_left step ops c.

(** Representation invariant: the keys of the [Map] are unique and every
    recorded size is the estimate of some value, hence not negative. *)
Definition wf (c : MemoryCache) : Prop :=
  JsMap.wf (store c) ∧ Forall (λ kv, 0 ≤ size kv.2) (store c).

(** *** Vocabulary of the properties *)

(** The sum of the recorded sizes. *)
Definition memOf (s : list (string * CacheRecord)) : Z :=
  foldr (λ kv total, size kv.2 + total) 0 s.

(** No recorded size is negative. *)
Definition nonneg (s : list (string * CacheRecord)) : Prop :=
  Forall (λ kv, 0 ≤ size kv.2) s.

(** [c'] keeps the options of [c] and holds some of its entries, in the
    same order. *)
Definition evicts (c c' : MemoryCache) : Prop :=
  store c' `sublist_of` store c ∧ options c' = options c.

(** An entry is live at [now] when it has not expired. *)
Definition live (now : Z) (kv : string * CacheRecord) : Prop :=
  gtNow (expireAt kv.2) now = true.

(** The state of [smartCleanup] after the purge and the item-count step. *)
Definition afterCount (now : Z) (c : MemoryCache) : MemoryCache :=
  let c := (cleanupExpired now (with_lastCleanup c now)).2 in
  if 0 <? Z.of_nat (length (store c)) - maxSize (options c)
  then evictLRU (Z.of_nat (length (store c)) - maxSize (options c)) c
  else c.

(** ... and after the memory-cap step. *)
Definition afterCap (now : Z) (c : MemoryCache) : MemoryCache :=
  let c := afterCount now c in
  if 0 <? calculateMemoryUsage c - maxMemoryBytes (options c)
  then evictForMemory
         (inject_Z (calculateMemoryUsage c - maxMemoryBytes (options c))) c
  else c.

(** The conditions under which a cleanup pass finds nothing to do. *)
Definition quiet (now : Z) (c : MemoryCache) : Prop :=
  Forall (live now) (store c)
  ∧ Z.of_nat (length (store c)) ≤ maxSize (options c)
  ∧ calculateMemoryUsage c ≤ maxMemoryBytes (options c)
  ∧ aboveThreshold (calculateMemoryUsage c) (options c) = false.

(** The state of [set] once the old entry of the key is removed. *)
Definition prepared (key : string) (now : Z) (c : MemoryCache)
  : MemoryCache :=
  let c := smartCleanup false now c in
  if JsMap.has key (store c) then store_delete key c else c.

(** The eviction block of [set], entered from the prepared state. *)
Definition makeRoom (size : Z) (now : Z) (c : MemoryCache) : MemoryCache :=
  if (maxSize (options c) <=? Z.of_nat (length (store c)))
     || (maxMemoryBytes (options c) <? calculateMemoryUsage c + size)
  then
    let c := (cleanupExpired now c).2 in
    if maxSize (options c) <=? Z.of_nat (length (store c)) then
      evictLRU (Z.of_nat (length (store c)) - maxSize (options c) + 1) c
    else if maxMemoryBytes (options c) <? calculateMemoryUsage c + size then
      evictForMemory
        (inject_Z (calculateMemoryUsage c + size - maxMemoryBytes (options c))) c
    else c
  else c.

(** The prepared state with its expired entries purged. *)
Definition purged (key : string) (now : Z) (c : MemoryCache) : MemoryCache :=
  (cleanupExpired now (prepared key now c)).2.

(** The two answers of [get]: [{ hit: false }] and [{ hit: true, value }]. *)
Definition miss : GetResult := {| hit := false; result_value := None |}.
Definition hitWith (v : JsValue) : GetResult :=
  {| hit := true; result_value := Some v |}.

(** The operation is a [set] on [key]. *)
Definition setsKey (key : string) (op : Op) : Prop :=
  match op with OpSet k _ _ _ => k = key | _ => False end.

(** The cleanup pass that opens an operation has no memory-driven eviction
    to perform: it is within its minimum interval, or the usage is within
    the cap and not above the threshold. *)
Definition memoryIdle (now : Z) (c : MemoryCache) : Prop :=
  now - lastCleanup c < cleanupInterval (options c)
  ∨ (calculateMemoryUsage c ≤ maxMemoryBytes (options c)
     ∧ aboveThreshold (calculateMemoryUsage c) (options c) = false).

(** The options of the cache unit tests: 100 items, 10 MiB. *)
Definition testOptions : MemoryCacheOptions :=
  {| opt_maxSize := Some 100; opt_maxMemoryBytes := Some (10 * 1024 * 1024);
     opt_cleanupInterval := None; opt_memoryThreshold := None |}.

(** A cache of 100 items and 10 bytes. *)
Definition smallBudget : MemoryCache :=
  MemoryCache_new {| opt_maxSize := Some 100; opt_maxMemoryBytes := Some 10;
                     opt_cleanupInterval := None; opt_memoryThreshold := None |}.

(** A cache of 2 items and 10 bytes. *)
Definition tinyCache : MemoryCache :=
  MemoryCache_new {| opt_maxSize := Some 2; opt_maxMemoryBytes := Some 10;
                     opt_cleanupInterval := None; opt_memoryThreshold := None |}.

(** The cache of the LRU unit test: 2 items, 10 MiB. *)
Definition lruCache : MemoryCache :=
  MemoryCache_new {| opt_maxSize := Some 2;
                     opt_maxMemoryBytes := Some (10 * 1024 * 1024);
                     opt_cleanupInterval := None; opt_memoryThreshold := None |}.

(** A cache of 2 items and 100 bytes. *)
Definition tightCache : MemoryCache :=
  MemoryCache_new {| opt_maxSize := Some 2; opt_maxMemoryBytes := Some 100;
                     opt_cleanupInterval := None; opt_memoryThreshold := None |}.

(** A string of 45 characters, estimated at 90 bytes. *)
Definition fortyFive : string := "xxxxxxxxxxxxxxxxxxxxxxxxxxxxxxxxxxxxxxxxxxxxx".

End Cache.

(** ** Orchestrator *)

Module Orchestrator.
Import Types Registry Merger.

Inductive ResultShape : Type := ShapeResults | ShapeMergedByType | ShapeAll.
Inductive SourceSelector : Type := SrcAll | SrcTg | SrcPlugin.

(** The validated request, in the order of the arguments of
    [SearchService.search] as the integration tests call it. *)
Record SearchRequestProfile : Type := mkProfile {
  keyword : string;
  channels : option (list string);
  concurrency : option Z;
  forceRefresh : bool;
  resultShape : ResultShape;
  source : SourceSelector;
  pluginNames : option (list string);
  cloudTypes : option (list string);
  timeoutOverride : option Z;      (* the reserved key of the extension bag *)
}.

(** [SearchServiceOptions], as the integration tests build it. *)
Record SearchServiceOptions : Type := mkServiceOptions {
  priorityChannels : list string;
  defaultChannels : list string;
  defaultConcurrency : Z;
  pluginTimeoutMs : Z;
  cacheEnabled : bool;
  cacheTtlMinutes : Z;
}.

(** [SearchResponse] of [server/core/types/search.ts]. *)
Record SearchResponse : Type := mkResponse {
  total : nat;
  results : option (list SearchResult);
  merged_by_type : option MergedLinks;
}.

(** Modelled from the spec: the partition of step 3 into batches of [n]
    plugins. *)
Fixpoint batches_fuel {A} (fuel n : nat) (l : list A) : list (list A) :=
  match fuel, l with
  | _, [] => []
  | O, _ => [l]
  | S fuel', _ => take n l :: batches_fuel fuel' n (drop n l)
  end.

Definition batches {A} (n : nat) (l : list A) : list (list A) :=
  batches_fuel (length l) (Nat.max 1 n) l.

(** Modelled from the spec: step 6, the links of the results of one plugin
    grouped by storage type. *)
Definition addLink (t : string) (acc : MergedLinks) (l : ResultLink) : MergedLinks :=
  <[ link_type l :=
       default [] (acc !! link_type l)
         ++ [ {| url := link_url l; password := link_password l; title := t |} ] ]>
    acc.

Definition groupByType (rs : list SearchResult) : MergedLinks :=
  fold_left (λ acc r, fold_left (addLink (result_title r)) (links r) acc) rs ∅.

(** A plugin of the tests: a name, a priority and a fixed outcome. *)
Record ScriptedPlugin : Type := mkScripted {
  sp_name : string;
  sp_priority : Z;
  sp_outcome : Invocation;
}.

#[global] Instance ScriptedPlugin_plugin : AsyncSearchPlugin ScriptedPlugin := {|
  name := sp_name;
  priority := sp_priority;
  search := λ p _, sp_outcome p;
  skipServiceFilter := λ _, false;
|}.

Section Service.
Context {P : Type} `{AsyncSearchPlugin P}.

(** The definitions of this section stand for
    [server/core/services/searchService.ts], which is not in the tree; they
    follow section 4.4 of the specification, steps 1 to 8, for the plugin
    sources held by the registry.  Channel sources are not registry entries
    and are left out: under the selector [tg] no plugin runs.  The cache is
    an argument and a result of [search]: [cached] is what a lookup under
    the key of the request finds, the second component of the result is what
    gets written. *)

(** Modelled from the spec: step 1 of [SearchService.search], the selection
    of the working plugin set, in registry priority order. *)
Definition selectPlugins (m : PluginManager P) (req : SearchRequestProfile)
  : list P :=
  match source req with
  | SrcTg => []
  | SrcAll | SrcPlugin =>
      match pluginNames req with
      | Some names => filter (λ p, name p ∈ names) (getPlugins m)
      | None => getPlugins m
      end
  end.

(** Modelled from the spec: the effective concurrency of step 3, the
    override or else the configured default, clamped to the range the
    request schema admits (1 to 20). *)
Definition effectiveConcurrency (o : SearchServiceOptions)
    (req : SearchRequestProfile) : nat :=
  Z.to_nat (Z.min 20 (Z.max 1 (default (defaultConcurrency o) (concurrency req)))).

(** Modelled from the spec: the effective timeout of step 4, the override of
    the extension bag or else the configured default. *)
Definition effectiveTimeout (o : SearchServiceOptions)
    (req : SearchRequestProfile) : Z :=
  default (pluginTimeoutMs o) (timeoutOverride req).

(** Modelled from the spec: step 4, awaiting the promise of the plugin raced
    against the timeout; the promise wins when it settles before the timeout
    elapses. *)
Definition awaitWithTimeout (timeout : Z) (kw : string) (p : P)
  : Result (list SearchResult) :=
  let inv := search p kw in
  if elapsedMs inv <? timeout then
    match settlement inv with
    | Fulfilled rs => Ok rs
    | Rejected reason => Throw reason
    end
  else Throw "timeout".

(** Modelled from the spec: steps 4 and 5, a timeout or a failure of one
    plugin is caught and counts as zero results for that plugin. *)
Definition runPlugin (timeout : Z) (kw : string) (p : P) : list SearchResult :=
  match awaitWithTimeout timeout kw p with
  | Ok rs => rs
  | Throw _ => []
  end.

(** Modelled from the spec: step 3, the fan-out, batch after batch; the
    result holds one list per plugin, in the order of the selection. *)
Definition fanOut (conc : nat) (timeout : Z) (kw : string) (ps : list P)
  : list (list SearchResult) :=
  concat ((λ batch : list P, runPlugin timeout kw <$> batch) <$> batches conc ps).

(** Modelled from the spec: step 6, folding the per-plugin groups through
    the merger, in plugin priority order. *)
Definition mergeAll (assembled : list (list SearchResult)) : MergedLinks :=
  fold_left (λ acc rs, mergeBuckets acc (groupByType rs)) assembled ∅.

(** Modelled from the spec: step 6, the cloud-type filter drops the types
    that are not asked for. *)
Definition applyCloudFilter (types : option (list string)) (m : MergedLinks)
  : MergedLinks :=
  match types with
  | Some ts => filter (λ kv, kv.1 ∈ ts) m
  | None => m
  end.

(** Modelled from the spec: step 8, shaping; [total] counts the raw
    results. *)
Definition shape (req : SearchRequestProfile)
    (assembled : list (list SearchResult)) : SearchResponse :=
  let raw := concat assembled in
  let merged := applyCloudFilter (cloudTypes req) (mergeAll assembled) in
  {| total := length raw;
     results :=
       match resultShape req with
       | ShapeResults | ShapeAll => Some raw
       | ShapeMergedByType => None
       end;
     merged_by_type :=
       match resultShape req with
       | ShapeMergedByType | ShapeAll => Some merged
       | ShapeResults => None
       end |}.

(** The number of results a plugin delivers in time. *)
Definition delivered (timeout : Z) (kw : string) (p : P) : nat :=
  let inv := search p kw in
  match settlement inv with
  | Fulfilled rs => if elapsedMs inv <? timeout then length rs else 0%nat
  | Rejected _ => 0%nat
  end.

(** The call of the plugin throws or rejects. *)
Definition rejects (kw : string) (p : P) : bool :=
  match settlement (search p kw) with
  | Rejected _ => true
  | Fulfilled _ => false
  end.

(** Modelled from the spec: step 2, the cached entry that answers the
    request, if caching is enabled and no refresh is forced. *)
Definition cacheHit (o : SearchServiceOptions) (req : SearchRequestProfile)
    (cached : option (list (list SearchResult)))
  : option (list (list SearchResult)) :=
  if cacheEnabled o && negb (forceRefresh req) then cached else None.

(** Modelled from the spec: [SearchService.search], steps 1 to 8; the
    response, and what is written to the cache (step 7). *)
Definition search (o : SearchServiceOptions) (m : PluginManager P)
    (req : SearchRequestProfile) (cached : option (list (list SearchResult)))
  : Result (SearchResponse * option (list (list SearchResult))) :=
  match cacheHit o req cached with
  | Some assembled => Ok (shape req assembled, None)
  | None =>
      let assembled :=
        fanOut (effectiveConcurrency o req) (effectiveTimeout o req)
               (keyword req) (selectPlugins m req) in
      Ok (shape req assembled,
          if cacheEnabled o then Some assembled else None)
  end.
End Service.

(** A result with one link. *)
Definition oneResult (id : string) : SearchResult :=
  {| message_id := id; unique_id := id; channel := id; datetime := "";
     result_title := "Result"; content := "Content";
     links := [ {| link_type := "baidu"; link_url := id; link_password := "" |} ] |}.

(** Three plugins, the second of which always throws. *)
Definition threePlugins : PluginManager ScriptedPlugin :=
  registerPlugins
    [ Some (mkScripted "plugin1" 1 (mkInvocation 10 (Fulfilled [oneResult "a"])));
      Some (mkScripted "plugin2" 2 (mkInvocation 10 (Rejected "Network timeout")));
      Some (mkScripted "plugin3" 3
              (mkInvocation 10 (Fulfilled [oneResult "b"; oneResult "c"]))) ]
    PluginManager_new.

(** The options and the request of the integration test on failing
    plugins. *)
Definition testServiceOptions : SearchServiceOptions :=
  {| priorityChannels := []; defaultChannels := ["test"];
     defaultConcurrency := 2; pluginTimeoutMs := 5000;
     cacheEnabled := false; cacheTtlMinutes := 30 |}.

Definition testRequest : SearchRequestProfile :=
  {| keyword := "test"; channels := None; concurrency := None;
     forceRefresh := true; resultShape := ShapeResults; source := SrcPlugin;
     pluginNames := None; cloudTypes := None; timeoutOverride := None |}.

End Orchestrator.

(** ** Fixtures of the unit tests *)

Module Fixtures.
Import Registry Cache.

(** The instant at which the replayed tests start. *)
Definition t0 : Z := 1700000000000.

(** [new MemoryCache<string>({ maxSize: 100, maxMemoryBytes: 10 MiB })] *)
Definition cache : MemoryCache := MemoryCache_new testOptions.

(** [cache.set(key, value, ttl)] for a string value, at time [now]. *)
Definition setString (key value : string) (ttl now : Z) (c : MemoryCache)
  : MemoryCache :=
  set key (JsString value) (Finite ttl) now c.

(** [new MemoryCache<string>({ maxSize: 3, maxMemoryBytes: 10 MiB })] *)
Definition smallCache : MemoryCache :=
  MemoryCache_new {| opt_maxSize := Some 3;
                     opt_maxMemoryBytes := Some (10 * 1024 * 1024);
                     opt_cleanupInterval := None; opt_memoryThreshold := None |}.

(** [new MemoryCache<string>({ maxSize: 0, maxMemoryBytes: 0 })] *)
Definition invalidCache : MemoryCache :=
  MemoryCache_new {| opt_maxSize := Some 0; opt_maxMemoryBytes := Some 0;
                     opt_cleanupInterval := None; opt_memoryThreshold := None |}.

(** The plugins of the sorting test of the manager. *)
Definition high : BaseAsyncPlugin := BaseAsyncPlugin_new "high" 3.
Definition low : BaseAsyncPlugin := BaseAsyncPlugin_new "low" 1.
Definition medium : BaseAsyncPlugin := BaseAsyncPlugin_new "medium" 2.

End Fixtures.

(** ** Client-side batches

    [composables/search/batch.ts] and [composables/search/controller.ts]
    call the merger: they split the enabled sources into batches, query the
    search API batch by batch and fold the responses into one mapping. *)

Module Batch.
Import Types Merger.

(** [SearchOptions['settings']]; the two numbers are integers. *)
Record Settings : Type := mkSettings {
  enabledPlugins : list string;
  enabledTgChannels : list string;
  concurrency : Z;
  pluginTimeoutMs : Z;
}.

(** What the client reads of a [SearchResponse]: [merged_by_type?]. *)
Record SearchResponse : Type := mkResponse {
  merged_by_type : option MergedLinks;
}.

Inductive Source : Type := SrcPlugin | SrcTg.

(** One query of a batch:
    [{ kw, res: "merged_by_type", src, plugins | channels, conc, ext }];
    [names] is the [plugins] or the [channels] field, [plugin_timeout_ms]
    the only entry of [ext]. *)
Record BatchParam : Type := mkParam {
  kw : string;
  src : Source;
  names : string;
  param_conc : Z;
  plugin_timeout_ms : Z;
}.

(** [Math.min(16, Math.max(1, Number(settings.concurrency || 3)))] *)
Definition conc (s : Settings) : Z :=
  Z.min 16 (Z.max 1 (if concurrency s =? 0 then 3 else concurrency s)).

(** [arr.slice(start, end)] for indices that are natural numbers. *)
Definition slice {A} (start end_ : nat) (arr : list A) : list A :=
  take (end_ - start) (drop start arr).

(** [for (let i = 0; i < rest.length; i += batchSize)
       batches.push(rest.slice(i, i + batchSize))], entered at index [i].
    The loop runs at most [rest.length] times when [batchSize] is at least
    one, which [fuel] counts. *)
Fixpoint batchesFrom {A} (fuel i batchSize : nat) (rest : list A)
  : list (list A) :=
  match fuel with
  | O => []
  | S fuel' =>
      if (i <? length rest)%nat
      then slice i (i + batchSize) rest
             :: batchesFrom fuel' (i + batchSize) batchSize rest
      else []
  end.

Definition batchesOf {A} (batchSize : nat) (rest : list A) : list (list A) :=
  batchesFrom (length rest) 0 batchSize rest.

Definition batchSize (s : Settings) : nat := Z.to_nat (conc s).

(** [settings.enabledPlugins.slice(0, conc)] and
    [settings.enabledTgChannels.slice(0, batchSize)] *)
Definition fastPlugins (s : Settings) : list string :=
  slice 0 (batchSize s) (enabledPlugins s).
Definition fastTg (s : Settings) : list string :=
  slice 0 (batchSize s) (enabledTgChannels s).

(** [settings.enabledPlugins.slice(conc)] cut into [pluginBatches], and
    the same for the channels. *)
Definition pluginBatches (s : Settings) : list (list string) :=
  batchesOf (batchSize s) (drop (batchSize s) (enabledPlugins s)).
Definition tgBatches (s : Settings) : list (list string) :=
  batchesOf (batchSize s) (drop (batchSize s) (enabledTgChannels s)).

(** [Math.max(pluginBatches.length, tgBatches.length)] *)
Definition maxLen (s : Settings) : nat :=
  (length (pluginBatches s) `max` length (tgBatches s))%nat.

(** The [batchParams] of one round, from its batch of plugins and its batch
    of channels; a batch that is missing or empty adds no query. *)
Definition roundParams (keyword : string) (s : Settings)
    (pb tb : option (list string)) : list BatchParam :=
  (match pb with
   | Some (p :: ps) =>
       [{| kw := keyword; src := SrcPlugin;
           names := String.concat "," (p :: ps);
           param_conc := conc s; plugin_timeout_ms := pluginTimeoutMs s |}]
   | _ => []
   end)
  ++ (match tb with
      | Some (t :: ts) =>
          [{| kw := keyword; src := SrcTg;
              names := String.concat "," (t :: ts);
              param_conc := conc s; plugin_timeout_ms := pluginTimeoutMs s |}]
      | _ => []
      end).

Definition fastParams (keyword : string) (s : Settings) : list BatchParam :=
  roundParams keyword s (Some (fastPlugins s)) (Some (fastTg s)).

(** Round [i] of [performDeepSearch]: [pluginBatches[i]], [tgBatches[i]]. *)
Definition deepParams (keyword : string) (s : Settings) (i : nat)
  : list BatchParam :=
  roundParams keyword s (pluginBatches s !! i) (tgBatches s !! i).


(** [for (const r of results)
       if (r.merged_by_type) merged = mergeMergedByType(merged, r.merged_by_type)];
    a throw of the merge leaves the loop. *)
Fixpoint collect (results : list SearchResponse) (merged : MergedLinks)
  : Result MergedLinks :=
  match results with
  | [] => Ok merged
  | r :: rest =>
      match merged_by_type r with
      | Some m =>
          match mergeMergedByType merged (Some m) with
          | Ok merged' => collect rest merged'
          | Throw e => Throw e
          end
      | None => collect rest merged
      end
  end.


(** [Object.values(merged).reduce((sum, arr) => sum + (arr?.length || 0), 0)] *)
Definition Object_values {V} (o : gmap string V) : list V :=
  (map_to_list o).*2.

Definition totalOf (merged : MergedLinks) : nat :=
  fold_left (λ sum arr, (sum + length arr)%nat) (Object_values merged) 0%nat.

(** *** Vocabulary of the properties *)

(** Every URL that [incoming] lists under a type is already listed by
    [merged] under that type. *)
Definition absorbs (merged incoming : MergedLinks) : Prop :=
  ∀ type next, incoming !! type = Some next →
    ∃ l, merged !! type = Some l ∧ ∀ x, x ∈ next → url x ∈ url <$> l.


(** No key of the mapping is the name of an inherited member; the storage
    types of the interface [MergedLinks] are such keys. *)
Definition ordinary (m : MergedLinks) : Prop :=
  ∀ type, is_Some (m !! type) → type ∉ Object_prototype.




(** The number of links of a bucket that may be absent. *)
Definition bucketLength (b : option (list Link)) : nat :=
  match b with Some l => length l | None => 0%nat end.

End Batch.

(** ** Cache statistics: [MemoryCache.getStats] *)

Module CacheStats.

(** The value of a JS division of integers: a ratio, or, when the divisor is
    zero, an infinity or [NaN]. *)
Inductive JsRatio : Type :=
  | Ratio (q : Q)
  | PosInfinity
  | NegInfinity
  | NaN.

(** [interface MemoryCacheStats] *)
Record MemoryCacheStats : Type := mkStats {
  total : nat;
  active : nat;
  expired : nat;
  maxSize : Z;
  memoryBytes : Z;
  maxMemoryBytes : Z;
  memoryUsagePercent : JsRatio;
  hits : nat;
  misses : nat;
  evictions : nat;
}.

(** [Math.round(x)]: the nearest integer, a tie going up. *)
Definition Math_round (x : Q) : Z := Qfloor (x + (1 # 2)).

(** [Math.round((memoryBytes / maxMemoryBytes) * 100 * 100) / 100], kept
    exact. *)
Definition usagePercent (memoryBytes maxMemoryBytes : Z) : JsRatio :=
  if maxMemoryBytes =? 0 then
    if memoryBytes =? 0 then NaN
    else if 0 <? memoryBytes then PosInfinity else NegInfinity
  else
    Ratio (inject_Z (Math_round
                       (inject_Z memoryBytes / inject_Z maxMemoryBytes
                        * 100 * 100))
           / 100)%Q.

(** Body of the counting loop; the state is [(active, expired)]. *)
Definition countEntry (now : Z) (st : nat * nat)
    (kv : string * Cache.CacheRecord) : nat * nat :=
  if Cache.gtNow (Cache.expireAt kv.2) now then (S st.1, st.2)
  else (st.1, S st.2).

(** [getStats()] with [Date.now() = now]. *)
Definition getStats (now : Z) (c : Cache.MemoryCache) : MemoryCacheStats :=
  let counts := fold_left (countEntry now) (Cache.store c) (0%nat, 0%nat) in
  let memoryBytes := Cache.calculateMemoryUsage c in
  {| total := length (Cache.store c);
     active := counts.1;
     expired := counts.2;
     maxSize := Cache.maxSize (Cache.options c);
     memoryBytes := memoryBytes;
     maxMemoryBytes := Cache.maxMemoryBytes (Cache.options c);
     memoryUsagePercent :=
       usagePercent memoryBytes (Cache.maxMemoryBytes (Cache.options c));
     hits := Cache.hits (Cache.metrics c);
     misses := Cache.misses (Cache.metrics c);
     evictions := Cache.evictions (Cache.metrics c) |}.

End CacheStats.

Module CacheAccounting.
Import Cache.

(** [c'] has the hit and miss counters of [c], and its eviction counter has
    grown by the number of entries that [c'] holds less. *)
Definition accounts (c c' : MemoryCache) : Prop :=
  hits (metrics c') = hits (metrics c)
  ∧ misses (metrics c') = misses (metrics c)
  ∧ (evictions (metrics c') + length (store c')
     = evictions (metrics c) + length (store c))%nat.

#[export] Instance live_dec (now : Z) (kv : string * CacheRecord) :
  Decision (live now kv).
Proof. unfold live. apply _. Defined.

(** The number of [get]s of a run since its last [clear], counted from [n]. *)
Definition lookups (ops : list Op) (n : nat) : nat :=
  fold_left (λ n op, match op with
                     | OpGet _ _ => S n
                     | OpClear => 0%nat
                     | _ => n
                     end) ops n.

(** Every recorded size is the estimate of the recorded value. *)
Definition sized (s : list (string * CacheRecord)) : Prop :=
  Forall (λ kv, size kv.2 = estimateSize (value kv.2)) s.

(** The sum of the estimates of the stored values. *)
Definition estimated (s : list (string * CacheRecord)) : Z :=
  foldr (λ kv total, estimateSize (value kv.2) + total) 0 s.

(** The record [set] stores. *)
Definition recordOf (v : JsValue) (ttlMs : Num) (now : Z) : CacheRecord :=
  {| value := v; expireAt := addNow now (max0 ttlMs); size := estimateSize v |}.

(** A cache of three short strings, the first two already expired at 10. *)
Definition agedCache : MemoryCache :=
  set "c" (JsString "z") Infinity 2
    (set "b" (JsString "y") (Finite 5) 1
       (set "a" (JsString "x") (Finite 5) 0 (MemoryCache_new noOptions))).

End CacheAccounting.

(** * Properties *)

Module MergerFacts.
Import Types Merger.

(** The inner loop appends exactly [newLinks]. *)
Lemma fold_pushUnseen (next : list Link) :
  ∀ (seen : gset string) (arr : list Link) (present : list string),
    (∀ u, u ∈ seen ↔ u ∈ present) →
    (fold_left pushUnseen next (seen, arr)).2 = arr ++ newLinks present next.
Proof.
  induction next as [|item rest IH]; intros seen arr present Hsp; simpl.
  - by rewrite app_nil_r.
  - unfold pushUnseen at 2; simpl.
    destruct (decide (url item ∈ seen)) as [Hin|Hnin];
      destruct (decide (url item ∈ present)) as [Hin'|Hnin'];
      try (exfalso; naive_solver).
    + by apply IH.
    + rewrite (IH _ _ (url item :: present)).
      * by rewrite <- app_assoc.
      * intros u. rewrite elem_of_union, elem_of_singleton, elem_of_cons.
        naive_solver.
Qed.

Lemma mergeArr_newLinks (existed next : list Link) :
  mergeArr existed next = existed ++ newLinks (url <$> existed) next.
Proof.
  unfold mergeArr. apply fold_pushUnseen.
  intros u. by rewrite elem_of_list_to_set.
Qed.

(** [newLinks] only looks at which of the URLs of [next] are present. *)
Lemma newLinks_ext (next : list Link) :
  ∀ p q : list string,
    (∀ x, x ∈ next → url x ∈ p ↔ url x ∈ q) →
    newLinks p next = newLinks q next.
Proof.
  induction next as [|item rest IH]; intros p q Hpq; simpl; [done|].
  assert (Hhd : url item ∈ p ↔ url item ∈ q) by (apply Hpq; left).
  destruct (decide (url item ∈ p)) as [Hp|Hp];
    destruct (decide (url item ∈ q)) as [Hq|Hq]; try tauto.
  - apply IH. intros x Hx. apply Hpq. by right.
  - f_equal. apply IH. intros x Hx. rewrite !elem_of_cons.
    assert (url x ∈ p ↔ url x ∈ q) by (apply Hpq; by right). tauto.
Qed.

(** The appended links keep the order of [next]. *)
Lemma newLinks_sublist (next : list Link) :
  ∀ p, newLinks p next `sublist_of` next.
Proof.
  induction next as [|item rest IH]; intros p; simpl; [done|].
  destruct (decide _).
  - by apply sublist_cons.
  - by apply sublist_skip.
Qed.

(** No appended link has a URL that was present before. *)
Lemma newLinks_fresh (next : list Link) :
  ∀ p x, x ∈ newLinks p next → url x ∉ p.
Proof.
  induction next as [|item rest IH]; intros p x; simpl.
  - by intros ?%elem_of_nil.
  - destruct (decide _) as [|Hn]; [by apply IH|].
    intros [->|Hx]%elem_of_cons; [done|].
    apply IH in Hx. set_solver.
Qed.

(** The appended URLs are pairwise distinct. *)
Lemma newLinks_NoDup (next : list Link) :
  ∀ p, NoDup (url <$> newLinks p next).
Proof.
  induction next as [|item rest IH]; intros p; simpl; [constructor|].
  destruct (decide _) as [|Hn]; [by apply IH|].
  rewrite fmap_cons. constructor; [|by apply IH].
  intros (x & Hu & Hx)%list_elem_of_fmap.
  apply newLinks_fresh in Hx. rewrite <- Hu in Hx. set_solver.
Qed.

(** No URL of [next] is lost: each is present before or gets appended. *)
Lemma newLinks_complete (next : list Link) :
  ∀ p x, x ∈ next → url x ∈ p ∨ url x ∈ url <$> newLinks p next.
Proof.
  induction next as [|item rest IH]; intros p x; simpl.
  - by intros ?%elem_of_nil.
  - intros [->|Hx]%elem_of_cons.
    + destruct (decide _); [by left|right]. set_solver.
    + destruct (decide _); [by apply IH|].
      destruct (IH (url item :: p) x Hx) as [H|H]; set_solver.
Qed.

(** With pairwise distinct URLs in [next], the appended links are exactly
    the filter of [next] by "URL not present". *)
Lemma newLinks_filter (next : list Link) :
  ∀ p, uniqueUrls next →
       newLinks p next = filter (λ x, url x ∉ p) next.
Proof.
  unfold uniqueUrls.
  induction next as [|item rest IH]; intros p Hnd; simpl; [done|].
  rewrite fmap_cons in Hnd. apply NoDup_cons in Hnd as [Hhd Htl].
  rewrite filter_cons. destruct (decide (url item ∈ p)) as [Hin|Hnin].
  - rewrite decide_False by (intros ?; done). by apply IH.
  - rewrite decide_True by done. f_equal.
    rewrite <- IH by done. apply newLinks_ext.
    intros x Hx. rewrite elem_of_cons. split; [|tauto].
    intros [Heq|?]; [|done]. exfalso. apply Hhd. rewrite <- Heq.
    apply list_elem_of_fmap. eauto.
Qed.

(** Once every URL of [next] is present, nothing is appended. *)
Lemma newLinks_nil (next : list Link) (p : list string) :
  (∀ x, x ∈ next → url x ∈ p) → newLinks p next = [].
Proof.
  induction next as [|item rest IH]; intros Hall; simpl; [done|].
  rewrite decide_True by (apply Hall; left).
  apply IH. intros x Hx. apply Hall. by right.
Qed.

(** Merging a bucket with the same [next] a second time changes nothing. *)
Lemma mergeArr_idem (existed next : list Link) :
  mergeArr (mergeArr existed next) next = mergeArr existed next.
Proof.
  rewrite (mergeArr_newLinks (mergeArr _ _)).
  rewrite (newLinks_nil next (url <$> mergeArr existed next)).
  - by rewrite app_nil_r.
  - intros x Hx. rewrite mergeArr_newLinks, fmap_app, elem_of_app.
    by apply newLinks_complete.
Qed.

(** Uniqueness of URLs is preserved by merging a bucket. *)
Lemma mergeArr_uniqueUrls (existed next : list Link) :
  uniqueUrls existed → uniqueUrls (mergeArr existed next).
Proof.
  unfold uniqueUrls. intros Hnd. rewrite mergeArr_newLinks, fmap_app.
  apply NoDup_app. split; [done|]. split; [|apply newLinks_NoDup].
  intros u Hu (x & -> & Hx)%list_elem_of_fmap.
  by apply newLinks_fresh in Hx.
Qed.

(** The buckets built key by key, over any duplicate-free key list. *)
Lemma fold_mergeBucket_lookup (inc : MergedLinks) (keys : list string) :
  NoDup keys →
  ∀ (out : MergedLinks) (k : string),
    fold_left (mergeBucket inc) keys out !! k =
      if decide (k ∈ keys)
      then Some (mergeArr (default [] (out !! k)) (default [] (inc !! k)))
      else out !! k.
Proof.
  induction keys as [|t rest IH]; intros Hnd out k; cbn [fold_left].
  - rewrite decide_False; [done|]. apply not_elem_of_nil.
  - apply NoDup_cons in Hnd as [Ht Hrest].
    rewrite IH by done. unfold mergeBucket.
    destruct (decide (k ∈ rest)) as [Hk|Hk].
    + rewrite decide_True by (by right).
      rewrite lookup_insert_ne; [done|]. by intros ->.
    + destruct (decide (k = t)) as [->|Hne].
      * rewrite decide_True by (by left). by rewrite lookup_insert_eq.
      * rewrite decide_False by (rewrite elem_of_cons; tauto).
        by rewrite lookup_insert_ne.
Qed.

Lemma elem_of_Object_keys {V} (o : gmap string V) (k : string) :
  k ∈ Object_keys o ↔ is_Some (o !! k).
Proof.
  unfold Object_keys. rewrite list_elem_of_fmap. split.
  - intros ([k' v] & -> & Hin). apply elem_of_map_to_list in Hin. eauto.
  - intros [v Hv]. exists (k, v). split; [done|]. by apply elem_of_map_to_list.
Qed.

(** The merged buckets, bucket by bucket. *)
Lemma mergeBuckets_lookup (target inc : MergedLinks) (k : string) :
  mergeBuckets target inc !! k =
    match inc !! k with
    | Some next =>
        Some (default [] (target !! k)
                ++ newLinks (url <$> default [] (target !! k)) next)
    | None => target !! k
    end.
Proof.
  unfold mergeBuckets.
  rewrite fold_mergeBucket_lookup by apply NoDup_fst_map_to_list.
  destruct (inc !! k) as [next|] eqn:Hk.
  - rewrite decide_True by (apply elem_of_Object_keys; eauto).
    simpl. by rewrite mergeArr_newLinks.
  - rewrite decide_False; [done|].
    rewrite elem_of_Object_keys, Hk. by intros [? ?].
Qed.

(** One round of the outer loop on an own key of [incoming]: it throws when
    the key names an inherited member that [out] does not own, and builds
    the bucket otherwise. *)
Lemma mergeType_own (inc out : MergedLinks) (type : string) :
  is_Some (inc !! type) →
  mergeType inc out type =
    if decide (type ∈ Object_prototype ∧ out !! type = None)
    then Throw "TypeError"
    else Ok (mergeBucket inc out type).
Proof.
  intros [next Hnext]. unfold mergeType, mergeBucket, getProperty.
  rewrite Hnext. simpl.
  destruct (out !! type) as [existed|] eqn:Hout; simpl.
  - rewrite decide_False by (by intros [_ ?]). done.
  - destruct (decide (type ∈ Object_prototype)) as [Hin|Hnin]; simpl.
    + by rewrite decide_True.
    + by rewrite decide_False by (by intros [? _]).
Qed.

(** The outer loop over a duplicate-free list of own keys of [incoming]. *)
Lemma forTypes_own (inc : MergedLinks) (keys : list string) :
  NoDup keys →
  (∀ k, k ∈ keys → is_Some (inc !! k)) →
  ∀ out : MergedLinks,
    forTypes inc keys out =
      if decide (Forall (λ k, k ∈ Object_prototype → is_Some (out !! k)) keys)
      then Ok (fold_left (mergeBucket inc) keys out)
      else Throw "TypeError".
Proof.
  induction keys as [|t rest IH]; intros Hnd Hown out; cbn [forTypes fold_left].
  - by rewrite decide_True by constructor.
  - apply NoDup_cons in Hnd as [Ht Hrest].
    rewrite mergeType_own by (apply Hown; left).
    destruct (decide (t ∈ Object_prototype ∧ out !! t = None)) as [[Hp Hn]|Hok].
    + rewrite decide_False; [done|].
      intros [Hhead _]%Forall_cons. specialize (Hhead Hp).
      rewrite Hn in Hhead. by destruct Hhead.
    + rewrite IH; [|done|intros k Hk; apply Hown; by right].
      assert (Hrest_iff :
        Forall (λ k, k ∈ Object_prototype
                     → is_Some (mergeBucket inc out t !! k)) rest
        ↔ Forall (λ k, k ∈ Object_prototype → is_Some (out !! k)) rest).
      { rewrite !Forall_forall. split; intros H k Hk Hp; specialize (H k Hk Hp).
        - unfold mergeBucket in H. rewrite lookup_insert_ne in H; [done|].
          by intros ->.
        - unfold mergeBucket. rewrite lookup_insert_ne; [done|]. by intros ->. }
      assert (Hhead : t ∈ Object_prototype → is_Some (out !! t)).
      { intros Hp. destruct (out !! t) eqn:Hout; [eauto|].
        exfalso. by apply Hok. }
      destruct (decide (Forall (λ k, k ∈ Object_prototype
                                     → is_Some (mergeBucket inc out t !! k)) rest))
        as [Hall|Hnot].
      * rewrite decide_True; [done|]. constructor; [done|]. by apply Hrest_iff.
      * rewrite decide_False; [done|].
        intros [_ Hall]%Forall_cons. by apply Hnot, Hrest_iff.
Qed.

Lemma safeKeys_Forall (target inc : MergedLinks) :
  safeKeys target inc
  ↔ Forall (λ k, k ∈ Object_prototype → is_Some (target !! k)) (Object_keys inc).
Proof.
  unfold safeKeys. rewrite Forall_forall. split.
  - intros Hsafe k Hk Hp. apply Hsafe; [done|]. by apply elem_of_Object_keys.
  - intros Hall type Hp Hin. apply Hall; [|done]. by apply elem_of_Object_keys.
Qed.

(** When and what [mergeMergedByType] returns. *)
Lemma mergeMergedByType_returns (target inc : MergedLinks) :
  safeKeys target inc →
  mergeMergedByType target (Some inc) = Ok (mergeBuckets target inc).
Proof.
  intros Hsafe. unfold mergeMergedByType, mergeBuckets.
  rewrite forTypes_own.
  - rewrite decide_True; [done|]. by apply safeKeys_Forall.
  - apply NoDup_fst_map_to_list.
  - intros k. apply elem_of_Object_keys.
Qed.

Lemma mergeMergedByType_throws (target inc : MergedLinks) :
  ¬ safeKeys target inc →
  mergeMergedByType target (Some inc) = Throw "TypeError".
Proof.
  intros Hsafe. unfold mergeMergedByType.
  rewrite forTypes_own.
  - rewrite decide_False; [done|]. by rewrite <- safeKeys_Forall.
  - apply NoDup_fst_map_to_list.
  - intros k. apply elem_of_Object_keys.
Qed.

Lemma mergeMergedByType_Ok (target inc out : MergedLinks) :
  mergeMergedByType target (Some inc) = Ok out →
  safeKeys target inc ∧ out = mergeBuckets target inc.
Proof.
  intros Hok.
  destruct (decide (Forall (λ k, k ∈ Object_prototype → is_Some (target !! k))
                      (Object_keys inc))) as [Hall|Hnot].
  - apply safeKeys_Forall in Hall. split; [done|].
    rewrite mergeMergedByType_returns in Hok by done. congruence.
  - rewrite mergeMergedByType_throws in Hok; [done|].
    by rewrite safeKeys_Forall.
Qed.

Lemma mergeMergedByType_Throw (target inc : MergedLinks) (e : string) :
  mergeMergedByType target (Some inc) = Throw e → ¬ safeKeys target inc.
Proof.
  intros Hthrow Hsafe. by rewrite mergeMergedByType_returns in Hthrow.
Qed.

(** The keys of a mapping all of whose keys are storage types of the
    interface [MergedLinks] are safe. *)
Lemma safeKeys_ordinary (target inc : MergedLinks) :
  (∀ type, is_Some (inc !! type) → type ∉ Object_prototype) →
  safeKeys target inc.
Proof. intros Hord type Hp Hin. by destruct (Hord type Hin). Qed.

Lemma safeKeys_merged (target inc : MergedLinks) :
  safeKeys target inc → safeKeys (mergeBuckets target inc) inc.
Proof.
  intros Hsafe type Hp [next Hin]. rewrite mergeBuckets_lookup, Hin. eauto.
Qed.

(** C5 (as amended). The call returns exactly when no key of incoming names
    a member inherited from Object.prototype that target does not own;
    otherwise it throws a TypeError. Whenever it returns, the result maps
    each key of incoming to target's list for that key (or the empty list)
    followed by the incoming links whose URL is not already present, in
    incoming's order: the appended links are a sublist of the incoming
    list, none repeats a URL of the existing list or of another appended
    link, no incoming URL is missing from the result, and when the incoming
    list has no repeated URL they are exactly its filter. Keys only in
    target are carried through unchanged. If every list of target has
    unique URLs, so has every list of the result. Merging {baidu: [url1]}
    with {baidu: [url2, url1]} returns {baidu: [url1, url2]}. *)
Theorem mergeMergedByType_shape (target incoming : MergedLinks) :
  (safeKeys target incoming
   ↔ ∃ out, mergeMergedByType target (Some incoming) = Ok out)
  ∧ (¬ safeKeys target incoming
     ↔ ∃ e, mergeMergedByType target (Some incoming) = Throw e)
  ∧ (∀ out, mergeMergedByType target (Some incoming) = Ok out →
       (∀ type next, incoming !! type = Some next →
          let existed := default [] (target !! type) in
          let added := newLinks (url <$> existed) next in
          out !! type = Some (existed ++ added)
          ∧ added `sublist_of` next
          ∧ (∀ x, x ∈ added → url x ∉ url <$> existed)
          ∧ NoDup (url <$> added)
          ∧ (∀ x, x ∈ next → url x ∈ url <$> (existed ++ added))
          ∧ (uniqueUrls next →
             added = filter (λ x, url x ∉ url <$> existed) next))
       ∧ (∀ type, incoming !! type = None → out !! type = target !! type)
       ∧ ((∀ type l, target !! type = Some l → uniqueUrls l) →
          ∀ type l, out !! type = Some l → uniqueUrls l))
  ∧ mergeMergedByType {[ "baidu" := [url1] ]} (Some {[ "baidu" := [url2; url1] ]})
    = Ok {[ "baidu" := [url1; url2] ]}.
Proof.
  split; [|split; [|split]].
  - split.
    + intros Hsafe. eexists. by apply mergeMergedByType_returns.
    + intros [out Hout]. by apply mergeMergedByType_Ok in Hout as [? _].
  - split.
    + intros Hsafe. eexists. by apply mergeMergedByType_throws.
    + intros [e He]. by eapply mergeMergedByType_Throw.
  - intros out [Hsafe ->]%mergeMergedByType_Ok.
    split; [|split].
    + intros type next Hinc existed added. split; [|split; [|split; [|split; [|split]]]].
      * rewrite mergeBuckets_lookup. by rewrite Hinc.
      * apply newLinks_sublist.
      * intros x Hx. by apply newLinks_fresh in Hx.
      * apply newLinks_NoDup.
      * intros x Hx. rewrite fmap_app, elem_of_app. by apply newLinks_complete.
      * intros Hnd. by apply newLinks_filter.
    + intros type Hnone. rewrite mergeBuckets_lookup. by rewrite Hnone.
    + intros Huniq type l. rewrite mergeBuckets_lookup.
      destruct (incoming !! type) as [next|] eqn:Hinc; [|by apply Huniq].
      intros [= <-]. rewrite <- mergeArr_newLinks. apply mergeArr_uniqueUrls.
      destruct (target !! type) as [l|] eqn:Ht; simpl; [by eapply Huniq|].
      apply NoDup_nil_2.
  - vm_compute. reflexivity.
Qed.

Lemma mergeMergedByType_shape_witness :
  uniqueUrls [url1; url2].
Proof.
  destruct (mergeMergedByType_shape {[ "baidu" := [url1] ]}
              {[ "baidu" := [url2; url1] ]}) as (_ & _ & Hshape & Heq).
  destruct (Hshape _ Heq) as (_ & _ & Huniq).
  apply (Huniq) with (type := "baidu").
  - intros type l Hl.
    destruct (decide (type = "baidu")) as [->|Hne].
    + rewrite lookup_singleton_eq in Hl. injection Hl as <-.
      unfold uniqueUrls. simpl. apply NoDup_singleton.
    + by rewrite lookup_singleton_ne in Hl.
  - apply lookup_singleton_eq.
Defined.

(** The statement of C5 without the proviso on target fails: a target list
    that repeats a URL is carried into the result as it is. *)
Lemma mergeMergedByType_keeps_target_duplicates :
  ¬ (∀ (target incoming out : MergedLinks) type l,
       mergeMergedByType target (Some incoming) = Ok out →
       out !! type = Some l → uniqueUrls l).
Proof.
  intros H.
  specialize (H {[ "baidu" := [url1; url1] ]} ∅ {[ "baidu" := [url1; url1] ]}
                "baidu" [url1; url1] eq_refl (lookup_singleton_eq _ _)).
  unfold uniqueUrls in H. simpl in H.
  apply NoDup_cons in H as [Hin _]. apply Hin. left.
Qed.

(** C6. Merging the same incoming mapping a second time gives what the
    first merge gives: when mergeMergedByType(A, B) returns M, so does
    mergeMergedByType(M, B), with every list unchanged, and when the first
    call throws there is no mapping to merge into and the composition throws
    the same error. The first call returns for every B that is absent and
    for every B none of whose keys names an inherited member that A lacks. *)
Theorem mergeMergedByType_idempotent (A : MergedLinks) (B : option MergedLinks) :
  andThen (mergeMergedByType A B) (λ M, mergeMergedByType M B)
  = mergeMergedByType A B
  ∧ (∀ M, mergeMergedByType A B = Ok M → mergeMergedByType M B = Ok M)
  ∧ (∀ B', B = Some B' → safeKeys A B' →
       ∃ M, mergeMergedByType A B = Ok M ∧ mergeMergedByType M B = Ok M).
Proof.
  assert (Hre : ∀ M, mergeMergedByType A B = Ok M → mergeMergedByType M B = Ok M).
  { intros M HM. destruct B as [B|]; [|done].
    apply mergeMergedByType_Ok in HM as [Hsafe ->].
    rewrite mergeMergedByType_returns by (by apply safeKeys_merged).
    f_equal. apply map_eq. intros k.
    rewrite (mergeBuckets_lookup (mergeBuckets A B)).
    destruct (B !! k) as [next|] eqn:Hk; [|done].
    rewrite mergeBuckets_lookup, Hk. simpl.
    rewrite <- !mergeArr_newLinks. by rewrite mergeArr_idem. }
  split; [|split; [exact Hre|]].
  - destruct (mergeMergedByType A B) as [M|e] eqn:HM; simpl; [|done].
    by apply Hre.
  - intros B' -> Hsafe. exists (mergeBuckets A B').
    pose proof (mergeMergedByType_returns A B' Hsafe) as HM.
    split; [done|]. by apply Hre.
Qed.

Lemma mergeMergedByType_idempotent_witness :
  mergeMergedByType {[ "baidu" := [url1; url2] ]} (Some {[ "baidu" := [url2; url1] ]})
  = Ok {[ "baidu" := [url1; url2] ]}.
Proof.
  apply (mergeMergedByType_idempotent {[ "baidu" := [url1] ]}
           (Some {[ "baidu" := [url2; url1] ]})).
  vm_compute. reflexivity.
Defined.




End MergerFacts.

Module MergerHeapFacts.
Import Types Merger MergerHeap.

Lemma alloc_fresh (h : heap) (c : Cell) : (alloc h c).2 ∉ dom h.
Proof. unfold alloc; simpl. apply is_fresh. Qed.

Lemma alloc_lookup (h : heap) (c : Cell) : (alloc h c).1 !! (alloc h c).2 = Some c.
Proof. unfold alloc; simpl. apply lookup_insert_eq. Qed.

Lemma alloc_old (h : heap) (c : Cell) (l : loc) :
  l ∈ dom h → (alloc h c).1 !! l = h !! l.
Proof.
  intros Hl. unfold alloc; simpl. apply lookup_insert_ne.
  intros <-. by apply (is_fresh (dom h)).
Qed.

(** The inner loop writes to the fresh array only. *)
Lemma fold_pushUnseenH_old (m : loc) (next : list Link) :
  ∀ (seen : gset string) (h : heap) (l : loc),
    l ≠ m → (fold_left (pushUnseenH m) next (seen, h)).2 !! l = h !! l.
Proof.
  induction next as [|item rest IH]; intros seen h l Hne; simpl; [done|].
  unfold pushUnseenH at 2; simpl. destruct (decide _).
  - by apply IH.
  - rewrite IH by done. unfold push. by apply lookup_insert_ne.
Qed.

(** One round of the outer loop writes to [out] and to a fresh array,
    whether it completes or throws. *)
Lemma mergeTypeH_old (inc out : loc) (h : heap) (type : string) (l : loc) :
  l ∈ dom h → l ≠ out → (mergeTypeH inc out h type).1 !! l = h !! l.
Proof.
  intros Hl Hout. unfold mergeTypeH.
  destruct (orEmpty (readField h out type)) as [existed|]; [|done].
  destruct (alloc h (CArr existed)) as [h1 m] eqn:Ha.
  assert (Hm : l ≠ m).
  { intros ->. apply (alloc_fresh h (CArr existed)). by rewrite Ha. }
  assert (H1 : h1 !! l = h !! l).
  { change h1 with (h1, m).1. rewrite <- Ha. by apply alloc_old. }
  destruct (orEmpty (readField h inc type)) as [next|]; [|done].
  cbn [fst]. unfold setField. rewrite lookup_insert_ne by done.
  by rewrite fold_pushUnseenH_old.
Qed.

Lemma forTypesH_old (inc out : loc) (keys : list string) :
  ∀ (h : heap) (l : loc),
    l ∈ dom h → l ≠ out → (forTypesH inc out keys h).1 !! l = h !! l.
Proof.
  induction keys as [|type rest IH]; intros h l Hl Hout; cbn [forTypesH];
    [done|].
  pose proof (mergeTypeH_old inc out h type l Hl Hout) as Hstep.
  destruct (mergeTypeH inc out h type) as [h' [[]|e]]; cbn [fst] in *;
    [|done].
  rewrite IH; [done| |done].
  apply elem_of_dom. rewrite Hstep. by apply elem_of_dom in Hl.
Qed.

(** Frame: no cell that exists before the call is written, whether the
    call returns or throws. *)
Lemma mergeMergedByTypeH_frame (h : heap) (target : loc) (incoming : option loc)
    (l : loc) :
  l ∈ dom h → (mergeMergedByTypeH h target incoming).1 !! l = h !! l.
Proof.
  intros Hl. destruct incoming as [inc|]; [|done].
  unfold mergeMergedByTypeH, alloc.
  assert (Hout : fresh (dom h) ≠ l).
  { intros <-. by apply (is_fresh (dom h)). }
  pose proof (forTypesH_old inc (fresh (dom h)) (Object_keys (readObj h inc))
                (<[ fresh (dom h) := CObj (readObj h target) ]> h) l) as Hloop.
  destruct (forTypesH inc (fresh (dom h)) (Object_keys (readObj h inc))
              (<[ fresh (dom h) := CObj (readObj h target) ]> h))
    as [h' [[]|e]]; cbn [fst] in *.
  - rewrite Hloop; [by apply lookup_insert_ne| |by intros ->].
    apply elem_of_dom. rewrite lookup_insert_ne by done.
    by apply elem_of_dom in Hl.
  - rewrite Hloop; [by apply lookup_insert_ne| |by intros ->].
    apply elem_of_dom. rewrite lookup_insert_ne by done.
    by apply elem_of_dom in Hl.
Qed.

(** What an allocated object denotes is determined by the cells it reaches. *)
Lemma view_frame (h h' : heap) (o : loc) :
  closed h → o ∈ dom h → (∀ l, l ∈ dom h → h' !! l = h !! l) →
  view h' o = view h o.
Proof.
  intros Hclosed Ho Hframe. unfold view.
  assert (Hobj : readObj h' o = readObj h o).
  { unfold readObj. by rewrite Hframe. }
  rewrite Hobj. apply map_eq. intros type. rewrite !lookup_fmap.
  match goal with
  | |- _ <$> ?x = _ => destruct x as [a|] eqn:Ha; [simpl|reflexivity]
  end.
  f_equal. unfold readArr. rewrite Hframe; [done|].
  unfold readObj in Ha. destruct (h !! o) as [[fields|items]|] eqn:Hcell;
    try (rewrite lookup_empty in Ha; done).
  by eapply Hclosed.
Qed.

(** The inner loop computes the array of the value-level loop, in place. *)
Lemma fold_pushUnseenH_insert (m : loc) (next : list Link) :
  ∀ (seen : gset string) (arr : list Link) (h : heap),
    fold_left (pushUnseenH m) next (seen, <[ m := CArr arr ]> h)
    = ((fold_left pushUnseen next (seen, arr)).1,
       <[ m := CArr (fold_left pushUnseen next (seen, arr)).2 ]> h).
Proof.
  induction next as [|item rest IH]; intros seen arr h; simpl; [done|].
  unfold pushUnseenH at 2, pushUnseen at 2 4; simpl.
  destruct (decide _); [apply IH|].
  unfold push, readArr. rewrite lookup_insert_eq, insert_insert_eq. apply IH.
Qed.

Section Refinement.
Variables (h : heap) (target inc out : loc).
Hypothesis Hclosed : closed h.
Hypothesis Hinc : inc ∈ dom h.
Hypothesis Hout : out ∉ dom h.

(** A read of [incoming] during the loop is a read of what it denoted at
    the call. *)
Lemma readField_inc (h' : heap) (type : string) :
  (∀ l, l ∈ dom h → h' !! l = h !! l) →
  readField h' inc type = getProperty (view h inc) type.
Proof.
  intros Hframe. unfold readField, getProperty, view. rewrite lookup_fmap.
  assert (Hobj : readObj h' inc = readObj h inc).
  { unfold readObj. by rewrite Hframe. }
  rewrite Hobj.
  destruct (readObj h inc !! type) as [a|] eqn:Ha; simpl; [|done].
  f_equal. unfold readArr. rewrite Hframe; [done|].
  unfold readObj in Ha.
  destruct (h !! inc) as [[fields|items]|] eqn:Hcell;
    try (rewrite lookup_empty in Ha; done).
  by eapply Hclosed.
Qed.

(** A read of the result object is a read of the mapping built so far. *)
Lemma readField_out (h' : heap) (acc : MergedLinks) (type : string) :
  inv h out h' acc → readField h' out type = getProperty acc type.
Proof.
  intros [_ (fields & Hcell & Hacc & _)].
  unfold readField, getProperty, readObj. rewrite Hcell, <- Hacc, lookup_fmap.
  by destruct (fields !! type).
Qed.

(** One round of the heap-level loop follows one round of the value-level
    loop: both throw, or both complete and the invariant is kept. *)
Lemma inv_step (h' : heap) (acc : MergedLinks) (type : string) :
  inv h out h' acc →
  (∀ l, l ∈ dom h → (mergeTypeH inc out h' type).1 !! l = h !! l)
  ∧ match mergeType (view h inc) acc type with
    | Ok acc' =>
        (mergeTypeH inc out h' type).2 = Ok ()
        ∧ inv h out (mergeTypeH inc out h' type).1 acc'
    | Throw e => (mergeTypeH inc out h' type).2 = Throw e
    end.
Proof.
  intros Hinv. pose proof Hinv as [Hframe (fields & Hcell & Hacc & Hfields)].
  assert (Hdom : ∀ l, l ∈ dom h → l ∈ dom h').
  { intros l Hl. apply elem_of_dom. rewrite Hframe by done.
    by apply elem_of_dom in Hl. }
  assert (Hold : ∀ l, l ∈ dom h → (mergeTypeH inc out h' type).1 !! l = h !! l).
  { intros l Hl. rewrite mergeTypeH_old; [by apply Hframe|by apply Hdom|].
    by intros ->. }
  split; [exact Hold|].
  unfold mergeTypeH, mergeType in *.
  rewrite (readField_inc h' type Hframe), (readField_out h' acc type Hinv) in *.
  destruct (orEmpty (getProperty acc type)) as [existed|]; [|done].
  unfold alloc in *.
  destruct (orEmpty (getProperty (view h inc) type)) as [next|]; [|done].
  cbn [fst snd] in *. split; [done|]. split; [exact Hold|].
  set (m := fresh (dom h')) in *.
  assert (Hm : m ∉ dom h') by apply is_fresh.
  assert (Hmout : m ≠ out).
  { intros Heq. apply Hm. rewrite Heq. apply elem_of_dom. eauto. }
  rewrite fold_pushUnseenH_insert. cbn [snd].
  fold (mergeArr existed next). unfold setField, readObj.
  rewrite (lookup_insert_ne _ m out) by done. rewrite Hcell.
  exists (<[ type := m ]> fields). split; [apply lookup_insert_eq|]. split.
  - rewrite fmap_insert. f_equal.
    + unfold readArr. rewrite lookup_insert_ne by done.
      by rewrite lookup_insert_eq.
    + rewrite <- Hacc. apply map_fmap_ext. intros t a Ha.
      destruct (Hfields t a Ha) as [Hain Haout].
      unfold readArr. rewrite lookup_insert_ne by done.
      rewrite lookup_insert_ne; [done|]. by intros <-.
  - intros t a. rewrite !dom_insert_L.
    destruct (decide (type = t)) as [->|Hne].
    + rewrite lookup_insert_eq. intros [= <-]. split; [set_solver|done].
    + rewrite lookup_insert_ne by done. intros Ha.
      destruct (Hfields t a Ha). split; [set_solver|done].
Qed.

Lemma inv_loop (keys : list string) :
  ∀ h' acc, inv h out h' acc →
    (∀ l, l ∈ dom h → (forTypesH inc out keys h').1 !! l = h !! l)
    ∧ match forTypes (view h inc) keys acc with
      | Ok acc' =>
          (forTypesH inc out keys h').2 = Ok ()
          ∧ inv h out (forTypesH inc out keys h').1 acc'
      | Throw e => (forTypesH inc out keys h').2 = Throw e
      end.
Proof.
  induction keys as [|type rest IH]; intros h' acc Hinv;
    cbn [forTypesH forTypes].
  - split; [apply Hinv|]. by split.
  - destruct (inv_step h' acc type Hinv) as [Hold Hstep].
    destruct (mergeType (view h inc) acc type) as [acc'|e].
    + destruct Hstep as [Hok Hinv'].
      destruct (mergeTypeH inc out h' type) as [h'' r]. cbn [fst snd] in *.
      subst r. by apply IH.
    + destruct (mergeTypeH inc out h' type) as [h'' r]. cbn [fst snd] in *.
      subst r. by split.
Qed.

Lemma inv_init :
  inv h out (<[ out := CObj (readObj h target) ]> h) (view h target).
Proof.
  assert (Hold : ∀ l, l ∈ dom h → out ≠ l) by (intros l Hl ->; done).
  split.
  { intros l Hl. apply lookup_insert_ne. by apply Hold. }
  exists (readObj h target). split; [apply lookup_insert_eq|].
  assert (Hreach : ∀ type a, readObj h target !! type = Some a → a ∈ dom h).
  { intros type a Ha. unfold readObj in Ha.
    destruct (h !! target) as [[fields|items]|] eqn:Hcell;
      try (rewrite lookup_empty in Ha; done).
    by eapply Hclosed. }
  split.
  - unfold view. apply map_fmap_ext. intros type a Ha.
    unfold readArr. rewrite lookup_insert_ne; [done|].
    apply Hold. by eapply Hreach.
  - intros type a Ha. apply Hreach in Ha. split; [|by intros ->].
    rewrite dom_insert_L. set_solver.
Qed.
End Refinement.

(** The value-level loop does not depend on the order of the keys beyond
    what [Object.keys] of the viewed mapping gives. *)
Lemma forTypes_keys (inc : MergedLinks) (keys keys' : list string) :
  NoDup keys → NoDup keys' →
  (∀ k, k ∈ keys ↔ k ∈ keys') →
  (∀ k, k ∈ keys → is_Some (inc !! k)) →
  ∀ out,
    match forTypes inc keys out, forTypes inc keys' out with
    | Ok m, Ok m' => m = m'
    | Throw e, Throw e' => e = e'
    | _, _ => False
    end.
Proof.
  intros Hnd Hnd' Hiff Hown out.
  rewrite !MergerFacts.forTypes_own; try done;
    [|intros k Hk; apply Hown; by apply Hiff].
  assert (Hall : Forall (λ k, k ∈ Object_prototype → is_Some (out !! k)) keys
                 ↔ Forall (λ k, k ∈ Object_prototype → is_Some (out !! k)) keys').
  { rewrite !Forall_forall. split; intros H k Hk; apply H; by apply Hiff. }
  destruct (decide (Forall _ keys)) as [H1|H1];
    destruct (decide (Forall _ keys')) as [H2|H2]; try tauto.
  apply map_eq. intros k.
  rewrite !MergerFacts.fold_mergeBucket_lookup by done.
  destruct (decide (k ∈ keys)) as [Hk|Hk].
  - rewrite decide_True; [done|]. by apply Hiff.
  - rewrite decide_False; [done|]. by rewrite <- Hiff.
Qed.

Lemma Object_keys_view (h : heap) (inc : loc) (k : string) :
  k ∈ Object_keys (readObj h inc) ↔ k ∈ Object_keys (view h inc).
Proof.
  rewrite !MergerFacts.elem_of_Object_keys. unfold view.
  by rewrite lookup_fmap, fmap_is_Some.
Qed.

(** Refinement: on a well-formed heap, the heap-level merge returns exactly
    when the value-level merge of what the arguments denote returns, and
    the object it returns denotes the mapping the value-level merge
    returns. *)
Lemma mergeMergedByTypeH_refines (h : heap) (target inc : loc) :
  closed h → inc ∈ dom h →
  match (mergeMergedByTypeH h target (Some inc)).2 with
  | Ok out =>
      mergeMergedByType (view h target) (Some (view h inc))
      = Ok (view (mergeMergedByTypeH h target (Some inc)).1 out)
  | Throw e =>
      mergeMergedByType (view h target) (Some (view h inc)) = Throw e
  end.
Proof.
  intros Hclosed Hinc. unfold mergeMergedByTypeH, alloc.
  pose proof (inv_loop h inc (fresh (dom h)) Hclosed Hinc
                (is_fresh (dom h)) (Object_keys (readObj h inc)) _ _
                (inv_init h target inc (fresh (dom h)) Hclosed Hinc
                   (is_fresh (dom h))))
    as [_ Hloop].
  pose proof (forTypes_keys (view h inc) (Object_keys (readObj h inc))
                (Object_keys (view h inc))
                (NoDup_fst_map_to_list _) (NoDup_fst_map_to_list _)
                (Object_keys_view h inc)
                (λ k Hk, proj1 (MergerFacts.elem_of_Object_keys _ _)
                           (proj1 (Object_keys_view h inc k) Hk))
                (view h target)) as Hkeys.
  unfold mergeMergedByType.
  destruct (forTypes (view h inc) (Object_keys (readObj h inc)) (view h target))
    as [acc|e].
  - destruct Hloop as [Hok (_ & fields & Hcell & Hacc & _)].
    destruct (forTypesH inc (fresh (dom h)) (Object_keys (readObj h inc))
                (<[ fresh (dom h) := CObj (readObj h target) ]> h))
      as [h' r]. cbn [fst snd] in *. subst r. cbn [fst snd].
    destruct (forTypes (view h inc) (Object_keys (view h inc)) (view h target))
      as [acc'|e']; [|done].
    subst acc'. f_equal. unfold view, readObj. by rewrite Hcell.
  - destruct (forTypesH inc (fresh (dom h)) (Object_keys (readObj h inc))
                (<[ fresh (dom h) := CObj (readObj h target) ]> h))
      as [h' r]. cbn [fst snd] in *. subst r. cbn [fst snd].
    destruct (forTypes (view h inc) (Object_keys (view h inc)) (view h target))
      as [acc'|e']; [done|]. by subst e'.
Qed.

(** The result object stays an object through the loop. *)
Lemma mergeTypeH_out (inc out : loc) (h : heap) (type : string) :
  (∃ fields, h !! out = Some (CObj fields)) →
  ∃ fields, (mergeTypeH inc out h type).1 !! out = Some (CObj fields).
Proof.
  intros [fields Hobj]. unfold mergeTypeH.
  destruct (orEmpty (readField h out type)) as [existed|]; [|eauto].
  unfold alloc.
  assert (Hne : fresh (dom h) ≠ out).
  { intros Heq. apply (is_fresh (dom h)). rewrite Heq.
    apply elem_of_dom. eauto. }
  destruct (orEmpty (readField h inc type)) as [next|]; cbn [fst].
  - unfold setField. eexists. apply lookup_insert_eq.
  - exists fields. by rewrite lookup_insert_ne.
Qed.

Lemma forTypesH_out (inc out : loc) (keys : list string) :
  ∀ h : heap,
    (∃ fields, h !! out = Some (CObj fields)) →
    ∃ fields, (forTypesH inc out keys h).1 !! out = Some (CObj fields).
Proof.
  induction keys as [|type rest IH]; intros h Hobj; cbn [forTypesH]; [done|].
  pose proof (mergeTypeH_out inc out h type Hobj) as Hstep.
  destruct (mergeTypeH inc out h type) as [h' [[]|e]]; cbn [fst] in *;
    [by apply IH|done].
Qed.

(** One round of the outer loop that completes rebinds the field [type] of
    [out] to a new array and no other field. *)
Lemma mergeTypeH_fields (inc out : loc) (h : heap) (type : string)
    (fields : gmap string positive) :
  h !! out = Some (CObj fields) →
  (mergeTypeH inc out h type).2 = Ok () →
  (mergeTypeH inc out h type).1 !! out
  = Some (CObj (<[ type := fresh (dom h) ]> fields)).
Proof.
  intros Hout. unfold mergeTypeH.
  destruct (orEmpty (readField h out type)) as [existed|]; [|done].
  unfold alloc.
  destruct (orEmpty (readField h inc type)) as [next|]; [|done].
  cbn [fst snd]. intros _. unfold setField.
  rewrite lookup_insert_eq. do 3 f_equal.
  unfold readObj. rewrite fold_pushUnseenH_old.
  - rewrite lookup_insert_ne; [by rewrite Hout|].
    intros Heq. apply (is_fresh (dom h)). rewrite Heq.
    apply elem_of_dom. eauto.
  - intros Heq. apply (is_fresh (dom h)). rewrite <- Heq.
    apply elem_of_dom. eauto.
Qed.

Lemma forTypesH_fields (inc out : loc) (keys : list string) :
  ∀ (h : heap) (fields : gmap string positive),
    h !! out = Some (CObj fields) →
    (forTypesH inc out keys h).2 = Ok () →
    ∃ fields', (forTypesH inc out keys h).1 !! out = Some (CObj fields')
               ∧ ∀ type, type ∉ keys → fields' !! type = fields !! type.
Proof.
  induction keys as [|key rest IH]; intros h fields Hout; cbn [forTypesH].
  - intros _. by exists fields.
  - pose proof (mergeTypeH_fields inc out h key fields Hout) as Hstep.
    destruct (mergeTypeH inc out h key) as [h' [[]|e]]; cbn [fst snd] in *;
      [|done].
    intros Hok.
    destruct (IH _ _ (Hstep eq_refl) Hok) as (fields' & Hres & Hsame).
    exists fields'. split; [done|].
    intros type [Hne Hrest]%not_elem_of_cons.
    rewrite Hsame by done. apply lookup_insert_ne. by intros ->.
Qed.

(** The copy of [target] is shallow: for a storage type that only [target]
    has, the object returned holds the very array reference that [target]
    holds. *)
Lemma mergeMergedByTypeH_shares_carried (h : heap) (target inc out : loc)
    (type : string) :
  readObj h inc !! type = None →
  (mergeMergedByTypeH h target (Some inc)).2 = Ok out →
  readObj (mergeMergedByTypeH h target (Some inc)).1 out !! type
  = readObj h target !! type.
Proof.
  intros Hnone. unfold mergeMergedByTypeH, alloc.
  pose proof (forTypesH_fields inc (fresh (dom h))
                (Object_keys (readObj h inc))
                (<[ fresh (dom h) := CObj (readObj h target) ]> h)
                (readObj h target) (lookup_insert_eq _ _ _)) as Hloop.
  destruct (forTypesH inc (fresh (dom h)) (Object_keys (readObj h inc))
              (<[ fresh (dom h) := CObj (readObj h target) ]> h))
    as [h' [[]|e]]; cbn [fst snd] in *; [|done].
  intros [= <-]. destruct (Hloop eq_refl) as (fields' & Hres & Hsame).
  unfold readObj at 1. rewrite Hres. apply Hsame.
  rewrite MergerFacts.elem_of_Object_keys, Hnone. by intros [? ?].
Qed.

(** What the heap-level call answers when [incoming] is present: the new
    object, or a throw. *)
Lemma mergeMergedByTypeH_result (h : heap) (target inc : loc) :
  (mergeMergedByTypeH h target (Some inc)).2 = Ok (fresh (dom h))
  ∨ ∃ e, (mergeMergedByTypeH h target (Some inc)).2 = Throw e.
Proof.
  unfold mergeMergedByTypeH, alloc.
  destruct (forTypesH inc (fresh (dom h)) (Object_keys (readObj h inc))
              (<[ fresh (dom h) := CObj (readObj h target) ]> h))
    as [h' [[]|e]]; cbn [snd]; eauto.
Qed.

Lemma mergeMergedByTypeH_out (h : heap) (target inc : loc) :
  ∃ fields,
    (mergeMergedByTypeH h target (Some inc)).1 !! fresh (dom h)
    = Some (CObj fields).
Proof.
  unfold mergeMergedByTypeH, alloc.
  pose proof (forTypesH_out inc (fresh (dom h)) (Object_keys (readObj h inc))
                (<[ fresh (dom h) := CObj (readObj h target) ]> h)) as Hloop.
  destruct (forTypesH inc (fresh (dom h)) (Object_keys (readObj h inc))
              (<[ fresh (dom h) := CObj (readObj h target) ]> h))
    as [h' [[]|e]]; cbn [fst] in *; apply Hloop; eexists;
    apply lookup_insert_eq.
Qed.

(** C7. mergeMergedByType writes to neither argument. Over a heap of
    objects and arrays, every cell allocated before the call holds the same
    content after it, whether the call returns or throws, so target and
    incoming denote the same mappings as before; when incoming is present
    the call returns exactly when no key of incoming names an inherited
    member that target does not own, and the reference it returns is a
    newly allocated object (which denotes the merge of the two mappings);
    when incoming is absent the heap is unchanged and the returned
    reference is target itself. *)
Theorem mergeMergedByTypeH_pure (h : heap) (target : loc) (incoming : option loc) :
  let h' := (mergeMergedByTypeH h target incoming).1 in
  let answer := (mergeMergedByTypeH h target incoming).2 in
  (∀ l, l ∈ dom h → h' !! l = h !! l)
  ∧ (closed h → target ∈ dom h → view h' target = view h target)
  ∧ (∀ inc, incoming = Some inc →
       (closed h → inc ∈ dom h →
          view h' inc = view h inc
          ∧ (safeKeys (view h target) (view h inc) ↔ ∃ out, answer = Ok out))
       ∧ ∀ out, answer = Ok out →
           (out ∉ dom h)
           ∧ (∃ fields, h' !! out = Some (CObj fields))
           ∧ (closed h → inc ∈ dom h →
              mergeMergedByType (view h target) (Some (view h inc))
              = Ok (view h' out)))
  ∧ (incoming = None →
       h' = h ∧ answer = Ok target
       ∧ mergeMergedByType (view h target) None = Ok (view h target)).
Proof.
  intros h' answer.
  assert (Hframe : ∀ l, l ∈ dom h → h' !! l = h !! l).
  { intros l Hl. by apply mergeMergedByTypeH_frame. }
  split; [done|]. split; [|split].
  - intros Hclosed Ht. by apply view_frame.
  - intros inc ->. split.
    + intros Hclosed Hinc. split; [by apply view_frame|].
      pose proof (mergeMergedByTypeH_refines h target inc Hclosed Hinc) as Href.
      fold answer in Href. split.
      * intros Hsafe. rewrite MergerFacts.mergeMergedByType_returns in Href by done.
        destruct answer as [out|e]; [eauto|done].
      * intros [out Hout]. rewrite Hout in Href.
        by apply MergerFacts.mergeMergedByType_Ok in Href as [? _].
    + intros out Hout.
      assert (out = fresh (dom h)) as ->.
      { unfold answer in Hout.
        destruct (mergeMergedByTypeH_result h target inc) as [Hok|[e He]];
          congruence. }
      split; [apply is_fresh|]. split; [apply mergeMergedByTypeH_out|].
      intros Hclosed Hinc.
      pose proof (mergeMergedByTypeH_refines h target inc Hclosed Hinc) as Href.
      fold answer in Href. by rewrite Hout in Href.
  - by intros ->.
Qed.

Lemma mergeMergedByTypeH_pure_witness :
  (mergeMergedByTypeH sample_heap 1 (Some 3%positive)).1 !! 2%positive
  = Some (CArr [url1]).
Proof.
  rewrite (proj1 (mergeMergedByTypeH_pure sample_heap 1 (Some 3%positive))
             2%positive).
  - reflexivity.
  - apply elem_of_dom. eexists. reflexivity.
Defined.

End MergerHeapFacts.

Module RegistryFacts.
Import Types Registry.

Section Sort.
Context {A : Type} (key : A → Z).

(** The comparator of [getPlugins] is the difference of the keys. *)
Local Abbreviation cmp := (λ a b : A, key a - key b).

Lemma insertBy_Permutation (x : A) (l : list A) :
  insertBy cmp x l ≡ₚ x :: l.
Proof.
  induction l as [|y rest IH]; simpl; [done|].
  destruct (key x - key y <=? 0); [done|].
  rewrite IH. apply Permutation_swap.
Qed.

Lemma Array_sort_Permutation (l : list A) : Array_sort cmp l ≡ₚ l.
Proof.
  induction l as [|x rest IH]; simpl; [done|].
  rewrite insertBy_Permutation. by rewrite IH.
Qed.

Lemma insertBy_sorted (x : A) (l : list A) :
  StronglySorted (λ a b, key a ≤ key b) l →
  StronglySorted (λ a b, key a ≤ key b) (insertBy cmp x l).
Proof.
  induction l as [|y rest IH]; intros Hs; simpl.
  - by repeat constructor.
  - apply StronglySorted_inv in Hs as [Hrest Hy].
    destruct (Z.leb_spec (key x - key y) 0) as [Hle|Hgt].
    + constructor; [by constructor|].
      constructor; [lia|].
      eapply Forall_impl; [exact Hy|]. simpl. intros z Hz. lia.
    + constructor; [by apply IH|].
      rewrite insertBy_Permutation. constructor; [lia|done].
Qed.

Lemma Array_sort_sorted (l : list A) :
  StronglySorted (λ a b, key a ≤ key b) (Array_sort cmp l).
Proof.
  induction l as [|x rest IH]; simpl; [constructor|].
  by apply insertBy_sorted.
Qed.

(** Insertion keeps [x] ahead of the elements of the same key. *)
Lemma insertBy_filter (k : Z) (x : A) (l : list A) :
  filter (λ a, key a = k) (insertBy cmp x l)
  = filter (λ a, key a = k) (x :: l).
Proof.
  induction l as [|y rest IH]; simpl; [done|].
  destruct (Z.leb_spec (key x - key y) 0) as [Hle|Hgt]; [done|].
  rewrite (filter_cons _ y), IH, !filter_cons.
  destruct (decide (key x = k)), (decide (key y = k)); try done. lia.
Qed.

Lemma Array_sort_stable (k : Z) (l : list A) :
  filter (λ a, key a = k) (Array_sort cmp l) = filter (λ a, key a = k) l.
Proof.
  induction l as [|x rest IH]; simpl; [done|].
  rewrite insertBy_filter, !filter_cons. by rewrite IH.
Qed.
(** A list sorted by key is determined by its per-key sublists: any sort
    that is stable returns what [Array_sort] returns. *)
Lemma sorted_stable_unique (l1 : list A) :
  ∀ l2 : list A,
    StronglySorted (λ a b, key a ≤ key b) l1 →
    StronglySorted (λ a b, key a ≤ key b) l2 →
    (∀ k, filter (λ a, key a = k) l1 = filter (λ a, key a = k) l2) →
    l1 = l2.
Proof.
  induction l1 as [|x r1 IH]; intros l2 Hs1 Hs2 Hf.
  - destruct l2 as [|y r2]; [done|].
    specialize (Hf (key y)). rewrite filter_cons, decide_True in Hf by done.
    done.
  - destruct l2 as [|y r2].
    { specialize (Hf (key x)). rewrite filter_cons, decide_True in Hf by done.
      done. }
    apply StronglySorted_inv in Hs1 as [Hr1 Hx].
    apply StronglySorted_inv in Hs2 as [Hr2 Hy].
    rewrite Forall_forall in Hx, Hy.
    assert (Hkey : key x = key y).
    { destruct (Z.lt_trichotomy (key x) (key y)) as [Hlt|[Heq|Hgt]]; [|done|].
      - pose proof (Hf (key x)) as Hfx.
        rewrite filter_cons, decide_True in Hfx by done.
        assert (Hin : x ∈ filter (λ a, key a = key x) (y :: r2))
          by (rewrite <- Hfx; left).
        apply list_elem_of_filter in Hin as [_ Hin].
        apply elem_of_cons in Hin as [->|Hin]; [lia|].
        specialize (Hy _ Hin). lia.
      - pose proof (Hf (key y)) as Hfy.
        rewrite (filter_cons _ y), decide_True in Hfy by done.
        assert (Hin : y ∈ filter (λ a, key a = key y) (x :: r1))
          by (rewrite Hfy; left).
        apply list_elem_of_filter in Hin as [_ Hin].
        apply elem_of_cons in Hin as [->|Hin]; [lia|].
        specialize (Hx _ Hin). lia. }
    pose proof (Hf (key x)) as Hhd.
    rewrite !filter_cons in Hhd.
    rewrite decide_True in Hhd by done.
    rewrite decide_True in Hhd by done.
    injection Hhd as -> Htl.
    f_equal. apply IH; [done..|].
    intros k. specialize (Hf k). rewrite !filter_cons in Hf.
    destruct (decide (key y = k)); [by injection Hf|done].
Qed.
End Sort.

Section Manager.
Context {P : Type} `{AsyncSearchPlugin P}.

Lemma registerPlugins_plugins (ps : list (option P)) :
  ∀ m : PluginManager P,
    plugins (registerPlugins ps m) = plugins m ++ omap id ps.
Proof.
  induction ps as [|[p|] rest IH]; intros m; simpl.
  - by rewrite app_nil_r.
  - unfold registerPlugins in *. simpl. rewrite IH. simpl.
    by rewrite <- app_assoc.
  - unfold registerPlugins in *. simpl. by rewrite IH.
Qed.
End Manager.

(** C8. For every sequence of registrations (null arguments are ignored),
    getPlugins() returns the registered plugins, each exactly once, in
    ascending order of priority, and the plugins of any one priority appear
    in their registration order; registering priorities 3, 1, 2 yields the
    order 1, 2, 3. This order is the only one that is ascending and keeps
    the registration order within each priority. *)
Theorem getPlugins_sorted_stable {P : Type} `{AsyncSearchPlugin P}
    (ps : list (option P)) :
  let m := registerPlugins ps PluginManager_new in
  let registered := omap id ps in
  getPlugins m ≡ₚ registered
  ∧ StronglySorted prio_le (getPlugins m)
  ∧ (∀ k, filter (λ p, priority p = k) (getPlugins m)
          = filter (λ p, priority p = k) registered)
  ∧ (∀ sorted : list P,
       StronglySorted prio_le sorted →
       (∀ k, filter (λ p, priority p = k) sorted
             = filter (λ p, priority p = k) registered) →
       sorted = getPlugins m)
  ∧ getPlugins
      (registerPlugins
         [Some (BaseAsyncPlugin_new "a" 2); Some (BaseAsyncPlugin_new "b" 1);
          None; Some (BaseAsyncPlugin_new "c" 2);
          Some (BaseAsyncPlugin_new "d" 1)] PluginManager_new)
    = [BaseAsyncPlugin_new "b" 1; BaseAsyncPlugin_new "d" 1;
       BaseAsyncPlugin_new "a" 2; BaseAsyncPlugin_new "c" 2]
  ∧ getPlugins
      (registerPlugins
         [Some (BaseAsyncPlugin_new "p3" 3); Some (BaseAsyncPlugin_new "p1" 1);
          Some (BaseAsyncPlugin_new "p2" 2)] PluginManager_new)
    = [BaseAsyncPlugin_new "p1" 1; BaseAsyncPlugin_new "p2" 2;
       BaseAsyncPlugin_new "p3" 3].
Proof.
  intros m registered.
  assert (Hm : plugins m = registered).
  { subst m. by rewrite registerPlugins_plugins. }
  unfold getPlugins. rewrite Hm. split; [|split; [|split; [|split; [|split]]]].
  - apply Array_sort_Permutation.
  - apply (Array_sort_sorted priority).
  - intros k. apply (Array_sort_stable priority).
  - intros sorted Hsorted Hstable.
    apply (sorted_stable_unique priority); [done|apply Array_sort_sorted|].
    intros k. by rewrite Hstable, Array_sort_stable.
  - reflexivity.
  - reflexivity.
Qed.

End RegistryFacts.

Module JsMapFacts.
Section JsMapFacts.
Context {V : Type}.
Implicit Types (m : list (string * V)) (k : string) (v : V).

Lemma get_None m k : JsMap.get k m = None ↔ k ∉ JsMap.keys m.
Proof.
  unfold JsMap.keys. induction m as [|[k' v'] rest IH]; simpl.
  - split; [intros _; apply not_elem_of_nil|done].
  - rewrite not_elem_of_cons. destruct (decide (k' = k)) as [->|Hne].
    + split; [done|]. by intros [? _].
    + rewrite IH. split; [by intros ?|by intros [_ ?]].
Qed.

Lemma get_Some_elem m k v : JsMap.get k m = Some v → (k, v) ∈ m.
Proof.
  induction m as [|[k' v'] rest IH]; simpl; [done|].
  destruct (decide (k' = k)) as [->|Hne].
  - intros [= ->]. left.
  - intros Hg. right. by apply IH.
Qed.

Lemma elem_get m k v : JsMap.wf m → (k, v) ∈ m → JsMap.get k m = Some v.
Proof.
  unfold JsMap.wf, JsMap.keys.
  induction m as [|[k' v'] rest IH]; simpl; intros Hwf Hin.
  - by apply elem_of_nil in Hin.
  - apply NoDup_cons in Hwf as [Hk' Hrest].
    apply elem_of_cons in Hin as [[= <- <-]|Hin].
    + by rewrite decide_True.
    + rewrite decide_False; [by apply IH|].
      intros ->. apply Hk'. apply list_elem_of_fmap. by exists (k, v).
Qed.

Lemma delete_sublist m k : JsMap.delete k m `sublist_of` m.
Proof. apply sublist_filter. Qed.

Lemma get_delete_eq m k : JsMap.get k (JsMap.delete k m) = None.
Proof.
  apply get_None. unfold JsMap.keys, JsMap.delete.
  intros ([k' v] & Hk & Hin)%list_elem_of_fmap. simpl in Hk. subst k'.
  apply list_elem_of_filter in Hin as [Hne _]. by apply Hne.
Qed.

Lemma get_delete_ne m k k' :
  k ≠ k' → JsMap.get k (JsMap.delete k' m) = JsMap.get k m.
Proof.
  intros Hne. unfold JsMap.delete.
  induction m as [|[k0 v0] rest IH]; simpl; [done|].
  rewrite filter_cons. simpl. destruct (decide (k0 ≠ k')) as [Hk0|Hk0]; simpl.
  - by rewrite IH.
  - rewrite IH. rewrite decide_False; [done|].
    intros ->. by apply Hk0.
Qed.

Lemma delete_notin m k : k ∉ JsMap.keys m → JsMap.delete k m = m.
Proof.
  unfold JsMap.keys, JsMap.delete. induction m as [|[k' v'] rest IH]; simpl;
    [done|].
  rewrite not_elem_of_cons. intros [Hne Hrest].
  rewrite filter_cons. simpl. rewrite decide_True by done.
  by rewrite IH.
Qed.

Lemma delete_head m k v :
  JsMap.wf ((k, v) :: m) → JsMap.delete k ((k, v) :: m) = m.
Proof.
  unfold JsMap.wf, JsMap.keys. simpl. intros [Hk _]%NoDup_cons.
  unfold JsMap.delete. rewrite filter_cons. simpl.
  rewrite decide_False by (intros Hne; by apply Hne).
  by apply delete_notin.
Qed.

Lemma has_false m k : JsMap.has k m = false ↔ k ∉ JsMap.keys m.
Proof.
  unfold JsMap.has. rewrite <- get_None.
  by destruct (JsMap.get k m).
Qed.

Lemma set_notin m k v : k ∉ JsMap.keys m → JsMap.set k v m = m ++ [(k, v)].
Proof. intros Hk. unfold JsMap.set. by rewrite (proj2 (has_false m k) Hk). Qed.

Lemma keys_delete m k :
  JsMap.keys (JsMap.delete k m) = filter (λ k', k' ≠ k) (JsMap.keys m).
Proof.
  unfold JsMap.keys, JsMap.delete. induction m as [|[k' v'] rest IH]; simpl;
    [done|].
  rewrite !filter_cons. cbn [fst]. destruct (decide (k' ≠ k)).
  - rewrite fmap_cons. cbn [fst]. f_equal. apply IH.
  - apply IH.
Qed.

Lemma wf_sublist m m' : JsMap.wf m → m' `sublist_of` m → JsMap.wf m'.
Proof.
  unfold JsMap.wf, JsMap.keys. intros Hwf Hsub.
  eapply sublist_NoDup; [exact Hwf|]. by apply fmap_sublist.
Qed.

Lemma get_sublist m m' k v :
  JsMap.wf m → m' `sublist_of` m → JsMap.get k m' = Some v →
  JsMap.get k m = Some v.
Proof.
  intros Hwf Hsub Hg. apply elem_get; [done|].
  eapply elem_of_sublist; [|exact Hsub]. by apply get_Some_elem.
Qed.

Lemma get_sublist_None m m' k :
  m' `sublist_of` m → JsMap.get k m = None → JsMap.get k m' = None.
Proof.
  rewrite !get_None. intros Hsub Hk Hk'. apply Hk.
  eapply elem_of_sublist; [exact Hk'|]. unfold JsMap.keys.
  by apply fmap_sublist.
Qed.

Lemma get_app_notin m k v :
  k ∉ JsMap.keys m → JsMap.get k (m ++ [(k, v)]) = Some v.
Proof.
  unfold JsMap.keys. induction m as [|[k' v'] rest IH]; simpl.
  - intros _. by rewrite decide_True.
  - rewrite not_elem_of_cons. intros [Hne Hrest].
    rewrite decide_False by done. by apply IH.
Qed.

Lemma get_app_ne m k k' v :
  k ≠ k' → JsMap.get k (m ++ [(k', v)]) = JsMap.get k m.
Proof.
  intros Hne. induction m as [|[k0 v0] rest IH]; simpl.
  - rewrite decide_False; [done|]. by intros ->.
  - by rewrite IH.
Qed.

Lemma wf_snoc m k v : JsMap.wf m → k ∉ JsMap.keys m → JsMap.wf (m ++ [(k, v)]).
Proof.
  unfold JsMap.wf, JsMap.keys. intros Hwf Hk. rewrite fmap_app. simpl.
  apply NoDup_app. split; [done|]. split.
  - intros k' Hk' ->%list_elem_of_singleton. by apply Hk.
  - apply NoDup_singleton.
Qed.
End JsMapFacts.
End JsMapFacts.

Module CacheFacts.
Import Cache.

Implicit Types (c : MemoryCache) (s : list (string * CacheRecord))
  (key : string) (now : Z).

Lemma fold_left_memOf s (a : Z) :
  fold_left (λ total kv, total + size kv.2) s a = a + memOf s.
Proof.
  revert a. induction s as [|kv rest IH]; intros a; simpl; [lia|].
  rewrite IH. lia.
Qed.

Lemma calculateMemoryUsage_memOf c : calculateMemoryUsage c = memOf (store c).
Proof. unfold calculateMemoryUsage. by rewrite fold_left_memOf. Qed.

Lemma memOf_app s1 s2 : memOf (s1 ++ s2) = memOf s1 + memOf s2.
Proof. induction s1 as [|kv rest IH]; simpl; lia. Qed.

Lemma nonneg_sublist s s' : nonneg s → s' `sublist_of` s → nonneg s'.
Proof.
  unfold nonneg. rewrite !Forall_forall. intros Hs Hsub kv Hkv.
  apply Hs. by eapply elem_of_sublist.
Qed.

Lemma memOf_nonneg s : nonneg s → 0 ≤ memOf s.
Proof. induction 1; simpl; lia. Qed.

Lemma memOf_sublist s s' : nonneg s → s' `sublist_of` s → memOf s' ≤ memOf s.
Proof.
  intros Hs Hsub. induction Hsub as [|kv l1 l2 Hsub IH|kv l1 l2 Hsub IH]; simpl.
  - lia.
  - apply Forall_cons in Hs as [_ Hs]. specialize (IH Hs). lia.
  - apply Forall_cons in Hs as [Hkv Hs]. specialize (IH Hs). lia.
Qed.

#[global] Instance evicts_preorder : PreOrder evicts.
Proof.
  split.
  - intros c. by split.
  - intros c1 c2 c3 [Hs12 Ho12] [Hs23 Ho23]. split.
    + by transitivity (store c2).
    + congruence.
Qed.

Lemma evicts_wf c c' : wf c → evicts c c' → wf c'.
Proof.
  intros [Hk Hn] [Hsub _]. split.
  - by eapply JsMapFacts.wf_sublist.
  - by eapply nonneg_sublist.
Qed.

Lemma evicts_memory c c' :
  wf c → evicts c c' → calculateMemoryUsage c' ≤ calculateMemoryUsage c.
Proof.
  intros [_ Hn] [Hsub _]. rewrite !calculateMemoryUsage_memOf.
  by apply memOf_sublist.
Qed.

Lemma evicts_length c c' : evicts c c' → (length (store c') ≤ length (store c))%nat.
Proof. intros [Hsub _]. by apply sublist_length. Qed.

Lemma evicts_get c c' key rec :
  wf c → evicts c c' → JsMap.get key (store c') = Some rec →
  JsMap.get key (store c) = Some rec.
Proof. intros [Hk _] [Hsub _]. by apply JsMapFacts.get_sublist. Qed.

Lemma evicts_get_None c c' key :
  evicts c c' → JsMap.get key (store c) = None →
  JsMap.get key (store c') = None.
Proof. intros [Hsub _]. by apply JsMapFacts.get_sublist_None. Qed.

Lemma store_delete_evicts key c : evicts c (store_delete key c).
Proof. split; [apply JsMapFacts.delete_sublist|done]. Qed.

Lemma eviction_incr_evicts c : evicts c (eviction_incr c).
Proof. by split. Qed.

Lemma fold_store_delete_evicts (keys : list string) :
  ∀ c, evicts c (fold_left (λ c key, store_delete key c) keys c)
       ∧ lastCleanup (fold_left (λ c key, store_delete key c) keys c)
         = lastCleanup c.
Proof.
  induction keys as [|key rest IH]; intros c; simpl; [done|].
  destruct (IH (store_delete key c)) as [Hev Hlc]. split; [|done].
  etransitivity; [apply (store_delete_evicts key)|done].
Qed.

Lemma cleanupExpired_evicts now c : evicts c (cleanupExpired now c).2.
Proof. apply fold_store_delete_evicts. Qed.

Lemma cleanupExpired_lastCleanup now c :
  lastCleanup (cleanupExpired now c).2 = lastCleanup c.
Proof. apply fold_store_delete_evicts. Qed.

Lemma gtNow_leNow (e : Num) now : gtNow e now = negb (leNow e now).
Proof.
  destruct e as [z|]; simpl; [|done].
  destruct (Z.ltb_spec now z), (Z.leb_spec z now); simpl; lia || done.
Qed.

(** With no expired entry, the purge does nothing. *)
Lemma cleanupExpired_live now c :
  Forall (live now) (store c) → (cleanupExpired now c).2 = c.
Proof.
  intros Hlive. unfold cleanupExpired, expiredKeys. simpl.
  assert (Hnil : filter (λ kv : string * CacheRecord,
                           leNow (expireAt kv.2) now = true) (store c) = []).
  { induction Hlive as [|kv rest Hkv Hrest IH]; [done|].
    rewrite filter_cons. unfold live in Hkv. rewrite gtNow_leNow in Hkv.
    destruct (leNow (expireAt kv.2) now); [done|].
    rewrite decide_False by done. exact IH. }
  by rewrite Hnil.
Qed.

(** After the purge no entry is expired. *)
Lemma cleanupExpired_all_live now c :
  Forall (live now) (store (cleanupExpired now c).2).
Proof.
  unfold cleanupExpired. simpl.
  assert (Hgen : ∀ (keys : list string) c0,
             (∀ kv, kv ∈ store c0 → ¬ live now kv → kv.1 ∈ keys) →
             Forall (live now)
               (store (fold_left (λ c key, store_delete key c) keys c0))).
  { induction keys as [|key rest IH]; intros c0 Hc0; simpl.
    - apply Forall_forall. intros kv Hkv.
      unfold live in *. destruct (gtNow (expireAt kv.2) now) eqn:Hgt; [done|].
      assert (Hin : kv.1 ∈ @nil string).
      { apply Hc0; [done|]. by rewrite Hgt. }
      by apply elem_of_nil in Hin.
    - apply IH. intros kv Hkv Hn. simpl in Hkv. unfold JsMap.delete in Hkv.
      apply list_elem_of_filter in Hkv as [Hne Hkv].
      specialize (Hc0 kv Hkv Hn). apply elem_of_cons in Hc0 as [?|?]; done. }
  apply Hgen. intros kv Hkv Hn. unfold expiredKeys.
  apply list_elem_of_fmap. exists kv. split; [done|].
  apply list_elem_of_filter. split; [|done].
  unfold live in Hn. rewrite gtNow_leNow in Hn.
  by destruct (leNow (expireAt kv.2) now).
Qed.

(** [evictLRU] drops the oldest [count] entries. *)
Lemma evictLRU_loop_spec (n : nat) :
  ∀ s o lc m, JsMap.wf s →
    let c' := evictLRU_loop n (JsMap.keys s) (mkCache s o lc m) in
    store c' = drop n s ∧ options c' = o ∧ lastCleanup c' = lc.
Proof.
  induction n as [|n IH]; intros s o lc m Hwf; simpl; [done|].
  destruct s as [|[k v] rest]; simpl; [done|].
  unfold store_delete, eviction_incr, with_store, with_metrics. simpl.
  rewrite (JsMapFacts.delete_head rest k v Hwf).
  apply IH. eapply JsMapFacts.wf_sublist; [exact Hwf|].
  by apply sublist_cons.
Qed.

Lemma evictLRU_store count c :
  wf c → store (evictLRU count c) = drop (Z.to_nat count) (store c).
Proof.
  intros [Hwf _]. unfold evictLRU. destruct c as [s o lc m].
  by apply evictLRU_loop_spec.
Qed.

Lemma evictLRU_options count c : wf c → options (evictLRU count c) = options c.
Proof.
  intros [Hwf _]. unfold evictLRU. destruct c as [s o lc m].
  by apply evictLRU_loop_spec.
Qed.

Lemma evictLRU_lastCleanup count c :
  wf c → lastCleanup (evictLRU count c) = lastCleanup c.
Proof.
  intros [Hwf _]. unfold evictLRU. destruct c as [s o lc m].
  by apply evictLRU_loop_spec.
Qed.

Lemma evictLRU_evicts count c : wf c → evicts c (evictLRU count c).
Proof.
  intros Hwf. split; [|by apply evictLRU_options].
  rewrite evictLRU_store by done. apply sublist_drop.
Qed.

(** [evictForMemory] drops oldest entries until enough bytes are freed or
    nothing is left. *)
Lemma evictForMemory_loop_spec (bytesToFree : Q) :
  ∀ s freed o lc m, JsMap.wf s →
    let c' := evictForMemory_loop bytesToFree (JsMap.keys s) freed
                (mkCache s o lc m) in
    (∃ n, store c' = drop n s) ∧ options c' = o ∧ lastCleanup c' = lc
    ∧ (store c' = []
       ∨ Qltb (inject_Z (freed + memOf s - memOf (store c'))) bytesToFree
         = false).
Proof.
  induction s as [|[k v] rest IH]; intros freed o lc m Hwf; simpl.
  - split; [by exists 0%nat|]. split; [done|]. split; [done|]. by left.
  - destruct (Qltb (inject_Z freed) bytesToFree) eqn:Hlt.
    + rewrite decide_True by done.
      unfold store_delete, eviction_incr, with_store, with_metrics. simpl.
      rewrite (JsMapFacts.delete_head rest k v Hwf).
      assert (Hrest : JsMap.wf rest).
      { eapply JsMapFacts.wf_sublist; [exact Hwf|]. by apply sublist_cons. }
      edestruct (IH (freed + size v) o lc) as ([n Hn] & Ho & Hlc & Hdone);
        [exact Hrest|].
      split; [exists (S n); exact Hn|]. split; [exact Ho|].
      split; [exact Hlc|].
      destruct Hdone as [Hnil|Hfreed]; [by left|right].
      rewrite <- Hfreed. do 2 f_equal. lia.
    + simpl. split; [by exists 0%nat|]. split; [done|]. split; [done|].
      right. rewrite <- Hlt. do 2 f_equal. lia.
Qed.

Lemma evictForMemory_evicts bytesToFree c :
  wf c → evicts c (evictForMemory bytesToFree c).
Proof.
  intros [Hwf _]. unfold evictForMemory. destruct c as [s o lc m].
  destruct (evictForMemory_loop_spec bytesToFree s 0 o lc m Hwf)
    as ([n Hn] & Ho & _ & _).
  split; [|done]. simpl. rewrite Hn. apply sublist_drop.
Qed.

Lemma evictForMemory_lastCleanup bytesToFree c :
  wf c → lastCleanup (evictForMemory bytesToFree c) = lastCleanup c.
Proof.
  intros [Hwf _]. unfold evictForMemory. destruct c as [s o lc m].
  by destruct (evictForMemory_loop_spec bytesToFree s 0 o lc m Hwf)
    as (_ & _ & ? & _).
Qed.

Lemma Qltb_inject_Z (a b : Z) : Qltb (inject_Z a) (inject_Z b) = (a <? b).
Proof.
  unfold Qltb. destruct (Z.ltb_spec a b) as [Hlt|Hge].
  - apply negb_true_iff. apply not_true_is_false.
    rewrite Qle_bool_iff, <- Zle_Qle. lia.
  - apply negb_false_iff. rewrite Qle_bool_iff, <- Zle_Qle. lia.
Qed.

(** After [evictForMemory(b)] for an integer [b], at least [b] bytes are
    freed unless the store is empty. *)
Lemma evictForMemory_freed (b : Z) c :
  wf c →
  store (evictForMemory (inject_Z b) c) = []
  ∨ calculateMemoryUsage (evictForMemory (inject_Z b) c)
    ≤ calculateMemoryUsage c - b.
Proof.
  intros [Hwf _]. rewrite !calculateMemoryUsage_memOf.
  unfold evictForMemory. destruct c as [s o lc m].
  destruct (evictForMemory_loop_spec (inject_Z b) s 0 o lc m Hwf)
    as (_ & _ & _ & [Hnil|Hfreed]); [by left|right].
  rewrite Qltb_inject_Z in Hfreed. apply Z.ltb_ge in Hfreed. simpl in *. lia.
Qed.

(** Nothing is evicted when nothing has to be freed. *)
Lemma evictForMemory_nothing (bytesToFree : Q) c :
  Qltb 0 bytesToFree = false → evictForMemory bytesToFree c = c.
Proof.
  intros Hb. unfold evictForMemory.
  destruct (JsMap.keys (store c)) as [|k rest]; simpl; [done|].
  change (inject_Z 0) with 0%Q. by rewrite Hb.
Qed.

Lemma with_lastCleanup_evicts c t : evicts c (with_lastCleanup c t).
Proof. by split. Qed.

Lemma smartCleanup_unfold force now c :
  smartCleanup force now c =
    if negb force && (now - lastCleanup c <? cleanupInterval (options c)) then c
    else if aboveThreshold (calculateMemoryUsage (afterCount now c))
                           (options (afterCap now c))
         then evictForMemory
                (inject_Z (calculateMemoryUsage (afterCount now c)) * (1 # 10))%Q
                (afterCap now c)
         else afterCap now c.
Proof. reflexivity. Qed.

Lemma afterCount_evicts now c : wf c → evicts c (afterCount now c).
Proof.
  intros Hwf. unfold afterCount.
  assert (H1 : evicts c (cleanupExpired now (with_lastCleanup c now)).2).
  { etransitivity; [apply (with_lastCleanup_evicts c now)|].
    apply cleanupExpired_evicts. }
  destruct (0 <? _); [|done].
  etransitivity; [exact H1|]. apply evictLRU_evicts. by eapply evicts_wf.
Qed.

Lemma afterCap_evicts now c : wf c → evicts c (afterCap now c).
Proof.
  intros Hwf. unfold afterCap.
  pose proof (afterCount_evicts now c Hwf) as H1.
  destruct (0 <? _); [|done].
  etransitivity; [exact H1|]. apply evictForMemory_evicts. by eapply evicts_wf.
Qed.

Lemma smartCleanup_evicts force now c :
  wf c → evicts c (smartCleanup force now c).
Proof.
  intros Hwf. rewrite smartCleanup_unfold.
  destruct (negb force && _); [done|].
  pose proof (afterCap_evicts now c Hwf) as H1.
  destruct (aboveThreshold _ _); [|done].
  etransitivity; [exact H1|]. apply evictForMemory_evicts. by eapply evicts_wf.
Qed.

Lemma smartCleanup_wf force now c : wf c → wf (smartCleanup force now c).
Proof. intros Hwf. eapply evicts_wf; [done|]. by apply smartCleanup_evicts. Qed.

(** After the memory-cap step the usage is within the cap. *)
Lemma afterCap_bound now c :
  wf c → 0 ≤ maxMemoryBytes (options c) →
  calculateMemoryUsage (afterCap now c) ≤ maxMemoryBytes (options c).
Proof.
  intros Hwf Hmax. unfold afterCap.
  pose proof (afterCount_evicts now c Hwf) as Hev.
  assert (Hwf1 : wf (afterCount now c)) by (by eapply evicts_wf).
  destruct Hev as [_ Hopt]. rewrite Hopt.
  destruct (Z.ltb_spec 0 (calculateMemoryUsage (afterCount now c)
                          - maxMemoryBytes (options c))) as [Hover|Hok];
    [|lia].
  destruct (evictForMemory_freed
              (calculateMemoryUsage (afterCount now c)
               - maxMemoryBytes (options c)) _ Hwf1) as [Hnil|Hle]; [|lia].
  rewrite calculateMemoryUsage_memOf, Hnil. simpl. lia.
Qed.

(** A forced cleanup leaves the usage within the cap. *)
Lemma forceCleanup_bound now c :
  wf c → 0 ≤ maxMemoryBytes (options c) →
  calculateMemoryUsage (forceCleanup now c) ≤ maxMemoryBytes (options c).
Proof.
  intros Hwf Hmax. unfold forceCleanup. rewrite smartCleanup_unfold. simpl.
  pose proof (afterCap_bound now c Hwf Hmax) as Hb.
  destruct (aboveThreshold _ _); [|done].
  etransitivity; [|exact Hb].
  apply evicts_memory.
  - eapply evicts_wf; [exact Hwf|]. by apply afterCap_evicts.
  - apply evictForMemory_evicts.
    eapply evicts_wf; [exact Hwf|]. by apply afterCap_evicts.
Qed.

Lemma smartCleanup_quiet force now c :
  quiet now c →
  store (smartCleanup force now c) = store c
  ∧ options (smartCleanup force now c) = options c.
Proof.
  intros (Hlive & Hlen & Hmem & Hth). rewrite smartCleanup_unfold.
  destruct (negb force && _); [done|].
  assert (H1 : afterCount now c = with_lastCleanup c now).
  { unfold afterCount. rewrite cleanupExpired_live by done. simpl.
    destruct (Z.ltb_spec 0 (Z.of_nat (length (store c)) - maxSize (options c)));
      [lia|done]. }
  assert (H2 : afterCap now c = with_lastCleanup c now).
  { unfold afterCap. rewrite H1.
    change (calculateMemoryUsage (with_lastCleanup c now))
      with (calculateMemoryUsage c). simpl.
    destruct (Z.ltb_spec 0 (calculateMemoryUsage c - maxMemoryBytes (options c)));
      [lia|done]. }
  rewrite H1, H2.
  change (calculateMemoryUsage (with_lastCleanup c now))
    with (calculateMemoryUsage c). simpl. by rewrite Hth.
Qed.

Lemma set_unfold key v ttlMs now c :
  set key v ttlMs now c =
    let c' := makeRoom (estimateSize v) now (prepared key now c) in
    with_store c'
      (JsMap.set key {| value := v; expireAt := addNow now (max0 ttlMs);
                        size := estimateSize v |} (store c')).
Proof. reflexivity. Qed.

Lemma prepared_evicts key now c : wf c → evicts c (prepared key now c).
Proof.
  intros Hwf. unfold prepared.
  pose proof (smartCleanup_evicts false now c Hwf) as H1.
  destruct (JsMap.has _ _); [|done].
  etransitivity; [exact H1|]. apply store_delete_evicts.
Qed.

Lemma prepared_notin key now c : key ∉ JsMap.keys (store (prepared key now c)).
Proof.
  unfold prepared.
  destruct (JsMap.has key (store (smartCleanup false now c))) eqn:Hhas.
  - simpl. apply JsMapFacts.get_None, JsMapFacts.get_delete_eq.
  - by apply JsMapFacts.has_false.
Qed.

Lemma makeRoom_evicts size now c : wf c → evicts c (makeRoom size now c).
Proof.
  intros Hwf. unfold makeRoom. destruct (_ || _); [|done].
  pose proof (cleanupExpired_evicts now c) as H1.
  assert (Hwf1 : wf (cleanupExpired now c).2) by (by eapply evicts_wf).
  destruct (_ <=? _).
  - etransitivity; [exact H1|]. by apply evictLRU_evicts.
  - destruct (_ <? _); [|done].
    etransitivity; [exact H1|]. by apply evictForMemory_evicts.
Qed.

Lemma evicts_notin c c' key :
  evicts c c' → key ∉ JsMap.keys (store c) → key ∉ JsMap.keys (store c').
Proof.
  intros [Hsub _] Hk Hk'. apply Hk.
  eapply elem_of_sublist; [exact Hk'|]. unfold JsMap.keys.
  by apply fmap_sublist.
Qed.

(** [set] appends the new record to what the evictions left. *)
Lemma set_store key v ttlMs now c :
  wf c →
  store (set key v ttlMs now c)
  = store (makeRoom (estimateSize v) now (prepared key now c))
    ++ [(key, {| value := v; expireAt := addNow now (max0 ttlMs);
                 size := estimateSize v |})].
Proof.
  intros Hwf. rewrite set_unfold. simpl.
  apply JsMapFacts.set_notin.
  eapply evicts_notin; [|apply prepared_notin].
  apply makeRoom_evicts. eapply evicts_wf; [exact Hwf|].
  by apply prepared_evicts.
Qed.

Lemma estimateSize_nonneg (v : JsValue) : 0 ≤ estimateSize v.
Proof.
  destruct v as [| |str|n|b|[str| |]|]; simpl; unfold strlen; try lia.
  case_bool_decide; lia.
Qed.

Lemma set_options key v ttlMs now c :
  wf c → options (set key v ttlMs now c) = options c.
Proof.
  intros Hwf. rewrite set_unfold. simpl.
  pose proof (prepared_evicts key now c Hwf) as [_ H1].
  pose proof (makeRoom_evicts (estimateSize v) now (prepared key now c)) as H2.
  destruct H2 as [_ H2].
  - eapply evicts_wf; [exact Hwf|]. by apply prepared_evicts.
  - congruence.
Qed.

Lemma set_wf key v ttlMs now c : wf c → wf (set key v ttlMs now c).
Proof.
  intros Hwf.
  assert (Hwf1 : wf (prepared key now c)).
  { eapply evicts_wf; [exact Hwf|]. by apply prepared_evicts. }
  pose proof (makeRoom_evicts (estimateSize v) now _ Hwf1) as Hev.
  destruct (evicts_wf _ _ Hwf1 Hev) as [Hk Hn].
  split; rewrite set_store by done.
  - apply JsMapFacts.wf_snoc; [done|].
    eapply evicts_notin; [exact Hev|apply prepared_notin].
  - apply Forall_app. split; [done|]. constructor; [|constructor].
    simpl. apply estimateSize_nonneg.
Qed.

(** The memory bound after [set], outside the item-count eviction branch. *)
Lemma set_bound key v ttlMs now c :
  wf c →
  estimateSize v ≤ maxMemoryBytes (options c) →
  Z.of_nat (length (store (purged key now c))) < maxSize (options c) →
  calculateMemoryUsage (set key v ttlMs now c) ≤ maxMemoryBytes (options c).
Proof.
  intros Hwf Hsize Hroom.
  rewrite calculateMemoryUsage_memOf, set_store by done.
  rewrite memOf_app. simpl. rewrite <- calculateMemoryUsage_memOf.
  pose proof (prepared_evicts key now c Hwf) as Hev0.
  assert (Hwf0 : wf (prepared key now c)) by (by eapply evicts_wf).
  destruct Hev0 as [_ Hopt0]. unfold purged in Hroom.
  set (c0 := prepared key now c) in *. unfold makeRoom.
  destruct (_ || _) eqn:Hneed.
  - pose proof (cleanupExpired_evicts now c0) as Hev1.
    assert (Hwf1 : wf (cleanupExpired now c0).2) by (by eapply evicts_wf).
    destruct Hev1 as [_ Hopt1]. rewrite Hopt1, Hopt0.
    destruct (Z.leb_spec (maxSize (options c))
                (Z.of_nat (length (store (cleanupExpired now c0).2))));
      [lia|].
    destruct (Z.ltb_spec (maxMemoryBytes (options c))
                (calculateMemoryUsage (cleanupExpired now c0).2
                 + estimateSize v)) as [Hover|Hok]; [|lia].
    destruct (evictForMemory_freed
                (calculateMemoryUsage (cleanupExpired now c0).2
                 + estimateSize v - maxMemoryBytes (options c)) _ Hwf1)
      as [Hnil|Hle]; [|lia].
    rewrite calculateMemoryUsage_memOf, Hnil. simpl. lia.
  - apply orb_false_iff in Hneed as [_ Hmem].
    apply Z.ltb_ge in Hmem. rewrite Hopt0 in Hmem. lia.
Qed.

Lemma memOf_delete_get s key rec :
  JsMap.wf s → JsMap.get key s = Some rec →
  memOf (JsMap.delete key s) + size rec = memOf s.
Proof.
  induction s as [|[k v] rest IH]; simpl; intros Hwf Hget; [done|].
  destruct (decide (k = key)) as [->|Hne].
  - injection Hget as ->. rewrite (JsMapFacts.delete_head rest key rec Hwf). lia.
  - unfold JsMap.delete. rewrite filter_cons. simpl.
    rewrite decide_True by done. simpl.
    fold (JsMap.delete key rest). rewrite <- IH; [lia| |done].
    eapply JsMapFacts.wf_sublist; [exact Hwf|]. by apply sublist_cons.
Qed.

(** [get] never raises the usage. *)
Lemma get_memory key now c :
  wf c → calculateMemoryUsage (get key now c).2 ≤ calculateMemoryUsage c.
Proof.
  intros Hwf. unfold get.
  pose proof (smartCleanup_evicts false now c Hwf) as Hev.
  assert (Hwf1 : wf (smartCleanup false now c)) by (by eapply evicts_wf).
  pose proof (evicts_memory _ _ Hwf Hev) as Hle.
  set (c1 := smartCleanup false now c) in *.
  destruct (JsMap.get key (store c1)) as [rec|] eqn:Hget; simpl; [|done].
  destruct (gtNow (expireAt rec) now); simpl.
  - etransitivity; [|exact Hle]. rewrite !calculateMemoryUsage_memOf. simpl.
    rewrite JsMapFacts.set_notin
      by apply JsMapFacts.get_None, JsMapFacts.get_delete_eq.
    rewrite memOf_app. simpl.
    destruct Hwf1 as [Hk _].
    pose proof (memOf_delete_get _ _ _ Hk Hget). lia.
  - etransitivity; [|exact Hle].
    apply (evicts_memory c1 (store_delete key c1) Hwf1).
    apply store_delete_evicts.
Qed.

Lemma get_store_hit key now c rec :
  JsMap.get key (store (smartCleanup false now c)) = Some rec →
  gtNow (expireAt rec) now = true →
  (get key now c).1 = {| hit := true; result_value := Some (value rec) |}
  ∧ store (get key now c).2
    = JsMap.delete key (store (smartCleanup false now c)) ++ [(key, rec)].
Proof.
  intros Hget Hlive. unfold get. rewrite Hget, Hlive. simpl.
  split; [done|]. apply JsMapFacts.set_notin.
  apply JsMapFacts.get_None, JsMapFacts.get_delete_eq.
Qed.

Lemma get_options key now c : wf c → options (get key now c).2 = options c.
Proof.
  intros Hwf. unfold get.
  destruct (smartCleanup_evicts false now c Hwf) as [_ Hopt].
  destruct (JsMap.get _ _) as [rec|]; simpl; [|done].
  by destruct (gtNow _ _).
Qed.

Lemma get_wf key now c : wf c → wf (get key now c).2.
Proof.
  intros Hwf.
  pose proof (smartCleanup_wf false now c Hwf) as Hwf1.
  destruct (JsMap.get key (store (smartCleanup false now c))) as [rec|] eqn:Hget.
  - destruct (gtNow (expireAt rec) now) eqn:Hlive.
    + destruct (get_store_hit key now c rec Hget Hlive) as [_ Hst].
      destruct Hwf1 as [Hk Hn]. split; rewrite Hst.
      * apply JsMapFacts.wf_snoc.
        -- eapply JsMapFacts.wf_sublist; [exact Hk|].
           apply JsMapFacts.delete_sublist.
        -- apply JsMapFacts.get_None, JsMapFacts.get_delete_eq.
      * apply Forall_app. split.
        -- eapply nonneg_sublist; [exact Hn|]. apply JsMapFacts.delete_sublist.
        -- constructor; [|constructor]. simpl.
           apply JsMapFacts.get_Some_elem in Hget.
           unfold nonneg in Hn. rewrite Forall_forall in Hn.
           by apply (Hn _ Hget).
    + unfold get. rewrite Hget, Hlive. simpl.
      apply (evicts_wf _ _ Hwf1 (store_delete_evicts key _)).
  - unfold get. rewrite Hget. exact Hwf1.
Qed.

Lemma new_wf (o : MemoryCacheOptions) : wf (MemoryCache_new o).
Proof. split; constructor. Qed.

Lemma delete_evicts key c : evicts c (delete key c).
Proof. apply store_delete_evicts. Qed.

Lemma clear_evicts c : evicts c (clear c).
Proof. split; [apply sublist_nil_l|done]. Qed.

(** Every public operation keeps the representation invariant. *)
Lemma step_wf c (op : Op) : wf c → wf (step c op).
Proof.
  intros Hwf. destruct op as [key now|key v ttlMs now|key| |now]; simpl.
  - by apply get_wf.
  - by apply set_wf.
  - apply (evicts_wf _ _ Hwf (delete_evicts key c)).
  - apply (evicts_wf _ _ Hwf (clear_evicts c)).
  - by apply smartCleanup_wf.
Qed.

Lemma run_wf (ops : list Op) : ∀ c, wf c → wf (run ops c).
Proof.
  induction ops as [|op rest IH]; intros c Hwf; simpl; [done|].
  apply IH. by apply step_wf.
Qed.

Lemma purged_length key now c :
  wf c → (length (store (purged key now c)) ≤ length (store c))%nat.
Proof.
  intros Hwf. apply evicts_length. unfold purged.
  etransitivity; [by apply prepared_evicts|apply cleanupExpired_evicts].
Qed.

(** C1 (as amended). For a cache whose maxMemoryBytes is not negative:
    after forceCleanup the estimated sizes of the retained entries sum to at
    most maxMemoryBytes; after set they do so provided the estimated size of
    the new value is itself at most maxMemoryBytes and, once the cleanup
    pass, the removal of the key's old entry and the purge of expired
    entries are done, fewer than maxSize entries are left (as is the case
    when the cache holds fewer than maxSize entries before the set); get and
    delete never raise the sum and clear makes it zero, so they keep the
    bound once it holds. *)
Theorem memory_bound c :
  wf c → 0 ≤ maxMemoryBytes (options c) →
  (∀ now, memoryUsage (forceCleanup now c) ≤ maxMemoryBytes (options c))
  ∧ (∀ key v ttlMs now,
       estimateSize v ≤ maxMemoryBytes (options c) →
       Z.of_nat (length (store (purged key now c))) < maxSize (options c) →
       memoryUsage (set key v ttlMs now c) ≤ maxMemoryBytes (options c))
  ∧ (∀ key v ttlMs now,
       estimateSize v ≤ maxMemoryBytes (options c) →
       Z.of_nat (length (store c)) < maxSize (options c) →
       memoryUsage (set key v ttlMs now c) ≤ maxMemoryBytes (options c))
  ∧ (∀ key now, memoryUsage (get key now c).2 ≤ memoryUsage c)
  ∧ (∀ key, memoryUsage (delete key c) ≤ memoryUsage c)
  ∧ memoryUsage (clear c) = 0.
Proof.
  intros Hwf Hmax. unfold memoryUsage.
  split; [|split; [|split; [|split; [|split]]]].
  - intros now. by apply forceCleanup_bound.
  - intros key v ttlMs now. by apply set_bound.
  - intros key v ttlMs now Hsize Hroom. apply set_bound; [done..|].
    pose proof (purged_length key now c Hwf). lia.
  - intros key now. by apply get_memory.
  - intros key. apply (evicts_memory _ _ Hwf (delete_evicts key c)).
  - reflexivity.
Qed.

Lemma memory_bound_witness :
  memoryUsage (set "k2" (JsString "abc") (Finite 1000) 5
                 (set "k1" (JsString "ab") (Finite 1000) 5 smallBudget)) ≤ 10.
Proof.
  apply (memory_bound (set "k1" (JsString "ab") (Finite 1000) 5 smallBudget)).
  - apply set_wf, new_wf.
  - vm_compute. discriminate.
  - vm_compute. discriminate.
  - vm_compute. reflexivity.
Defined.

(** The statement of C1 for every set fails: a value whose estimated size
    exceeds maxMemoryBytes is stored all the same. *)
Lemma set_exceeds_budget :
  ¬ (∀ c key v ttlMs now,
       wf c → memoryUsage (set key v ttlMs now c) ≤ maxMemoryBytes (options c)).
Proof.
  intros Hall.
  specialize (Hall smallBudget "key1" (JsString "value1") (Finite 1000)
                1700000000000 (new_wf _)).
  vm_compute in Hall. by apply Hall.
Qed.

(** In the item-count branch of [set] the memory cap is not looked at: with
    two entries of 2 bytes in a cache of 2 items and 10 bytes, a value of 10
    bytes replaces the oldest entry and the usage is 12. *)
Lemma set_count_branch_skips_memory_check :
  let c := set "b" (JsString "y") (Finite 1000) 5
             (set "a" (JsString "x") (Finite 1000) 5 tinyCache) in
  estimateSize (JsString "12345") = 10
  ∧ memoryUsage c = 4
  ∧ JsMap.keys (store (set "c" (JsString "12345") (Finite 1000) 5 c)) = ["b"; "c"]
  ∧ memoryUsage (set "c" (JsString "12345") (Finite 1000) 5 c) = 12.
Proof. vm_compute. done. Qed.

(** What [get] answers, from the store left by its cleanup pass. *)
Lemma get_result key now c :
  (get key now c).1 =
    match JsMap.get key (store (smartCleanup false now c)) with
    | Some rec => if gtNow (expireAt rec) now then hitWith (value rec) else miss
    | None => miss
    end.
Proof.
  unfold get. destruct (JsMap.get _ _) as [rec|]; [|done].
  by destruct (gtNow _ _).
Qed.

Lemma get_absent key now c :
  wf c → JsMap.get key (store c) = None → (get key now c).1 = miss.
Proof.
  intros Hwf Hnone. rewrite get_result.
  by rewrite (evicts_get_None _ _ key (smartCleanup_evicts false now c Hwf) Hnone).
Qed.

Lemma get_not_live key now c rec :
  wf c → JsMap.get key (store c) = Some rec → gtNow (expireAt rec) now = false →
  (get key now c).1 = miss.
Proof.
  intros Hwf Hget Hexp. rewrite get_result.
  destruct (JsMap.get key (store (smartCleanup false now c))) as [rec'|] eqn:Hget';
    [|done].
  apply (evicts_get _ _ _ _ Hwf (smartCleanup_evicts false now c Hwf)) in Hget'.
  assert (rec' = rec) by congruence. subst rec'. by rewrite Hexp.
Qed.

(** After a miss the key is not in the store. *)
Lemma get_miss_gone key now c :
  (get key now c).1 = miss → JsMap.get key (store (get key now c).2) = None.
Proof.
  unfold get.
  destruct (JsMap.get key (store (smartCleanup false now c))) as [rec|] eqn:Hget;
    simpl; [|done].
  destruct (gtNow (expireAt rec) now); simpl; [done|].
  intros _. apply JsMapFacts.get_delete_eq.
Qed.

Lemma sublist_length_lt {A} (l1 l2 : list A) (x : A) :
  l1 `sublist_of` l2 → x ∈ l2 → x ∉ l1 → (length l1 < length l2)%nat.
Proof.
  intros Hsub Hin Hnin.
  induction Hsub as [|y l1 l2 Hsub IH|y l1 l2 Hsub IH]; simpl.
  - by apply elem_of_nil in Hin.
  - apply elem_of_cons in Hin as [->|Hin].
    + exfalso. apply Hnin. left.
    + apply not_elem_of_cons in Hnin as [_ Hnin]. specialize (IH Hin Hnin). lia.
  - apply sublist_length in Hsub. lia.
Qed.

(** A miss on an entry that was in the store removes it: the store shrinks. *)
Lemma get_miss_shrinks key now c rec :
  wf c → JsMap.get key (store c) = Some rec → (get key now c).1 = miss →
  (cache_size (get key now c).2 < cache_size c)%nat.
Proof.
  intros Hwf Hget Hmiss. unfold cache_size.
  pose proof (get_miss_gone key now c Hmiss) as Hgone.
  apply (sublist_length_lt _ _ (key, rec)).
  - unfold get.
    destruct (smartCleanup_evicts false now c Hwf) as [Hsub _].
    unfold get in Hmiss.
    destruct (JsMap.get key (store (smartCleanup false now c))) as [rec'|];
      simpl in *; [|done].
    destruct (gtNow (expireAt rec') now); simpl in *; [done|].
    etransitivity; [apply JsMapFacts.delete_sublist|done].
  - by apply JsMapFacts.get_Some_elem.
  - intros Hin. apply JsMapFacts.get_None in Hgone. apply Hgone.
    unfold JsMap.keys. apply list_elem_of_fmap. by exists (key, rec).
Qed.

(** What [set] leaves under the key. *)
Lemma get_after_set key v ttlMs now c :
  wf c →
  JsMap.get key (store (set key v ttlMs now c))
  = Some {| value := v; expireAt := addNow now (max0 ttlMs);
            size := estimateSize v |}.
Proof.
  intros Hwf. rewrite set_store by done.
  apply JsMapFacts.get_app_notin.
  eapply evicts_notin; [|apply prepared_notin].
  apply makeRoom_evicts. eapply evicts_wf; [exact Hwf|].
  by apply prepared_evicts.
Qed.

(** [set] on an empty store leaves the new entry alone. *)
Lemma set_store_empty key v ttlMs now c :
  wf c → store c = [] →
  store (set key v ttlMs now c)
  = [(key, {| value := v; expireAt := addNow now (max0 ttlMs);
              size := estimateSize v |})].
Proof.
  intros Hwf Hempty. rewrite set_store by done.
  assert (Hev : evicts c (makeRoom (estimateSize v) now (prepared key now c))).
  { etransitivity; [by apply prepared_evicts|].
    apply makeRoom_evicts. eapply evicts_wf; [exact Hwf|].
    by apply prepared_evicts. }
  destruct Hev as [Hsub _]. rewrite Hempty in Hsub.
  apply sublist_nil_r in Hsub. by rewrite Hsub.
Qed.

(** An operation other than a [set] on [key] leaves under [key] nothing
    but the record that was there. *)
Lemma step_lookup key c (op : Op) rec :
  wf c → ¬ setsKey key op →
  JsMap.get key (store (step c op)) = Some rec →
  JsMap.get key (store c) = Some rec.
Proof.
  intros Hwf Hop.
  destruct op as [k now|k v ttlMs now|k| |now]; cbn [step setsKey] in *.
  - pose proof (smartCleanup_evicts false now c Hwf) as Hev.
    pose proof (smartCleanup_wf false now c Hwf) as Hwf1.
    unfold get.
    destruct (JsMap.get k (store (smartCleanup false now c))) as [r|] eqn:Hk;
      simpl; [|by apply evicts_get].
    destruct (gtNow (expireAt r) now); simpl.
    + rewrite JsMapFacts.set_notin
        by apply JsMapFacts.get_None, JsMapFacts.get_delete_eq.
      destruct (decide (key = k)) as [->|Hne].
      * rewrite JsMapFacts.get_app_notin
          by apply JsMapFacts.get_None, JsMapFacts.get_delete_eq.
        intros [= <-]. by eapply evicts_get.
      * rewrite JsMapFacts.get_app_ne, JsMapFacts.get_delete_ne by done.
        by apply evicts_get.
    + intros Hget. eapply evicts_get; [exact Hwf|exact Hev|].
      eapply (evicts_get _ (store_delete k _)); [exact Hwf1| |exact Hget].
      apply store_delete_evicts.
  - rewrite set_store by done.
    rewrite JsMapFacts.get_app_ne by (intros ->; by apply Hop).
    assert (Hwf0 : wf (prepared k now c)).
    { eapply evicts_wf; [exact Hwf|]. by apply prepared_evicts. }
    intros Hget. eapply evicts_get; [exact Hwf|by apply prepared_evicts|].
    eapply evicts_get; [exact Hwf0|by apply makeRoom_evicts|exact Hget].
  - apply (evicts_get _ _ _ _ Hwf (delete_evicts k c)).
  - done.
  - by apply evicts_get, smartCleanup_evicts.
Qed.

Lemma run_lookup key (ops : list Op) :
  ∀ c rec, wf c → Forall (λ op, ¬ setsKey key op) ops →
    JsMap.get key (store (run ops c)) = Some rec →
    JsMap.get key (store c) = Some rec.
Proof.
  induction ops as [|op rest IH]; intros c rec Hwf Hops; simpl; [done|].
  apply Forall_cons in Hops as [Hop Hrest]. intros Hget.
  apply (step_lookup key c op rec Hwf Hop).
  apply IH; [by apply step_wf|done|done].
Qed.

Lemma gtNow_mono (e : Num) (t t' : Z) :
  t ≤ t' → gtNow e t = false → gtNow e t' = false.
Proof.
  destruct e as [z|]; simpl; [|done].
  rewrite !Z.ltb_ge. lia.
Qed.

(** Once its time to live has run out, an entry is a miss, whatever
    operations came in between, short of a new [set] on the key. *)
Lemma get_after_ttl key v (ttl : Z) now t (ops : list Op) c :
  wf c →
  Forall (λ op, ¬ setsKey key op) ops →
  now + Z.max 0 ttl ≤ t →
  (get key t (run ops (set key v (Finite ttl) now c))).1 = miss.
Proof.
  intros Hwf Hops Ht.
  pose proof (set_wf key v (Finite ttl) now c Hwf) as Hwf1.
  pose proof (run_wf ops _ Hwf1) as Hwf2.
  destruct (JsMap.get key (store (run ops (set key v (Finite ttl) now c))))
    as [rec|] eqn:Hget; [|by apply get_absent].
  eapply get_not_live; [done..|].
  apply run_lookup in Hget; [|done..].
  rewrite get_after_set in Hget by done. injection Hget as <-. simpl.
  apply Z.ltb_ge. lia.
Qed.

(** A read of a fresh entry that the cleanup pass of the read has kept. *)
Lemma get_fresh_entry key v ttlMs now t c :
  wf c →
  gtNow (addNow now (max0 ttlMs)) t = true →
  is_Some (JsMap.get key (store (smartCleanup false t (set key v ttlMs now c)))) →
  (get key t (set key v ttlMs now c)).1 = hitWith v.
Proof.
  intros Hwf Hlive [rec Hrec]. rewrite get_result, Hrec.
  pose proof (set_wf key v ttlMs now c Hwf) as Hwf1.
  apply (evicts_get _ _ _ _ Hwf1 (smartCleanup_evicts false t _ Hwf1)) in Hrec.
  rewrite get_after_set in Hrec by done. injection Hrec as <-. simpl.
  by rewrite Hlive.
Qed.

(** In a new cache with room for the value, the entry is kept by the
    cleanup pass of a later read, as long as it is live. *)
Lemma fresh_entry_kept (o : MemoryCacheOptions) key v ttlMs now t :
  let c0 := MemoryCache_new o in
  1 ≤ maxSize (options c0) →
  estimateSize v ≤ maxMemoryBytes (options c0) →
  aboveThreshold (estimateSize v) (options c0) = false →
  gtNow (addNow now (max0 ttlMs)) t = true →
  is_Some (JsMap.get key (store (smartCleanup false t (set key v ttlMs now c0)))).
Proof.
  intros c0 Hsize Hmem Hth Hlive.
  pose proof (set_store_empty key v ttlMs now c0 (new_wf o) eq_refl) as Hst.
  pose proof (set_options key v ttlMs now c0 (new_wf o)) as Hopt.
  destruct (smartCleanup_quiet false t (set key v ttlMs now c0)) as [Hst' _].
  { unfold quiet. rewrite calculateMemoryUsage_memOf, Hst, Hopt.
    cbn [length memOf foldr snd size]. rewrite Z.add_0_r.
    split; [by repeat constructor|]. split; [lia|]. split; [lia|done]. }
  rewrite Hst', Hst. simpl. rewrite decide_True by done. eauto.
Qed.

(** C4 (as amended). get(key) is a miss when the key is absent, and when
    the entry's expiry time has passed; in the second case the entry is no longer in the
    store afterwards and the size of the cache has decreased. An entry set
    with ttlMs = 1000 is a miss for every read 1000 ms or more after the
    insertion (1001 ms in particular), whatever operations other than a new
    set on the key come in between, and a hit, with the stored value, for
    every earlier read that finds it retained, as is every read whose
    cleanup pass is within its minimum interval; in a new cache with room
    for the value (the cache of the unit tests for one) the read 999 ms
    after the insertion is such a hit. *)
Theorem ttl_expiry c key now :
  wf c →
  (JsMap.get key (store c) = None → (get key now c).1 = miss)
  ∧ (∀ rec, JsMap.get key (store c) = Some rec →
            gtNow (expireAt rec) now = false →
            (get key now c).1 = miss
            ∧ JsMap.get key (store (get key now c).2) = None
            ∧ (cache_size (get key now c).2 < cache_size c)%nat)
  ∧ (∀ v t, let c1 := set key v (Finite 1000) now c in
       (now + 1000 ≤ t →
        ∀ ops, Forall (λ op, ¬ setsKey key op) ops →
               (get key t (run ops c1)).1 = miss)
       ∧ (t < now + 1000 →
          is_Some (JsMap.get key (store (smartCleanup false t c1))) →
          (get key t c1).1 = hitWith v)
       ∧ (t < now + 1000 →
          t - lastCleanup c1 < cleanupInterval (options c1) →
          (get key t c1).1 = hitWith v))
  ∧ (∀ o v, let c0 := MemoryCache_new o in
       1 ≤ maxSize (options c0) →
       estimateSize v ≤ maxMemoryBytes (options c0) →
       aboveThreshold (estimateSize v) (options c0) = false →
       (get key (now + 999) (set key v (Finite 1000) now c0)).1 = hitWith v
       ∧ (get key (now + 1001) (set key v (Finite 1000) now c0)).1 = miss)
  ∧ (get "key1" (now + 999)
       (set "key1" (JsString "value1") (Finite 1000) now
          (MemoryCache_new testOptions))).1 = hitWith (JsString "value1").
Proof.
  intros Hwf.
  assert (Hlate : ∀ c' v t, wf c' → now + 1000 ≤ t →
            (get key t (set key v (Finite 1000) now c')).1 = miss).
  { intros c' v t Hwf' Ht.
    apply (get_after_ttl key v 1000 now t [] c'); [done|constructor|lia]. }
  assert (Hearly : ∀ t, t < now + 1000 →
            gtNow (addNow now (max0 (Finite 1000))) t = true).
  { intros t Ht. simpl. apply Z.ltb_lt. lia. }
  split; [by apply get_absent|]. split; [|split; [|split]].
  - intros rec Hget Hexp.
    pose proof (get_not_live key now c rec Hwf Hget Hexp) as Hmiss.
    split; [done|]. split; [by apply get_miss_gone|].
    by eapply get_miss_shrinks.
  - intros v t c1. split.
    { intros Ht ops Hops. apply get_after_ttl; [done..|lia]. }
    split.
    { intros Ht Hkept. apply get_fresh_entry; [done|by apply Hearly|done]. }
    intros Ht Hgate. apply get_fresh_entry; [done|by apply Hearly|].
    subst c1. rewrite smartCleanup_unfold. simpl negb. cbv iota.
    rewrite (proj2 (Z.ltb_lt _ _) Hgate). simpl andb. cbv iota.
    rewrite get_after_set by done. eauto.
  - intros o v c0 Hsize Hmem Hth. split.
    + apply get_fresh_entry; [apply new_wf|apply Hearly; lia|].
      apply fresh_entry_kept; [done..|apply Hearly; lia].
    + apply Hlate; [apply new_wf|lia].
  - apply get_fresh_entry; [apply new_wf|apply Hearly; lia|].
    apply (fresh_entry_kept testOptions "key1" (JsString "value1")).
    + simpl. lia.
    + vm_compute. discriminate.
    + vm_compute. reflexivity.
    + apply Hearly. lia.
Qed.

Lemma ttl_expiry_witness :
  (get "key1" 1700000001000
     (set "key1" (JsString "value1") (Finite 1000) 1700000000000
        (MemoryCache_new testOptions))).1 = miss.
Proof.
  pose proof (ttl_expiry
                (set "key1" (JsString "value1") (Finite 1000) 1700000000000
                   (MemoryCache_new testOptions))
                "key1" 1700000001000 (set_wf _ _ _ _ _ (new_wf _))) as H.
  destruct H as (_ & H & _).
  destruct (H {| value := JsString "value1"; expireAt := Finite 1700000001000;
                 size := 12 |}) as [Hmiss _]; [reflexivity|reflexivity|].
  exact Hmiss.
Defined.

(** The statement of C4 for every cache fails: with maxMemoryBytes = 14 and
    cleanupInterval = 500, the read 999 ms after set("key1", "value1", 1000)
    opens with a cleanup pass that finds 12 of 14 bytes in use, above the
    threshold of 80%, and evicts the entry, so the read is a miss. *)
Lemma ttl_hit_lost_to_threshold :
  ¬ (∀ (o : MemoryCacheOptions) key v now,
       (get key (now + 999)
          (set key v (Finite 1000) now (MemoryCache_new o))).1 = hitWith v).
Proof.
  intros H.
  specialize (H {| opt_maxSize := None; opt_maxMemoryBytes := Some 14;
                   opt_cleanupInterval := Some 500;
                   opt_memoryThreshold := None |}
                "key1" (JsString "value1") 1700000000000).
  vm_compute in H. discriminate H.
Qed.



Lemma smartCleanup_idle now c :
  Forall (live now) (store c) →
  Z.of_nat (length (store c)) ≤ maxSize (options c) →
  memoryIdle now c →
  store (smartCleanup false now c) = store c
  ∧ options (smartCleanup false now c) = options c.
Proof.
  intros Hlive Hlen [Hgate|[Hmem Hth]].
  - rewrite smartCleanup_unfold. simpl.
    destruct (Z.ltb_spec (now - lastCleanup c) (cleanupInterval (options c)));
      [done|lia].
  - by apply smartCleanup_quiet.
Qed.

(** A [set] of a new key into a full cache of live entries drops the oldest
    entry and appends the new one. *)
Lemma set_full key v ttlMs now c k0 r0 rest :
  wf c →
  store c = (k0, r0) :: rest →
  Z.of_nat (length (store c)) = maxSize (options c) →
  Forall (live now) (store c) →
  key ∉ JsMap.keys (store c) →
  memoryIdle now c →
  store (set key v ttlMs now c)
  = rest ++ [(key, {| value := v; expireAt := addNow now (max0 ttlMs);
                      size := estimateSize v |})].
Proof.
  intros Hwf Hstore Hfull Hlive Hnew Hidle.
  rewrite set_store by done. f_equal.
  destruct (smartCleanup_idle now c Hlive) as [Hst Hopt]; [lia|done|].
  pose proof (smartCleanup_wf false now c Hwf) as Hwf1.
  unfold prepared.
  rewrite (proj2 (JsMapFacts.has_false _ key)) by (by rewrite Hst).
  set (c1 := smartCleanup false now c) in *. unfold makeRoom.
  rewrite Hopt, Hst.
  rewrite (proj2 (Z.leb_le _ _)) by lia. simpl orb. cbv iota.
  rewrite cleanupExpired_live by (by rewrite Hst).
  rewrite Hopt, Hst. rewrite (proj2 (Z.leb_le _ _)) by lia.
  rewrite evictLRU_store by done. rewrite Hst, Hstore.
  replace (Z.of_nat (length ((k0, r0) :: rest)) - maxSize (options c) + 1)
    with 1 by (rewrite <- Hfull, Hstore; lia).
  done.
Qed.

Lemma evictForMemory_suffix bytesToFree c :
  wf c → ∃ n, store (evictForMemory bytesToFree c) = drop n (store c).
Proof.
  intros [Hwf _]. unfold evictForMemory. destruct c as [s o lc m].
  by destruct (evictForMemory_loop_spec bytesToFree s 0 o lc m Hwf)
    as (Hn & _).
Qed.

Lemma live_drop now s (n : nat) :
  Forall (live now) s → Forall (live now) (drop n s).
Proof. apply Forall_drop. Qed.

(** With no expired entry, a cleanup pass removes entries from the least
    recent end only. *)
Lemma smartCleanup_suffix force now c :
  wf c → Forall (live now) (store c) →
  ∃ n, store (smartCleanup force now c) = drop n (store c).
Proof.
  intros Hwf Hlive. rewrite smartCleanup_unfold.
  destruct (negb force && _); [by exists 0%nat|].
  assert (H1 : ∃ n, store (afterCount now c) = drop n (store c)).
  { unfold afterCount. rewrite cleanupExpired_live by done.
    destruct (0 <? _); [|by exists 0%nat].
    rewrite evictLRU_store by done. eauto. }
  destruct H1 as [n1 Hn1].
  assert (Hwf1 : wf (afterCount now c)).
  { eapply evicts_wf; [exact Hwf|]. by apply afterCount_evicts. }
  assert (H2 : ∃ n, store (afterCap now c) = drop n (store c)).
  { unfold afterCap. destruct (0 <? _); [|eauto].
    destruct (evictForMemory_suffix
                (inject_Z (calculateMemoryUsage (afterCount now c)
                           - maxMemoryBytes (options (afterCount now c))))
                _ Hwf1) as [n2 Hn2].
    exists (n1 + n2)%nat. by rewrite Hn2, Hn1, drop_drop. }
  destruct H2 as [n2 Hn2].
  assert (Hwf2 : wf (afterCap now c)).
  { eapply evicts_wf; [exact Hwf|]. by apply afterCap_evicts. }
  destruct (aboveThreshold _ _); [|eauto].
  destruct (evictForMemory_suffix
              (inject_Z (calculateMemoryUsage (afterCount now c)) * (1 # 10))%Q
              _ Hwf2) as [n3 Hn3].
  exists (n2 + n3)%nat. by rewrite Hn3, Hn2, drop_drop.
Qed.

(** A [set] of a new key into a cache of live entries evicts from the least
    recent end only, and at least one entry when the cache is full. *)
Lemma set_suffix key v ttlMs now c :
  wf c →
  Forall (live now) (store c) →
  key ∉ JsMap.keys (store c) →
  ∃ n, store (set key v ttlMs now c)
       = drop n (store c)
         ++ [(key, {| value := v; expireAt := addNow now (max0 ttlMs);
                      size := estimateSize v |})]
       ∧ (Z.of_nat (length (store c)) = maxSize (options c) →
          store c ≠ [] → (1 ≤ n)%nat).
Proof.
  intros Hwf Hlive Hnew. rewrite set_store by done.
  destruct (smartCleanup_suffix false now c Hwf Hlive) as [n0 Hn0].
  pose proof (smartCleanup_evicts false now c Hwf) as [_ Hopt].
  pose proof (smartCleanup_wf false now c Hwf) as Hwf1.
  unfold prepared.
  rewrite (proj2 (JsMapFacts.has_false _ key))
    by (eapply evicts_notin; [by apply smartCleanup_evicts|done]).
  set (c1 := smartCleanup false now c) in *.
  assert (Hlive1 : Forall (live now) (store c1))
    by (rewrite Hn0; by apply live_drop).
  unfold makeRoom. rewrite cleanupExpired_live by done. rewrite Hopt.
  destruct (Z.leb_spec (maxSize (options c)) (Z.of_nat (length (store c1))))
    as [Hfull|Hroom]; simpl orb; cbv iota.
  - rewrite evictLRU_store by done.
    set (k := Z.to_nat (Z.of_nat (length (store c1)) - maxSize (options c) + 1)).
    assert (Hk : (1 ≤ k)%nat) by (subst k; lia).
    exists (n0 + k)%nat. rewrite Hn0, drop_drop. split; [done|]. lia.
  - destruct (maxMemoryBytes (options c) <? _).
    + destruct (evictForMemory_suffix
                  (inject_Z (calculateMemoryUsage c1 + estimateSize v
                             - maxMemoryBytes (options c))) c1 Hwf1)
        as [n1 Hn1].
      exists (n0 + n1)%nat. rewrite Hn1, Hn0, drop_drop. split; [done|].
      intros Hcap Hne. destruct n0 as [|n0]; [|lia].
      rewrite Hn0, drop_0 in Hroom. lia.
    + exists n0. rewrite Hn0. split; [done|].
      intros Hcap Hne. destruct n0 as [|n0]; [|lia].
      rewrite Hn0, drop_0 in Hroom. lia.
Qed.

(** C2 (as amended). The store is kept in order of last touch: a get hit
    moves the entry to the most recent end, and a set puts its entry there.
    For a cache of capacity N holding N unexpired entries, a set of a new
    key evicts from the least recent end only, and at least one entry; it
    removes exactly the entry at the least recent end provided the cleanup
    pass that opens the set has no memory-driven eviction to perform (it is
    within its minimum interval, or the usage is within maxMemoryBytes and
    not above the threshold). With capacity 2, after set(k1), set(k2),
    get(k1), set(k3), key k2 is gone and k1 and k3 are hits. *)
Theorem lru_eviction c key now :
  wf c →
  (∀ rec, JsMap.get key (store (smartCleanup false now c)) = Some rec →
          gtNow (expireAt rec) now = true →
          (get key now c).1 = hitWith (value rec)
          ∧ store (get key now c).2
            = JsMap.delete key (store (smartCleanup false now c))
              ++ [(key, rec)])
  ∧ (∀ v ttlMs, ∃ older,
       store (set key v ttlMs now c)
       = older ++ [(key, {| value := v; expireAt := addNow now (max0 ttlMs);
                            size := estimateSize v |})]
       ∧ older `sublist_of` store c)
  ∧ (∀ v ttlMs,
       Forall (live now) (store c) →
       key ∉ JsMap.keys (store c) →
       ∃ n, store (set key v ttlMs now c)
            = drop n (store c)
              ++ [(key, {| value := v; expireAt := addNow now (max0 ttlMs);
                           size := estimateSize v |})]
            ∧ (Z.of_nat (length (store c)) = maxSize (options c) →
               store c ≠ [] → (1 ≤ n)%nat))
  ∧ (∀ v ttlMs k0 r0 rest,
       store c = (k0, r0) :: rest →
       Z.of_nat (length (store c)) = maxSize (options c) →
       Forall (live now) (store c) →
       key ∉ JsMap.keys (store c) →
       memoryIdle now c →
       store (set key v ttlMs now c)
       = rest ++ [(key, {| value := v; expireAt := addNow now (max0 ttlMs);
                           size := estimateSize v |})])
  ∧ (let t := 1700000000000 in
     let c3 := (get "k1" t
                  (set "k2" (JsString "value2") (Finite 1000) t
                     (set "k1" (JsString "value1") (Finite 1000) t lruCache))).2 in
     let c4 := set "k3" (JsString "value3") (Finite 1000) t c3 in
     JsMap.keys (store c3) = ["k2"; "k1"]
     ∧ JsMap.keys (store c4) = ["k1"; "k3"]
     ∧ (get "k1" t c4).1 = hitWith (JsString "value1")
     ∧ (get "k2" t c4).1 = miss
     ∧ (get "k3" t c4).1 = hitWith (JsString "value3")).
Proof.
  intros Hwf. split; [|split; [|split; [|split]]].
  - intros rec Hget Hlive. by apply get_store_hit.
  - intros v ttlMs. eexists. split; [by apply set_store|].
    assert (Hev : evicts c (makeRoom (estimateSize v) now (prepared key now c))).
    { etransitivity; [by apply prepared_evicts|].
      apply makeRoom_evicts. eapply evicts_wf; [exact Hwf|].
      by apply prepared_evicts. }
    by destruct Hev.
  - intros v ttlMs. by apply set_suffix.
  - intros v ttlMs k0 r0 rest. by apply set_full.
  - vm_compute. done.
Qed.

Lemma lru_eviction_witness :
  JsMap.keys
    (store (set "k3" (JsString "value3") (Finite 1000) 1700000000000
              (set "k2" (JsString "value2") (Finite 1000) 1700000000000
                 (set "k1" (JsString "value1") (Finite 1000) 1700000000000
                    lruCache))))
  = ["k2"; "k3"].
Proof.
  pose proof (lru_eviction
                (set "k2" (JsString "value2") (Finite 1000) 1700000000000
                   (set "k1" (JsString "value1") (Finite 1000) 1700000000000
                      lruCache))
                "k3" 1700000000000
                (set_wf _ _ _ _ _ (set_wf _ _ _ _ _ (new_wf _)))) as H.
  destruct H as (_ & _ & _ & H & _).
  rewrite (H (JsString "value3") (Finite 1000) "k1"
             {| value := JsString "value1"; expireAt := Finite 1700000001000;
                size := 12 |}
             [("k2", {| value := JsString "value2";
                        expireAt := Finite 1700000001000; size := 12 |})]).
  - reflexivity.
  - reflexivity.
  - reflexivity.
  - repeat constructor.
  - vm_compute. intros Hin. repeat (apply elem_of_cons in Hin as [Hin|Hin];
      [discriminate|]). by apply elem_of_nil in Hin.
  - left. vm_compute. reflexivity.
Defined.

(** The statement of C2 without the proviso fails: in a cache of 2 items
    and 100 bytes holding two unexpired entries of 2 and 90 bytes, a set of
    a third key five minutes later starts with a cleanup pass that finds
    the usage above 80% of the cap and removes both entries. *)
Lemma lru_memory_pressure_evicts_more :
  ¬ (∀ c key v ttlMs now k0 r0 rest,
       wf c →
       store c = (k0, r0) :: rest →
       Z.of_nat (length (store c)) = maxSize (options c) →
       Forall (live now) (store c) →
       key ∉ JsMap.keys (store c) →
       store (set key v ttlMs now c)
       = rest ++ [(key, {| value := v; expireAt := addNow now (max0 ttlMs);
                           size := estimateSize v |})]).
Proof.
  intros Hall.
  specialize (Hall
    (set "b" (JsString fortyFive) (Finite 1000000) 1700000000000
       (set "a" (JsString "x") (Finite 1000000) 1700000000000 tightCache))
    "c" (JsString "y") (Finite 1000000) 1700000300000
    "a" {| value := JsString "x"; expireAt := Finite 1700001000000; size := 2 |}
    [("b", {| value := JsString fortyFive; expireAt := Finite 1700001000000;
              size := 90 |})]
    (set_wf _ _ _ _ _ (set_wf _ _ _ _ _ (new_wf _)))
    eq_refl eq_refl).
  assert (Hkeys : JsMap.keys
            (store (set "c" (JsString "y") (Finite 1000000) 1700000300000
               (set "b" (JsString fortyFive) (Finite 1000000) 1700000000000
                  (set "a" (JsString "x") (Finite 1000000) 1700000000000
                     tightCache)))) = ["c"]) by (vm_compute; reflexivity).
  rewrite Hall in Hkeys.
  - vm_compute in Hkeys. discriminate.
  - repeat constructor.
  - vm_compute. intros Hin. repeat (apply elem_of_cons in Hin as [Hin|Hin];
      [discriminate|]). by apply elem_of_nil in Hin.
Qed.

End CacheFacts.

Module OrchestratorFacts.
Import Types Registry Orchestrator.

Lemma concat_batches_fuel {A} (fuel n : nat) :
  ∀ l : list A, concat (batches_fuel fuel n l) = l.
Proof.
  induction fuel as [|fuel IH]; intros l; destruct l as [|x rest]; try done.
  - simpl. by rewrite app_nil_r.
  - cbn [batches_fuel concat]. rewrite IH. apply take_drop.
Qed.

Lemma length_concat_sum {A} (ls : list (list A)) :
  length (concat ls) = sum_list_with length ls.
Proof.
  induction ls as [|l rest IH]; simpl; [done|].
  rewrite length_app. by rewrite IH.
Qed.

Section Service.
Context {P : Type} `{AsyncSearchPlugin P}.

(** Batching does not change what the fan-out collects. *)
Lemma fanOut_fmap (conc : nat) (timeout : Z) (kw : string) (ps : list P) :
  fanOut conc timeout kw ps = runPlugin timeout kw <$> ps.
Proof.
  assert (Hconcat : ∀ bs : list (list P),
            concat ((λ batch : list P, runPlugin timeout kw <$> batch) <$> bs)
            = runPlugin timeout kw <$> concat bs).
  { induction bs as [|b rest IH]; [done|].
    rewrite fmap_cons. cbn [concat]. by rewrite fmap_app, IH. }
  unfold fanOut, batches. by rewrite Hconcat, concat_batches_fuel.
Qed.

Lemma length_runPlugin (timeout : Z) (kw : string) (p : P) :
  length (runPlugin timeout kw p) = delivered timeout kw p.
Proof.
  unfold runPlugin, awaitWithTimeout, delivered.
  destruct (settlement (Registry.search p kw)) as [rs|reason];
    by destruct (elapsedMs (Registry.search p kw) <? timeout).
Qed.

Lemma delivered_rejects (timeout : Z) (kw : string) (p : P) :
  rejects kw p = true → delivered timeout kw p = 0%nat.
Proof.
  unfold rejects, delivered.
  by destruct (settlement (Registry.search p kw)).
Qed.

Lemma sum_delivered_survivors (timeout : Z) (kw : string) (ps : list P) :
  sum_list_with (delivered timeout kw) ps
  = sum_list_with (delivered timeout kw)
      (filter (λ p, rejects kw p = false) ps).
Proof.
  induction ps as [|p rest IH]; simpl; [done|].
  rewrite filter_cons. destruct (rejects kw p) eqn:Hr.
  - rewrite decide_False by done. rewrite delivered_rejects by done.
    by rewrite IH.
  - rewrite decide_True by done. simpl. by rewrite IH.
Qed.

Lemma total_shape (req : SearchRequestProfile) (timeout : Z) (kw : string)
    (ps : list P) :
  total (shape req (runPlugin timeout kw <$> ps))
  = sum_list_with (delivered timeout kw) ps.
Proof.
  unfold shape. cbn [total]. rewrite length_concat_sum.
  induction ps as [|p rest IH]; [done|].
  rewrite fmap_cons. cbn [sum_list_with]. by rewrite length_runPlugin, IH.
Qed.
End Service.

(** C3. Whatever the registered plugins do, search returns a response and
    throws nothing. When the plugins are run (no cached entry answers the
    request), total is the sum, over the selected plugins, of the numbers of
    results delivered in time, to which a plugin that throws or rejects
    contributes zero: it equals the sum over the plugins that do not fail,
    and the flat result list is the concatenation of what the plugins
    delivered, in priority order. When the request selects every plugin,
    the sum ranges over all registered plugins. With three plugins of which
    the second always throws, total is the number of results of the first
    and the third. *)
Theorem search_isolates_failures {P : Type} `{AsyncSearchPlugin P}
    (o : SearchServiceOptions) (m : PluginManager P)
    (req : SearchRequestProfile) (cached : option (list (list SearchResult))) :
  (∃ resp written,
     Orchestrator.search o m req cached = Ok (resp, written)
     ∧ (cacheHit o req cached = None →
        let timeout := effectiveTimeout o req in
        let kw := keyword req in
        let selected := selectPlugins m req in
        total resp = sum_list_with (delivered timeout kw) selected
        ∧ total resp
          = sum_list_with (delivered timeout kw)
              (filter (λ p, rejects kw p = false) selected)
        ∧ (resultShape req ≠ ShapeMergedByType →
           results resp = Some (concat (runPlugin timeout kw <$> selected)))
        ∧ (source req ≠ SrcTg → pluginNames req = None →
           total resp
           = sum_list_with (delivered timeout kw)
               (filter (λ p, rejects kw p = false) (plugins m)))))
  ∧ (total <$> (match Orchestrator.search testServiceOptions threePlugins
                        testRequest None with
                | Ok (resp, _) => Some resp
                | Throw _ => None
                end)) = Some 3%nat.
Proof.
  split; [|vm_compute; reflexivity].
  unfold Orchestrator.search.
  destruct (cacheHit o req cached) as [assembled|] eqn:Hhit.
  - eexists _, _. split; [reflexivity|]. intros [=].
  - eexists _, _. split; [reflexivity|]. intros _.
    set (timeout := effectiveTimeout o req). set (kw := keyword req).
    set (selected := selectPlugins m req). rewrite fanOut_fmap.
    assert (Htotal : total (shape req (runPlugin timeout kw <$> selected))
                     = sum_list_with (delivered timeout kw) selected)
      by apply total_shape.
    split; [done|]. split; [by rewrite Htotal, sum_delivered_survivors|].
    split.
    + intros Hshape. unfold shape. simpl. by destruct (resultShape req).
    + intros Hsrc Hnames. rewrite Htotal, <- sum_delivered_survivors.
      subst selected. unfold selectPlugins. rewrite Hnames.
      assert (Hperm : getPlugins m ≡ₚ plugins m)
        by apply RegistryFacts.Array_sort_Permutation.
      destruct (source req); [by rewrite Hperm|done|by rewrite Hperm].
Qed.

Lemma search_isolates_failures_witness :
  ∃ resp written,
    Orchestrator.search testServiceOptions threePlugins testRequest None
    = Ok (resp, written)
    ∧ total resp = 3%nat.
Proof.
  destruct (proj1 (search_isolates_failures testServiceOptions threePlugins
                     testRequest None))
    as (resp & written & Heq & Htot).
  exists resp, written. split; [exact Heq|].
  destruct (Htot eq_refl) as (_ & _ & _ & Hall).
  rewrite Hall; [reflexivity|discriminate|reflexivity].
Defined.

End OrchestratorFacts.

(** ** Algebra of the merger *)

Module MergerAlgebra.
Import Types Merger MergerFacts Batch.

Lemma newLinks_newLinks (l : list Link) :
  ∀ p q : list string,
    (∀ u, u ∈ q → u ∈ p) → newLinks p (newLinks q l) = newLinks p l.
Proof.
  induction l as [|item rest IH]; intros p q Hqp; simpl; [done|].
  destruct (decide (url item ∈ q)) as [Hq|Hq].
  - rewrite decide_True by auto. by apply IH.
  - simpl. destruct (decide (url item ∈ p)) as [Hp|Hp].
    + apply IH. intros u. rewrite elem_of_cons. naive_solver.
    + f_equal. apply IH. intros u. rewrite !elem_of_cons. naive_solver.
Qed.

Lemma newLinks_app (l1 l2 : list Link) :
  ∀ p, newLinks p (l1 ++ l2)
       = newLinks p l1 ++ newLinks (p ++ (url <$> newLinks p l1)) l2.
Proof.
  induction l1 as [|item rest IH]; intros p; simpl.
  - by rewrite app_nil_r.
  - destruct (decide (url item ∈ p)) as [Hp|Hp]; [by apply IH|].
    simpl. f_equal. rewrite IH. f_equal. apply newLinks_ext.
    intros x _. rewrite !elem_of_app, !elem_of_cons. naive_solver.
Qed.

Lemma newLinks_covers (next : list Link) (p : list string) (u : string) :
  u ∈ url <$> next → u ∈ p ++ (url <$> newLinks p next).
Proof.
  rewrite list_elem_of_fmap. intros (x & -> & Hx). rewrite elem_of_app.
  by apply newLinks_complete.
Qed.

Lemma newLinks_unique (l : list Link) :
  uniqueUrls l → newLinks [] l = l.
Proof.
  intros Hl. rewrite newLinks_filter by done.
  clear. induction l as [|x l IH]; [done|].
  rewrite filter_cons_True by apply not_elem_of_nil. by f_equal.
Qed.

Lemma mergeBuckets_assoc (A B C : MergedLinks) :
  mergeBuckets (mergeBuckets A B) C = mergeBuckets A (mergeBuckets B C).
Proof.
  apply map_eq. intros k. rewrite !mergeBuckets_lookup.
  destruct (B !! k) as [b|] eqn:HB; destruct (C !! k) as [c|] eqn:HC; simpl.
  - f_equal. rewrite newLinks_app, <- app_assoc. f_equal. f_equal.
    rewrite fmap_app. symmetry. apply newLinks_newLinks.
    intros u. apply newLinks_covers.
  - done.
  - f_equal. f_equal. symmetry. apply newLinks_newLinks.
    intros u. by rewrite elem_of_nil.
  - done.
Qed.

Lemma mergeBuckets_dom (target incoming : MergedLinks) :
  dom (mergeBuckets target incoming) = dom target ∪ dom incoming.
Proof.
  apply set_eq. intros k.
  rewrite elem_of_union, !elem_of_dom, mergeBuckets_lookup.
  destruct (incoming !! k) as [next|] eqn:Hk.
  - split; [eauto|]. intros _. eauto.
  - split; [eauto|]. intros [?|[? ?]]; [done|congruence].
Qed.

Lemma ordinary_mergeBuckets (B C : MergedLinks) :
  ordinary B → ordinary C → ordinary (mergeBuckets B C).
Proof.
  intros HB HC type Hin. apply elem_of_dom in Hin.
  rewrite mergeBuckets_dom, elem_of_union, !elem_of_dom in Hin.
  destruct Hin; auto.
Qed.

Lemma ordinary_safeKeys (target incoming : MergedLinks) :
  ordinary incoming → safeKeys target incoming.
Proof. intros Hord. by apply safeKeys_ordinary. Qed.

(** X1. Merging is associative wherever the calls return: folding C into
    the merge of A and B gives the same mapping as merging A with the merge
    of B and C. Both ways return when the keys of B and of C are storage
    types. (With a key such as "constructor" one way may throw where the
    other returns, which is why the statement is about returned mappings.) *)
Theorem mergeMergedByType_assoc (A B C : MergedLinks) :
  (∀ M L N R,
     mergeMergedByType A (Some B) = Ok M →
     mergeMergedByType M (Some C) = Ok L →
     mergeMergedByType B (Some C) = Ok N →
     mergeMergedByType A (Some N) = Ok R →
     L = R)
  ∧ (ordinary B → ordinary C →
     ∃ L, andThen (mergeMergedByType A (Some B))
                  (λ M, mergeMergedByType M (Some C)) = Ok L
          ∧ andThen (mergeMergedByType B (Some C))
                    (λ N, mergeMergedByType A (Some N)) = Ok L).
Proof.
  split.
  - intros M L N R [_ ->]%mergeMergedByType_Ok [_ ->]%mergeMergedByType_Ok
                   [_ ->]%mergeMergedByType_Ok [_ ->]%mergeMergedByType_Ok.
    apply mergeBuckets_assoc.
  - intros HB HC. exists (mergeBuckets (mergeBuckets A B) C).
    rewrite (mergeMergedByType_returns A B) by (by apply ordinary_safeKeys).
    rewrite (mergeMergedByType_returns B C) by (by apply ordinary_safeKeys).
    cbn [andThen].
    rewrite (mergeMergedByType_returns _ C) by (by apply ordinary_safeKeys).
    rewrite (mergeMergedByType_returns A (mergeBuckets B C))
      by (by apply ordinary_safeKeys, ordinary_mergeBuckets).
    by rewrite mergeBuckets_assoc.
Qed.

Lemma ordinary_baidu (l : list Link) : ordinary {[ "baidu" := l ]}.
Proof.
  intros type [next Hin]. apply lookup_singleton_Some in Hin as [<- _].
  apply (bool_decide_unpack _). by vm_compute.
Qed.

Lemma mergeMergedByType_assoc_witness :
  ∃ L, andThen (mergeMergedByType {[ "baidu" := [url1] ]}
                  (Some {[ "baidu" := [url2] ]}))
               (λ M, mergeMergedByType M (Some {[ "baidu" := [url1] ]})) = Ok L
       ∧ andThen (mergeMergedByType {[ "baidu" := [url2] ]}
                    (Some {[ "baidu" := [url1] ]}))
                 (λ N, mergeMergedByType {[ "baidu" := [url1] ]} (Some N))
         = Ok L.
Proof.
  apply (mergeMergedByType_assoc {[ "baidu" := [url1] ]}
           {[ "baidu" := [url2] ]} {[ "baidu" := [url1] ]});
    apply ordinary_baidu.
Defined.

(** X2. The empty mapping is a right unit of the merge and merging a
    mapping into itself changes nothing: both calls return their target.
    Merging a mapping whose keys are storage types into the empty mapping
    keeps, of every list, the first link of each URL, so the empty mapping
    is a left unit on the mappings whose lists have no repeated URL. *)
Theorem mergeMergedByType_units (A : MergedLinks) :
  mergeMergedByType A (Some ∅) = Ok A
  ∧ mergeMergedByType A (Some A) = Ok A
  ∧ (ordinary A →
     mergeMergedByType ∅ (Some A) = Ok (newLinks [] <$> A)
     ∧ ((∀ type l, A !! type = Some l → uniqueUrls l) →
        mergeMergedByType ∅ (Some A) = Ok A)).
Proof.
  split; [|split].
  - rewrite mergeMergedByType_returns.
    + assert (Hunit : mergeBuckets A ∅ = A); [|by rewrite Hunit].
      apply map_eq. intros k. by rewrite mergeBuckets_lookup, lookup_empty.
    + intros type _ [? Hin]. by rewrite lookup_empty in Hin.
  - rewrite mergeMergedByType_returns by (by intros type _ ?).
    f_equal. apply map_eq. intros k. rewrite mergeBuckets_lookup.
    destruct (A !! k) as [l|] eqn:Hk; [|done]. simpl.
    rewrite newLinks_nil; [by rewrite app_nil_r|].
    intros x Hx. rewrite list_elem_of_fmap. eauto.
  - intros Hord.
    assert (Hleft : mergeMergedByType ∅ (Some A) = Ok (newLinks [] <$> A)).
    { rewrite mergeMergedByType_returns by (by apply ordinary_safeKeys).
      f_equal. apply map_eq. intros k.
      rewrite mergeBuckets_lookup, lookup_fmap, lookup_empty.
      by destruct (A !! k). }
    split; [exact Hleft|].
    intros Huniq. rewrite Hleft. f_equal. apply map_eq. intros k.
    rewrite lookup_fmap. destruct (A !! k) as [l|] eqn:Hk; [|done]. simpl.
    f_equal. apply newLinks_unique. by eapply Huniq.
Qed.

Lemma mergeMergedByType_units_witness :
  mergeMergedByType ∅ (Some {[ "baidu" := [url1; url2] ]})
  = Ok {[ "baidu" := [url1; url2] ]}.
Proof.
  apply (mergeMergedByType_units {[ "baidu" := [url1; url2] ]}).
  - apply ordinary_baidu.
  - intros type l Hl. apply lookup_singleton_Some in Hl as [_ <-].
    unfold uniqueUrls. apply (bool_decide_unpack _). by vm_compute.
Defined.

(** X3. The mapping a merge returns has exactly the storage types of the
    target and of the incoming mapping: no type is dropped and none is
    invented. *)
Theorem mergeMergedByType_dom (target incoming out : MergedLinks) :
  mergeMergedByType target (Some incoming) = Ok out →
  dom out = dom target ∪ dom incoming.
Proof. intros [_ ->]%mergeMergedByType_Ok. apply mergeBuckets_dom. Qed.

Lemma mergeMergedByType_dom_witness :
  dom ({[ "baidu" := [url1]; "quark" := [url2] ]} : MergedLinks)
  = dom ({[ "baidu" := [url1] ]} : MergedLinks)
    ∪ dom ({[ "quark" := [url2] ]} : MergedLinks).
Proof.
  apply (mergeMergedByType_dom {[ "baidu" := [url1] ]} {[ "quark" := [url2] ]}).
  vm_compute. reflexivity.
Defined.

End MergerAlgebra.

(** ** Client-side batches *)

Module BatchFacts.
Import Types Merger MergerFacts Batch.

Lemma merge_absorbed (M r : MergedLinks) :
  absorbs M r → mergeBuckets M r = M.
Proof.
  intros Habs. apply map_eq. intros k. rewrite mergeBuckets_lookup.
  destruct (r !! k) as [next|] eqn:Hk; [|done].
  destruct (Habs k next Hk) as (l & Hl & Hcov). rewrite Hl. simpl.
  rewrite newLinks_nil by done. by rewrite app_nil_r.
Qed.

Lemma merge_absorbs_self (M r : MergedLinks) :
  absorbs (mergeBuckets M r) r.
Proof.
  intros k next Hk. rewrite mergeBuckets_lookup, Hk.
  eexists. split; [done|]. intros x Hx. rewrite fmap_app, elem_of_app.
  by apply newLinks_complete.
Qed.

Lemma merge_absorbs_mono (M r r' : MergedLinks) :
  absorbs M r → absorbs (mergeBuckets M r') r.
Proof.
  intros Habs k next Hk. destruct (Habs k next Hk) as (l & Hl & Hcov).
  rewrite mergeBuckets_lookup, Hl. simpl.
  destruct (r' !! k) as [next'|]; [|eauto].
  eexists. split; [done|]. intros x Hx. rewrite fmap_app, elem_of_app. auto.
Qed.

Lemma absorbs_safeKeys (M r : MergedLinks) : absorbs M r → safeKeys M r.
Proof.
  intros Habs type _ [next Hin]. destruct (Habs type next Hin) as (l & Hl & _).
  eauto.
Qed.

(** The loop of [collect], one response at a time. *)
Lemma collect_Ok_cons (r : SearchResponse) (rs : list SearchResponse)
    (M M' : MergedLinks) :
  collect (r :: rs) M = Ok M' →
  match merged_by_type r with
  | Some m => safeKeys M m ∧ collect rs (mergeBuckets M m) = Ok M'
  | None => collect rs M = Ok M'
  end.
Proof.
  cbn [collect]. destruct (merged_by_type r) as [m|]; [|done].
  destruct (mergeMergedByType M (Some m)) as [M1|e] eqn:Hm; [|done].
  apply mergeMergedByType_Ok in Hm as [Hsafe ->]. done.
Qed.

Lemma collect_absorbs_mono (rs : list SearchResponse) :
  ∀ M M' r, collect rs M = Ok M' → absorbs M r → absorbs M' r.
Proof.
  induction rs as [|r0 rs IH]; intros M M' r Hok Habs.
  - by injection Hok as <-.
  - apply collect_Ok_cons in Hok.
    destruct (merged_by_type r0) as [m|].
    + destruct Hok as [_ Hok]. eapply IH; [exact Hok|].
      by apply merge_absorbs_mono.
    + by eapply IH.
Qed.

Lemma collect_absorbs (rs : list SearchResponse) :
  ∀ M M' r m, collect rs M = Ok M' →
    r ∈ rs → merged_by_type r = Some m → absorbs M' m.
Proof.
  induction rs as [|r0 rs IH]; intros M M' r m Hok Hin Hm.
  - by apply elem_of_nil in Hin.
  - apply collect_Ok_cons in Hok. apply elem_of_cons in Hin as [->|Hin].
    + rewrite Hm in Hok. destruct Hok as [_ Hok].
      eapply collect_absorbs_mono; [exact Hok|apply merge_absorbs_self].
    + destruct (merged_by_type r0) as [m0|]; [destruct Hok as [_ Hok]|];
        by eapply IH.
Qed.

Lemma collect_absorbed (rs : list SearchResponse) (M : MergedLinks) :
  (∀ r m, r ∈ rs → merged_by_type r = Some m → absorbs M m) →
  collect rs M = Ok M.
Proof.
  induction rs as [|r0 rs IH]; intros Habs; [done|].
  cbn [collect].
  destruct (merged_by_type r0) as [m|] eqn:Hm.
  - assert (Hm0 : absorbs M m) by (eapply Habs; [left|done]).
    rewrite mergeMergedByType_returns by (by apply absorbs_safeKeys).
    rewrite merge_absorbed by done.
    apply IH. intros r m' Hin. apply Habs. by right.
  - apply IH. intros r m' Hin. apply Habs. by right.
Qed.


(** X4. Folding the same responses in a second time changes nothing: once
    a list of responses has been merged into the state, merging that list
    again returns every bucket as it is, whatever the state was before. So
    a deep search that is run again over the same batches, as a continued
    search does, leaves the merged links unchanged when the server answers
    as before. *)
Theorem collect_again (results : list SearchResponse) (merged merged' : MergedLinks) :
  collect results merged = Ok merged' →
  collect results merged' = Ok merged'.
Proof.
  intros Hok. apply collect_absorbed. intros r m Hin Hm.
  by eapply collect_absorbs.
Qed.

Lemma collect_again_witness :
  collect [ {| merged_by_type := Some {[ "baidu" := [url1; url1; url2] ]} |} ]
          {[ "baidu" := [url1; url2] ]}
  = Ok {[ "baidu" := [url1; url2] ]}.
Proof.
  apply (collect_again _ ∅). vm_compute. reflexivity.
Defined.








Lemma fold_left_sum (ls : list (list Link)) (a : nat) :
  fold_left (λ sum arr, (sum + length arr)%nat) ls a
  = (a + sum_list_with length ls)%nat.
Proof.
  revert a. induction ls as [|l ls IH]; intros a; simpl; [lia|].
  rewrite IH. lia.
Qed.

Lemma totalOf_sum (M : MergedLinks) :
  totalOf M = sum_list_with (λ kv, length kv.2) (map_to_list M).
Proof.
  unfold totalOf, Object_values. rewrite fold_left_sum. simpl.
  induction (map_to_list M) as [|kv l IH]; [done|].
  rewrite fmap_cons. simpl. by rewrite IH.
Qed.

Lemma totalOf_insert_fresh (M : MergedLinks) (k : string) (l : list Link) :
  M !! k = None → totalOf (<[ k := l ]> M) = (length l + totalOf M)%nat.
Proof.
  intros Hk. rewrite !totalOf_sum.
  by rewrite (map_to_list_insert M k l Hk).
Qed.

Lemma totalOf_insert (M : MergedLinks) (k : string) (l : list Link) :
  (totalOf (<[ k := l ]> M) + bucketLength (M !! k)
   = totalOf M + length l)%nat.
Proof.
  destruct (M !! k) as [l0|] eqn:Hk; simpl.
  - assert (HM : totalOf M = (length l0 + totalOf (delete k M))%nat).
    { rewrite <- (insert_delete_id M k l0 Hk) at 1.
      apply totalOf_insert_fresh, lookup_delete_eq. }
    rewrite <- (insert_delete_eq M k l), HM.
    rewrite totalOf_insert_fresh by apply lookup_delete_eq. lia.
  - rewrite totalOf_insert_fresh by done. lia.
Qed.

Lemma totalOf_mergeBucket (inc out : MergedLinks) (k : string) :
  (totalOf out ≤ totalOf (mergeBucket inc out k)
   ≤ totalOf out + bucketLength (inc !! k))%nat.
Proof.
  unfold mergeBucket. rewrite mergeArr_newLinks.
  pose proof (totalOf_insert out k
    (default [] (out !! k)
       ++ newLinks (url <$> default [] (out !! k)) (default [] (inc !! k))))
    as Hins.
  rewrite length_app in Hins.
  pose proof (sublist_length _ _
    (newLinks_sublist (default [] (inc !! k))
       (url <$> default [] (out !! k)))) as Hlen.
  destruct (out !! k) as [l0|]; destruct (inc !! k) as [next|];
    simpl in *; lia.
Qed.

Lemma totalOf_fold_mergeBucket (inc : MergedLinks) (keys : list string) :
  ∀ out,
    (totalOf out ≤ totalOf (fold_left (mergeBucket inc) keys out)
     ≤ totalOf out + sum_list_with (λ k, bucketLength (inc !! k)) keys)%nat.
Proof.
  induction keys as [|k keys IH]; intros out; simpl; [lia|].
  pose proof (IH (mergeBucket inc out k)).
  pose proof (totalOf_mergeBucket inc out k). lia.
Qed.

Lemma sum_Object_keys (inc : MergedLinks) :
  sum_list_with (λ k, bucketLength (inc !! k)) (Object_keys inc) = totalOf inc.
Proof.
  rewrite totalOf_sum. unfold Object_keys.
  assert (Hall : ∀ kv, kv ∈ map_to_list inc → inc !! kv.1 = Some kv.2).
  { intros [k v]. apply elem_of_map_to_list. }
  induction (map_to_list inc) as [|kv l IH]; [done|].
  rewrite fmap_cons. simpl. rewrite IH.
  - rewrite (Hall kv) by left. done.
  - intros kv' Hin. apply Hall. by right.
Qed.

(** X6. The total shown to the user, the sum of the lengths of the lists,
    never decreases when a response is merged in and grows by at most the
    number of links the response carries; it never decreases while a list
    of responses is folded into the state. *)
Theorem totalOf_merge (merged : MergedLinks) :
  (∀ incoming out,
     mergeMergedByType merged (Some incoming) = Ok out →
     (totalOf merged ≤ totalOf out ≤ totalOf merged + totalOf incoming)%nat)
  ∧ (∀ results merged',
       collect results merged = Ok merged' →
       (totalOf merged ≤ totalOf merged')%nat).
Proof.
  assert (Hone : ∀ M incoming,
    (totalOf M ≤ totalOf (mergeBuckets M incoming)
     ≤ totalOf M + totalOf incoming)%nat).
  { intros M incoming. unfold mergeBuckets.
    rewrite <- (sum_Object_keys incoming). apply totalOf_fold_mergeBucket. }
  split; [by intros incoming out [_ ->]%mergeMergedByType_Ok|].
  intros results. revert merged.
  induction results as [|r rs IH]; intros merged merged' Hok.
  - by injection Hok as <-.
  - apply collect_Ok_cons in Hok.
    destruct (merged_by_type r) as [m|].
    + destruct Hok as [_ Hok]. etrans; [apply (Hone merged m)|by apply IH].
    + by apply IH.
Qed.

Lemma totalOf_merge_witness :
  (totalOf {[ "baidu" := [url1] ]}
   ≤ totalOf {[ "baidu" := [url1; url2] ]}
   ≤ totalOf {[ "baidu" := [url1] ]} + totalOf {[ "baidu" := [url2; url1] ]})%nat.
Proof.
  apply (proj1 (totalOf_merge {[ "baidu" := [url1] ]})
           {[ "baidu" := [url2; url1] ]}).
  vm_compute. reflexivity.
Defined.

Lemma conc_bounds (s : Settings) : 1 ≤ conc s ≤ 16.
Proof. unfold conc. lia. Qed.

Lemma batchSize_bounds (s : Settings) : (1 ≤ batchSize s ≤ 16)%nat.
Proof. unfold batchSize. pose proof (conc_bounds s). lia. Qed.

Lemma slice_from (A : Type) (i n : nat) (l : list A) :
  slice i (i + n) l = take n (drop i l).
Proof. unfold slice. f_equal. lia. Qed.

Lemma slice_0 (A : Type) (n : nat) (l : list A) : slice 0 n l = take n l.
Proof. unfold slice. by rewrite Nat.sub_0_r, drop_0. Qed.

Lemma batchesFrom_concat (A : Type) (n : nat) (rest : list A) :
  (1 ≤ n)%nat →
  ∀ fuel i, (length rest ≤ i + fuel)%nat →
    concat (batchesFrom fuel i n rest) = drop i rest.
Proof.
  intros Hn. induction fuel as [|fuel IH]; intros i Hfuel; simpl.
  - by rewrite drop_ge by lia.
  - destruct (Nat.ltb_spec i (length rest)) as [Hi|Hi].
    + simpl. rewrite IH by lia. rewrite slice_from.
      rewrite <- (drop_drop rest n i). apply take_drop.
    + by rewrite drop_ge by lia.
Qed.

Lemma batchesFrom_sizes (A : Type) (n : nat) (rest : list A) :
  (1 ≤ n)%nat →
  ∀ fuel i,
    Forall (λ b, (1 ≤ length b ≤ n)%nat) (batchesFrom fuel i n rest).
Proof.
  intros Hn. induction fuel as [|fuel IH]; intros i; simpl; [constructor|].
  destruct (Nat.ltb_spec i (length rest)) as [Hi|Hi]; [|constructor].
  constructor; [|apply IH].
  rewrite slice_from, length_take, length_drop. lia.
Qed.

Lemma batchesFrom_fuel (A : Type) (n : nat) (rest : list A) :
  (1 ≤ n)%nat →
  ∀ fuel fuel' i,
    (length rest ≤ i + fuel)%nat → (length rest ≤ i + fuel')%nat →
    batchesFrom fuel i n rest = batchesFrom fuel' i n rest.
Proof.
  intros Hn. induction fuel as [|fuel IH]; intros fuel' i Hf Hf'.
  - destruct fuel' as [|fuel']; [done|]. simpl.
    destruct (Nat.ltb_spec i (length rest)); [lia|done].
  - destruct fuel' as [|fuel']; simpl.
    + destruct (Nat.ltb_spec i (length rest)); [lia|done].
    + destruct (Nat.ltb_spec i (length rest)); [|done].
      f_equal. apply IH; lia.
Qed.

Lemma batchesOf_concat (A : Type) (n : nat) (rest : list A) :
  (1 ≤ n)%nat → concat (batchesOf n rest) = rest.
Proof.
  intros Hn. unfold batchesOf. rewrite batchesFrom_concat by (done || lia).
  apply drop_0.
Qed.

(** X7. The batches partition the enabled sources: the fast batch followed
    by the deep batches, concatenated, is the list of enabled plugins in
    its order, so every enabled plugin is queried in exactly one batch; no
    deep batch is empty and no batch has more than [conc] names, which is
    between 1 and 16. The same holds for the channels. Running the batching
    loop longer than the length of the list yields no further batch. *)
Theorem batches_partition (s : Settings) :
  1 ≤ conc s ≤ 16
  ∧ fastPlugins s ++ concat (pluginBatches s) = enabledPlugins s
  ∧ fastTg s ++ concat (tgBatches s) = enabledTgChannels s
  ∧ (length (fastPlugins s) ≤ batchSize s)%nat
  ∧ (length (fastTg s) ≤ batchSize s)%nat
  ∧ Forall (λ b, (1 ≤ length b ≤ batchSize s)%nat) (pluginBatches s)
  ∧ Forall (λ b, (1 ≤ length b ≤ batchSize s)%nat) (tgBatches s)
  ∧ (∀ (rest : list string) (extra : nat),
       batchesFrom (length rest + extra) 0 (batchSize s) rest
       = batchesOf (batchSize s) rest).
Proof.
  pose proof (batchSize_bounds s) as Hb.
  split; [apply conc_bounds|].
  unfold fastPlugins, fastTg, pluginBatches, tgBatches.
  rewrite !slice_0, !batchesOf_concat, !take_drop by lia.
  split; [done|]. split; [done|].
  split; [rewrite length_take; lia|]. split; [rewrite length_take; lia|].
  split; [apply batchesFrom_sizes; lia|].
  split; [apply batchesFrom_sizes; lia|].
  intros rest extra. apply batchesFrom_fuel; lia.
Qed.

Lemma roundParams_nil (keyword : string) (s : Settings)
    (pb tb : option (list string)) :
  roundParams keyword s pb tb = []
  ↔ default [] pb = [] ∧ default [] tb = [].
Proof.
  unfold roundParams.
  destruct pb as [[|p ps]|]; destruct tb as [[|t ts]|]; simpl; naive_solver.
Qed.

(** X8. Every round of the deep search issues at least one query and at
    most two: for each index below [maxLen] the parameter list is not
    empty, so the guard that skips an empty round is never taken; from
    [maxLen] on there is nothing to query. The fast search issues no query
    exactly when no plugin and no channel is enabled. *)
Theorem deepParams_nonempty (keyword : string) (s : Settings) (i : nat) :
  ((i < maxLen s)%nat ↔ deepParams keyword s i ≠ [])
  ∧ (length (deepParams keyword s i) ≤ 2)%nat
  ∧ (fastParams keyword s = []
     ↔ enabledPlugins s = [] ∧ enabledTgChannels s = []).
Proof.
  pose proof (batchSize_bounds s) as Hb.
  assert (Hp : Forall (λ b, (1 ≤ length b ≤ batchSize s)%nat) (pluginBatches s))
    by (apply batchesFrom_sizes; lia).
  assert (Ht : Forall (λ b, (1 ≤ length b ≤ batchSize s)%nat) (tgBatches s))
    by (apply batchesFrom_sizes; lia).
  split; [|split].
  - unfold deepParams. rewrite roundParams_nil. unfold maxLen. split.
    + intros Hi [Hpb Htb].
      destruct (pluginBatches s !! i) as [pb|] eqn:Hpi.
      { simpl in Hpb. subst pb.
        eapply Forall_lookup_1 in Hp; [|exact Hpi]. simpl in Hp. lia. }
      destruct (tgBatches s !! i) as [tb|] eqn:Hti.
      { simpl in Htb. subst tb.
        eapply Forall_lookup_1 in Ht; [|exact Hti]. simpl in Ht. lia. }
      apply lookup_ge_None in Hpi, Hti. lia.
    + intros Hne. destruct (decide (i < length (pluginBatches s)
                                       `max` length (tgBatches s))%nat)
        as [?|Hge]; [done|].
      exfalso. apply Hne.
      rewrite !(proj2 (lookup_ge_None _ _)) by lia. done.
  - unfold deepParams, roundParams.
    destruct (pluginBatches s !! i) as [[|p ps]|];
      destruct (tgBatches s !! i) as [[|t ts]|]; simpl; lia.
  - unfold fastParams. rewrite roundParams_nil. simpl.
    unfold fastPlugins, fastTg. rewrite !slice_0.
    destruct (enabledPlugins s) as [|p ps], (enabledTgChannels s) as [|t ts];
      destruct (batchSize s) as [|n] eqn:Hn; simpl; try lia; naive_solver.
Qed.

End BatchFacts.

(** ** More on the memory cache and the registry *)

Module CacheExtra.
Import Cache CacheFacts CacheAccounting.

Implicit Types (c : MemoryCache) (s : list (string * CacheRecord))
  (key : string) (now : Z).

Lemma with_store_id c : with_store c (store c) = c.
Proof. by destruct c. Qed.

Lemma filter_ext_in {A} (P Q : A → Prop) `{∀ x, Decision (P x)}
    `{∀ x, Decision (Q x)} (l : list A) :
  (∀ x, x ∈ l → P x ↔ Q x) → filter P l = filter Q l.
Proof.
  induction l as [|x l IH]; intros Hl; [done|].
  rewrite !filter_cons.
  destruct (decide (P x)) as [HP|HP], (decide (Q x)) as [HQ|HQ].
  - f_equal. apply IH. intros y Hy. apply Hl. by right.
  - exfalso. apply HQ, Hl; [left|done].
  - exfalso. apply HP, Hl; [left|done].
  - apply IH. intros y Hy. apply Hl. by right.
Qed.

Lemma fold_store_delete (keys : list string) :
  ∀ c, fold_left (λ c key, store_delete key c) keys c
       = with_store c (filter (λ kv, kv.1 ∉ keys) (store c)).
Proof.
  induction keys as [|key rest IH]; intros c; simpl.
  - rewrite <- (with_store_id c) at 1. f_equal.
    induction (store c) as [|kv s IHs]; [done|].
    rewrite filter_cons_True by apply not_elem_of_nil. by f_equal.
  - rewrite IH. unfold store_delete, with_store, JsMap.delete. simpl. f_equal.
    rewrite list_filter_filter. apply list_filter_iff.
    intros kv. rewrite not_elem_of_cons. naive_solver.
Qed.

Lemma live_not_expired now (kv : string * CacheRecord) :
  live now kv ↔ leNow (expireAt kv.2) now ≠ true.
Proof.
  unfold live. rewrite gtNow_leNow.
  destruct (leNow (expireAt kv.2) now); naive_solver.
Qed.

Lemma length_filter_split {A} (P : A → Prop) `{∀ x, Decision (P x)}
    (l : list A) :
  (length (filter P l) + length (filter (λ x, ¬ P x) l) = length l)%nat.
Proof.
  induction l as [|x l IH]; [done|]. rewrite !filter_cons.
  destruct (decide (P x)); [rewrite decide_False by tauto|
                            rewrite decide_True by done]; simpl; lia.
Qed.

(** X9. [cleanupExpired] removes exactly the entries that have expired at
    [now] and nothing else: the store becomes its sub-list of live entries,
    in the same order, the counters, options and the time of the last
    cleanup are untouched, and the number returned is the number of
    entries removed. *)
Theorem cleanupExpired_exact now c :
  wf c →
  (cleanupExpired now c).2 = with_store c (filter (live now) (store c))
  ∧ (cleanupExpired now c).1
    = length (filter (λ kv, ¬ live now kv) (store c))
  ∧ ((cleanupExpired now c).1 + length (store (cleanupExpired now c).2)
     = length (store c))%nat.
Proof.
  intros [Hwf _].
  assert (H2 : (cleanupExpired now c).2
               = with_store c (filter (live now) (store c))).
  { unfold cleanupExpired. simpl. rewrite fold_store_delete. f_equal.
    apply filter_ext_in. intros [k r] Hin. unfold expiredKeys.
    rewrite live_not_expired. simpl. split.
    - intros Hk Hexp. apply Hk. apply list_elem_of_fmap.
      exists (k, r). split; [done|]. by apply list_elem_of_filter.
    - intros Hlive Hk. apply list_elem_of_fmap in Hk as ([k' r'] & Hkk & Hin').
      simpl in Hkk. subst k'. apply list_elem_of_filter in Hin' as [Hexp Hin'].
      simpl in Hexp.
      assert (r' = r) as ->; [|done].
      apply (JsMapFacts.elem_get _ _ _ Hwf) in Hin, Hin'. congruence. }
  assert (H1 : (cleanupExpired now c).1
               = length (filter (λ kv, ¬ live now kv) (store c))).
  { unfold cleanupExpired, expiredKeys. simpl. rewrite length_fmap. f_equal.
    apply list_filter_iff. intros kv. rewrite live_not_expired.
    destruct (leNow (expireAt kv.2) now); naive_solver. }
  split; [exact H2|]. split; [exact H1|].
  rewrite H1, H2. simpl. rewrite Nat.add_comm. apply length_filter_split.
Qed.

Lemma agedCache_wf : wf agedCache.
Proof. unfold agedCache. apply set_wf, set_wf, set_wf, new_wf. Qed.

Lemma cleanupExpired_exact_witness :
  (cleanupExpired 10 agedCache).1 = 2%nat.
Proof.
  destruct (cleanupExpired_exact 10 agedCache agedCache_wf) as (_ & H & _).
  rewrite H. vm_compute. reflexivity.
Defined.

Lemma cleanupExpired_metrics now c :
  metrics (cleanupExpired now c).2 = metrics c.
Proof. unfold cleanupExpired. simpl. by rewrite fold_store_delete. Qed.

#[local] Instance accounts_preorder : PreOrder accounts.
Proof.
  split.
  - by intros c.
  - intros c1 c2 c3 (? & ? & ?) (? & ? & ?). unfold accounts.
    split; [congruence|]. split; [congruence|]. lia.
Qed.

Lemma evictLRU_loop_accounts (n : nat) :
  ∀ s o lc m, JsMap.wf s →
    accounts (mkCache s o lc m)
      (evictLRU_loop n (JsMap.keys s) (mkCache s o lc m)).
Proof.
  induction n as [|n IH]; intros s o lc m Hwf; simpl; [done|].
  destruct s as [|[k v] rest]; simpl; [done|].
  unfold store_delete, eviction_incr, with_store, with_metrics. simpl.
  rewrite (JsMapFacts.delete_head rest k v Hwf).
  etrans; [|apply IH].
  - unfold accounts. simpl. split; [done|]. split; [done|]. lia.
  - eapply JsMapFacts.wf_sublist; [exact Hwf|]. by apply sublist_cons.
Qed.

Lemma evictLRU_accounts count c : wf c → accounts c (evictLRU count c).
Proof.
  intros [Hwf _]. unfold evictLRU. destruct c as [s o lc m].
  by apply evictLRU_loop_accounts.
Qed.

Lemma evictForMemory_loop_accounts (bytesToFree : Q) :
  ∀ s freed o lc m, JsMap.wf s →
    accounts (mkCache s o lc m)
      (evictForMemory_loop bytesToFree (JsMap.keys s) freed (mkCache s o lc m)).
Proof.
  induction s as [|[k v] rest IH]; intros freed o lc m Hwf; simpl; [done|].
  destruct (Qltb (inject_Z freed) bytesToFree); [|done].
  rewrite decide_True by done.
  unfold store_delete, eviction_incr, with_store, with_metrics. simpl.
  rewrite (JsMapFacts.delete_head rest k v Hwf).
  etrans; [|apply IH].
  - unfold accounts. simpl. split; [done|]. split; [done|]. lia.
  - eapply JsMapFacts.wf_sublist; [exact Hwf|]. by apply sublist_cons.
Qed.

Lemma evictForMemory_accounts bytesToFree c :
  wf c → accounts c (evictForMemory bytesToFree c).
Proof.
  intros [Hwf _]. unfold evictForMemory. destruct c as [s o lc m].
  by apply evictForMemory_loop_accounts.
Qed.

(** The state after the purge that opens a cleanup pass. *)
Lemma purge_exact now c :
  wf c →
  (cleanupExpired now (with_lastCleanup c now)).2
  = with_store (with_lastCleanup c now) (filter (live now) (store c)).
Proof.
  intros Hwf.
  by destruct (cleanupExpired_exact now (with_lastCleanup c now)) as [-> _].
Qed.

Lemma purge_wf now c : wf c → wf (cleanupExpired now (with_lastCleanup c now)).2.
Proof.
  intros Hwf. eapply evicts_wf; [exact Hwf|].
  etrans; [apply (with_lastCleanup_evicts c now)|apply cleanupExpired_evicts].
Qed.

Lemma afterCount_accounts now c :
  wf c →
  accounts (cleanupExpired now (with_lastCleanup c now)).2 (afterCount now c).
Proof.
  intros Hwf. unfold afterCount. cbv zeta.
  destruct (0 <? _); [|done]. apply evictLRU_accounts. by apply purge_wf.
Qed.

Lemma afterCap_accounts now c :
  wf c → accounts (afterCount now c) (afterCap now c).
Proof.
  intros Hwf. unfold afterCap. cbv zeta.
  destruct (0 <? _); [|done]. apply evictForMemory_accounts.
  eapply evicts_wf; [exact Hwf|]. by apply afterCount_evicts.
Qed.

Lemma smartCleanup_accounts force now c :
  wf c →
  negb force && (now - lastCleanup c <? cleanupInterval (options c)) = false →
  accounts (cleanupExpired now (with_lastCleanup c now)).2
    (smartCleanup force now c).
Proof.
  intros Hwf Hrun. rewrite smartCleanup_unfold, Hrun.
  etrans; [by apply afterCount_accounts|].
  etrans; [by apply afterCap_accounts|].
  destruct (aboveThreshold _ _); [|done]. apply evictForMemory_accounts.
  eapply evicts_wf; [exact Hwf|]. by apply afterCap_evicts.
Qed.

Lemma smartCleanup_counters force now c :
  wf c →
  hits (metrics (smartCleanup force now c)) = hits (metrics c)
  ∧ misses (metrics (smartCleanup force now c)) = misses (metrics c).
Proof.
  intros Hwf.
  destruct (negb force && (now - lastCleanup c <? cleanupInterval (options c)))
    eqn:Hrun.
  - by rewrite smartCleanup_unfold, Hrun.
  - destruct (smartCleanup_accounts force now c Hwf Hrun) as (Hh & Hm & _).
    rewrite cleanupExpired_metrics in Hh, Hm. done.
Qed.

Lemma fold_countEntry now s :
  ∀ a e : nat,
    fold_left (CacheStats.countEntry now) s (a, e)
    = ((a + length (filter (live now) s))%nat,
       (e + length (filter (λ kv, ¬ live now kv) s))%nat).
Proof.
  induction s as [|kv s IH]; intros a e; simpl.
  - f_equal; lia.
  - unfold CacheStats.countEntry at 2. rewrite !filter_cons. simpl.
    destruct (gtNow (expireAt kv.2) now) eqn:Hgt.
    + rewrite decide_True by done.
      rewrite decide_False by (unfold live; rewrite Hgt; tauto).
      rewrite IH. simpl. f_equal; lia.
    + rewrite decide_False by (unfold live; rewrite Hgt; done).
      rewrite decide_True by (unfold live; rewrite Hgt; done).
      rewrite IH. simpl. f_equal; lia.
Qed.

Lemma getStats_active now c :
  CacheStats.active (CacheStats.getStats now c)
  = length (filter (live now) (store c)).
Proof. unfold CacheStats.getStats. simpl. by rewrite fold_countEntry. Qed.

Lemma getStats_expired now c :
  CacheStats.expired (CacheStats.getStats now c)
  = length (filter (λ kv, ¬ live now kv) (store c)).
Proof. unfold CacheStats.getStats. simpl. by rewrite fold_countEntry. Qed.

(** X10. A forced cleanup accounts for every entry it removes: the entries
    it leaves plus the evictions it counts are the entries that were live,
    so an entry disappears only because it had expired or as a counted
    eviction; the hit and miss counters are not touched. *)
Theorem forceCleanup_accounting now c :
  wf c →
  let c' := forceCleanup now c in
  (evictions (metrics c') + cache_size c'
   = evictions (metrics c) + CacheStats.active (CacheStats.getStats now c))%nat
  ∧ hits (metrics c') = hits (metrics c)
  ∧ misses (metrics c') = misses (metrics c).
Proof.
  intros Hwf c'. subst c'. unfold forceCleanup, cache_size.
  destruct (smartCleanup_accounts true now c Hwf eq_refl) as (Hh & Hm & He).
  rewrite cleanupExpired_metrics in Hh, Hm, He.
  rewrite purge_exact in He by done. simpl in He.
  rewrite getStats_active. done.
Qed.

Lemma forceCleanup_accounting_witness :
  (evictions (metrics (forceCleanup 10 agedCache))
   + cache_size (forceCleanup 10 agedCache)
   = evictions (metrics agedCache)
     + CacheStats.active (CacheStats.getStats 10 agedCache))%nat.
Proof.
  exact (proj1 (forceCleanup_accounting 10 agedCache agedCache_wf)).
Defined.

Lemma afterCount_length now c :
  wf c →
  Z.of_nat (length (store (afterCount now c))) ≤ Z.max 0 (maxSize (options c)).
Proof.
  intros Hwf. unfold afterCount. cbv zeta.
  pose proof (purge_wf now c Hwf) as Hwf1.
  assert (Hopt : options (cleanupExpired now (with_lastCleanup c now)).2
                 = options c).
  { by rewrite purge_exact. }
  set (c1 := (cleanupExpired now (with_lastCleanup c now)).2) in *.
  rewrite Hopt.
  destruct (Z.ltb_spec 0 (Z.of_nat (length (store c1)) - maxSize (options c)));
    [|lia].
  rewrite evictLRU_store by done. rewrite length_drop. lia.
Qed.

Lemma forceCleanup_length now c :
  wf c →
  Z.of_nat (length (store (forceCleanup now c))) ≤ Z.max 0 (maxSize (options c)).
Proof.
  intros Hwf. etrans; [|by apply afterCount_length].
  apply inj_le, evicts_length. unfold forceCleanup.
  rewrite smartCleanup_unfold. simpl.
  assert (H1 : evicts (afterCount now c) (afterCap now c)).
  { unfold afterCap. cbv zeta. destruct (0 <? _); [|done].
    apply evictForMemory_evicts.
    eapply evicts_wf; [exact Hwf|]. by apply afterCount_evicts. }
  destruct (aboveThreshold _ _); [|done].
  etrans; [exact H1|]. apply evictForMemory_evicts.
  eapply evicts_wf; [exact Hwf|]. by apply afterCap_evicts.
Qed.

Lemma smartCleanup_after_purge force now c :
  wf c →
  negb force && (now - lastCleanup c <? cleanupInterval (options c)) = false →
  evicts (cleanupExpired now (with_lastCleanup c now)).2
    (smartCleanup force now c).
Proof.
  intros Hwf Hrun. pose proof (purge_wf now c Hwf) as Hwf1.
  rewrite smartCleanup_unfold, Hrun.
  assert (H0 : evicts (cleanupExpired now (with_lastCleanup c now)).2
                 (afterCount now c)).
  { unfold afterCount. cbv zeta. destruct (0 <? _); [|done].
    by apply evictLRU_evicts. }
  assert (H1 : evicts (afterCount now c) (afterCap now c)).
  { unfold afterCap. cbv zeta. destruct (0 <? _); [|done].
    apply evictForMemory_evicts. by eapply evicts_wf. }
  destruct (aboveThreshold _ _); [|by etrans].
  etrans; [exact H0|]. etrans; [exact H1|].
  apply evictForMemory_evicts.
  eapply evicts_wf; [exact Hwf|]. by apply afterCap_evicts.
Qed.

Lemma smartCleanup_all_live force now c :
  wf c →
  negb force && (now - lastCleanup c <? cleanupInterval (options c)) = false →
  Forall (live now) (store (smartCleanup force now c)).
Proof.
  intros Hwf Hrun.
  destruct (smartCleanup_after_purge force now c Hwf Hrun) as [Hsub _].
  apply Forall_forall. intros kv Hkv.
  pose proof (cleanupExpired_all_live now (with_lastCleanup c now)) as Hlive.
  rewrite Forall_forall in Hlive. apply Hlive.
  by eapply elem_of_sublist.
Qed.

Lemma Math_round_bounds (x : Q) (lo hi : Z) :
  (inject_Z lo <= x)%Q → (x <= inject_Z hi)%Q →
  lo ≤ CacheStats.Math_round x ≤ hi.
Proof.
  intros Hlo Hhi. unfold CacheStats.Math_round. split.
  - rewrite <- (Qfloor_Z lo). apply Qfloor_resp_le.
    rewrite <- (Qplus_0_r (inject_Z lo)).
    apply Qplus_le_compat; [done|]. by compute.
  - apply Z.lt_succ_r. rewrite Zlt_Qlt.
    eapply Qle_lt_trans; [apply Qfloor_le|].
    unfold Z.succ. rewrite inject_Z_plus.
    rewrite (Qplus_comm x), (Qplus_comm (inject_Z hi)).
    apply Qplus_lt_le_compat; [by compute|done].
Qed.

Lemma usagePercent_bounds (mem max : Z) :
  0 < max → 0 ≤ mem ≤ max →
  ∃ q, CacheStats.usagePercent mem max = CacheStats.Ratio q
       ∧ (0 <= q)%Q ∧ (q <= 100)%Q.
Proof.
  intros Hmax Hmem. unfold CacheStats.usagePercent.
  destruct (Z.eqb_spec max 0) as [?|_]; [lia|].
  eexists. split; [done|].
  assert (Hmax' : (0 < inject_Z max)%Q) by (by rewrite <- (Zlt_Qlt 0)).
  assert (Hx : (inject_Z 0 <= inject_Z mem / inject_Z max * 100 * 100)%Q
               ∧ (inject_Z mem / inject_Z max * 100 * 100 <= inject_Z 10000)%Q).
  { assert (H0 : (0 <= inject_Z mem / inject_Z max)%Q).
    { apply Qle_shift_div_l; [done|]. rewrite Qmult_0_l.
      rewrite <- (Zle_Qle 0). lia. }
    assert (H1 : (inject_Z mem / inject_Z max <= 1)%Q).
    { apply Qle_shift_div_r; [done|]. rewrite Qmult_1_l.
      rewrite <- Zle_Qle. lia. }
    split.
    - change (inject_Z 0) with (0 * 100 * 100)%Q.
      apply Qmult_le_compat_r; [|done]. by apply Qmult_le_compat_r.
    - change (inject_Z 10000) with (1 * 100 * 100)%Q.
      apply Qmult_le_compat_r; [|done]. by apply Qmult_le_compat_r. }
  destruct (Math_round_bounds _ 0 10000 (proj1 Hx) (proj2 Hx)) as [Hlo Hhi].
  split.
  - apply Qle_shift_div_l; [done|]. rewrite Qmult_0_l.
    by rewrite <- (Zle_Qle 0).
  - apply Qle_shift_div_r; [done|].
    change (100 * 100)%Q with (inject_Z 10000). by rewrite <- Zle_Qle.
Qed.

(** X11. The statistics are consistent: [total] is [active + expired] and
    is the size of the cache. Right after a forced cleanup, read at the
    same instant, no entry is reported expired, the total is at most
    [maxSize] (or zero when [maxSize] is negative), and with a positive
    [maxMemoryBytes] the memory in use is within it and the reported
    percentage lies between 0 and 100. *)
Theorem getStats_consistent now c :
  (CacheStats.total (CacheStats.getStats now c)
   = CacheStats.active (CacheStats.getStats now c)
     + CacheStats.expired (CacheStats.getStats now c))%nat
  ∧ CacheStats.total (CacheStats.getStats now c) = cache_size c
  ∧ (wf c →
     let st := CacheStats.getStats now (forceCleanup now c) in
     CacheStats.expired st = 0%nat
     ∧ CacheStats.active st = CacheStats.total st
     ∧ Z.of_nat (CacheStats.total st) ≤ Z.max 0 (maxSize (options c))
     ∧ (0 < maxMemoryBytes (options c) →
        CacheStats.memoryBytes st ≤ maxMemoryBytes (options c)
        ∧ ∃ q, CacheStats.memoryUsagePercent st = CacheStats.Ratio q
               ∧ (0 <= q)%Q ∧ (q <= 100)%Q)).
Proof.
  split; [|split; [done|]].
  - rewrite getStats_active, getStats_expired. simpl.
    symmetry. apply length_filter_split.
  - intros Hwf st.
    assert (Hlive : Forall (live now) (store (forceCleanup now c))).
    { by apply smartCleanup_all_live. }
    assert (Hwf' : wf (forceCleanup now c)) by (by apply smartCleanup_wf).
    assert (Hopt : options (forceCleanup now c) = options c).
    { by apply smartCleanup_evicts. }
    assert (Hexp : CacheStats.expired st = 0%nat).
    { subst st. rewrite getStats_expired.
      induction Hlive as [|kv s Hkv Hs IH]; [done|].
      rewrite filter_cons, decide_False by tauto. exact IH. }
    split; [exact Hexp|]. split; [|split].
    + pose proof (length_filter_split (live now) (store (forceCleanup now c)))
        as Hsplit.
      subst st. rewrite getStats_expired in Hexp.
      rewrite getStats_active. simpl. lia.
    + subst st. simpl. by apply forceCleanup_length.
    + intros Hmax. subst st. simpl. rewrite Hopt.
      pose proof (forceCleanup_bound now c Hwf ltac:(lia)) as Hb.
      split; [exact Hb|].
      apply usagePercent_bounds; [done|]. split; [|done].
      rewrite calculateMemoryUsage_memOf. apply memOf_nonneg, Hwf'.
Qed.

Lemma getStats_consistent_witness :
  CacheStats.expired (CacheStats.getStats 10 (forceCleanup 10 agedCache))
  = 0%nat.
Proof.
  destruct (getStats_consistent 10 agedCache) as (_ & _ & H).
  destruct (H agedCache_wf) as [H0 _]. exact H0.
Defined.

Lemma makeRoom_counters (sz : Z) now c :
  wf c →
  hits (metrics (makeRoom sz now c)) = hits (metrics c)
  ∧ misses (metrics (makeRoom sz now c)) = misses (metrics c).
Proof.
  intros Hwf. unfold makeRoom. destruct (_ || _); [|done]. cbv zeta.
  assert (Hwf1 : wf (cleanupExpired now c).2).
  { eapply evicts_wf; [exact Hwf|apply cleanupExpired_evicts]. }
  rewrite <- (cleanupExpired_metrics now c).
  destruct (_ <=? _).
  - by destruct (evictLRU_accounts
                   (Z.of_nat (length (store (cleanupExpired now c).2))
                    - maxSize (options (cleanupExpired now c).2) + 1)
                   _ Hwf1) as (? & ? & _).
  - destruct (_ <? _); [|done].
    by destruct (evictForMemory_accounts
                   (inject_Z
                      (calculateMemoryUsage (cleanupExpired now c).2 + sz
                       - maxMemoryBytes (options (cleanupExpired now c).2)))
                   _ Hwf1) as (? & ? & _).
Qed.

Lemma prepared_counters key now c :
  wf c →
  hits (metrics (prepared key now c)) = hits (metrics c)
  ∧ misses (metrics (prepared key now c)) = misses (metrics c).
Proof.
  intros Hwf. unfold prepared. cbv zeta.
  destruct (JsMap.has _ _); simpl; by apply smartCleanup_counters.
Qed.

Lemma set_counters key v ttlMs now c :
  wf c →
  hits (metrics (set key v ttlMs now c)) = hits (metrics c)
  ∧ misses (metrics (set key v ttlMs now c)) = misses (metrics c).
Proof.
  intros Hwf. rewrite set_unfold. simpl.
  assert (Hwf1 : wf (prepared key now c)).
  { eapply evicts_wf; [exact Hwf|]. by apply prepared_evicts. }
  destruct (makeRoom_counters (estimateSize v) now _ Hwf1) as [-> ->].
  by apply prepared_counters.
Qed.

Lemma get_counters key now c :
  wf c →
  hits (metrics (get key now c).2)
  = (hits (metrics c) + (if hit (get key now c).1 then 1 else 0))%nat
  ∧ misses (metrics (get key now c).2)
    = (misses (metrics c) + (if hit (get key now c).1 then 0 else 1))%nat.
Proof.
  intros Hwf. destruct (smartCleanup_counters false now c Hwf) as [Hh Hm].
  unfold get. cbv zeta.
  destruct (JsMap.get key (store (smartCleanup false now c))) as [rec|];
    simpl; [|rewrite Hh, Hm; lia].
  destruct (gtNow (expireAt rec) now); simpl; rewrite Hh, Hm; lia.
Qed.

Lemma step_lookups (op : Op) c :
  wf c →
  (hits (metrics (step c op)) + misses (metrics (step c op)))%nat
  = lookups [op] (hits (metrics c) + misses (metrics c))%nat.
Proof.
  intros Hwf. unfold lookups.
  destruct op as [key now|key v ttlMs now|key| |now]; cbn [step fold_left].
  - destruct (get_counters key now c Hwf) as [-> ->].
    destruct (hit (get key now c).1); lia.
  - by destruct (set_counters key v ttlMs now c Hwf) as [-> ->].
  - done.
  - done.
  - unfold forceCleanup.
    by destruct (smartCleanup_counters true now c Hwf) as [-> ->].
Qed.

(** X12. The hit and miss counters count the lookups: a [get] adds one to
    [hits] when it answers with a hit and one to [misses] otherwise, and no
    other operation touches them short of [clear], which resets them. So
    after any run [hits + misses] is the number of [get]s since the last
    [clear]. *)
Theorem lookups_counted c :
  wf c →
  (∀ key now,
     hits (metrics (get key now c).2)
     = (hits (metrics c) + (if hit (get key now c).1 then 1 else 0))%nat
     ∧ misses (metrics (get key now c).2)
       = (misses (metrics c) + (if hit (get key now c).1 then 0 else 1))%nat)
  ∧ (∀ ops,
       (hits (metrics (run ops c)) + misses (metrics (run ops c)))%nat
       = lookups ops (hits (metrics c) + misses (metrics c))%nat).
Proof.
  intros Hwf. split; [intros key now; by apply get_counters|].
  intros ops. revert c Hwf.
  induction ops as [|op ops IH]; intros c Hwf; [done|].
  change (run (op :: ops) c) with (run ops (step c op)).
  rewrite IH by (by apply step_wf).
  rewrite step_lookups by done. done.
Qed.

Lemma lookups_counted_witness :
  (hits (metrics (run [OpGet "a" 3; OpClear; OpGet "c" 3; OpGet "d" 3]
                    agedCache))
   + misses (metrics (run [OpGet "a" 3; OpClear; OpGet "c" 3; OpGet "d" 3]
                        agedCache)))%nat
  = lookups [OpGet "a" 3; OpClear; OpGet "c" 3; OpGet "d" 3]
      (hits (metrics agedCache) + misses (metrics agedCache))%nat.
Proof.
  exact (proj2 (lookups_counted agedCache agedCache_wf)
           [OpGet "a" 3; OpClear; OpGet "c" 3; OpGet "d" 3]).
Defined.

Lemma makeRoom_length (sz : Z) now c :
  wf c →
  Z.of_nat (length (store (makeRoom sz now c))) < Z.max 1 (maxSize (options c)).
Proof.
  intros Hwf. unfold makeRoom.
  destruct ((maxSize (options c) <=? Z.of_nat (length (store c)))
            || (maxMemoryBytes (options c) <? calculateMemoryUsage c + sz))
    eqn:Hneed; cbv zeta.
  - pose proof (cleanupExpired_evicts now c) as Hev1.
    assert (Hwf1 : wf (cleanupExpired now c).2) by (by eapply evicts_wf).
    destruct Hev1 as [_ Hopt1]. rewrite Hopt1.
    destruct (Z.leb_spec (maxSize (options c))
                (Z.of_nat (length (store (cleanupExpired now c).2))))
      as [Hfull|Hroom].
    + rewrite evictLRU_store by done. rewrite length_drop. lia.
    + destruct (maxMemoryBytes (options c)
                <? calculateMemoryUsage (cleanupExpired now c).2 + sz); [|lia].
      pose proof (evicts_length _ _
        (evictForMemory_evicts
           (inject_Z (calculateMemoryUsage (cleanupExpired now c).2 + sz
                      - maxMemoryBytes (options c)))
           _ Hwf1)) as Hlen.
      lia.
  - apply orb_false_iff in Hneed as [Hsize _].
    apply Z.leb_gt in Hsize. lia.
Qed.

Lemma set_length key v ttlMs now c :
  wf c →
  Z.of_nat (cache_size (set key v ttlMs now c)) ≤ Z.max 1 (maxSize (options c)).
Proof.
  intros Hwf. unfold cache_size. rewrite set_store by done.
  rewrite length_app. simpl.
  pose proof (prepared_evicts key now c Hwf) as Hev.
  assert (Hwf1 : wf (prepared key now c)) by (by eapply evicts_wf).
  pose proof (makeRoom_length (estimateSize v) now _ Hwf1) as Hlen.
  destruct Hev as [_ Hopt]. rewrite Hopt in Hlen. lia.
Qed.

Lemma length_delete_get s key rec :
  JsMap.wf s → JsMap.get key s = Some rec →
  (length (JsMap.delete key s) + 1 = length s)%nat.
Proof.
  intros Hwf Hget.
  pose proof (JsMapFacts.get_Some_elem _ _ _ Hget) as Hin.
  apply list_elem_of_split in Hin as (s1 & s2 & ->).
  unfold JsMap.wf, JsMap.keys in Hwf. rewrite fmap_app, fmap_cons in Hwf.
  apply NoDup_app in Hwf as (_ & Hdisj & Hwf2). simpl in *.
  apply NoDup_cons in Hwf2 as [Hk2 _].
  unfold JsMap.delete. rewrite filter_app, filter_cons_False by (simpl; tauto).
  assert (Hall : ∀ l : list (string * CacheRecord),
            key ∉ l.*1 → filter (λ kv, kv.1 ≠ key) l = l).
  { intros l Hl. induction l as [|kv l IH]; [done|].
    rewrite fmap_cons, not_elem_of_cons in Hl. destruct Hl as [Hne Hl].
    rewrite filter_cons_True by done. f_equal. by apply IH. }
  rewrite !Hall.
  - rewrite !length_app. simpl. lia.
  - done.
  - intros Hk1. apply (Hdisj key Hk1). left.
Qed.

Lemma get_length key now c :
  wf c → (cache_size (get key now c).2 ≤ cache_size c)%nat.
Proof.
  intros Hwf. unfold cache_size.
  pose proof (smartCleanup_evicts false now c Hwf) as Hev.
  pose proof (evicts_length _ _ Hev) as Hlen.
  assert (Hwf1 : wf (smartCleanup false now c)) by (by eapply evicts_wf).
  destruct (JsMap.get key (store (smartCleanup false now c))) as [rec|] eqn:Hget.
  - destruct (gtNow (expireAt rec) now) eqn:Hgt.
    + destruct (get_store_hit key now c rec Hget Hgt) as [_ ->].
      rewrite length_app. simpl.
      pose proof (length_delete_get _ _ _ (proj1 Hwf1) Hget). lia.
    + unfold get. cbv zeta. rewrite Hget, Hgt. simpl.
      pose proof (sublist_length _ _
        (JsMapFacts.delete_sublist (store (smartCleanup false now c)) key)).
      lia.
  - unfold get. cbv zeta. rewrite Hget. simpl. lia.
Qed.

Lemma step_options (op : Op) c : wf c → options (step c op) = options c.
Proof.
  intros Hwf. destruct op as [key now|key v ttlMs now|key| |now]; cbn [step].
  - by apply get_options.
  - by apply set_options.
  - done.
  - done.
  - by apply smartCleanup_evicts.
Qed.

Lemma step_length (op : Op) c :
  wf c →
  Z.of_nat (cache_size (step c op))
  ≤ Z.max (Z.of_nat (cache_size c)) (Z.max 1 (maxSize (options c))).
Proof.
  intros Hwf. destruct op as [key now|key v ttlMs now|key| |now]; cbn [step].
  - pose proof (get_length key now c Hwf). lia.
  - pose proof (set_length key v ttlMs now c Hwf). lia.
  - pose proof (evicts_length _ _ (delete_evicts key c)).
    unfold cache_size. lia.
  - unfold cache_size. simpl. lia.
  - pose proof (evicts_length _ _ (smartCleanup_evicts true now c Hwf)).
    unfold cache_size, forceCleanup. lia.
Qed.

(** X13. The item-count cap holds where the memory cap does not: after a
    [set], whatever the state before and whatever the value, the cache
    holds at most [maxSize] entries (one when [maxSize] is below one), and
    no other operation adds an entry. Hence a cache never holds more than
    [max(1, maxSize)] entries, whatever is done with it from its creation. *)
Theorem size_bound :
  (∀ c key v ttlMs now,
     wf c →
     Z.of_nat (cache_size (set key v ttlMs now c))
     ≤ Z.max 1 (maxSize (options c)))
  ∧ (∀ c op, wf c →
       (∀ key v ttlMs now, op ≠ OpSet key v ttlMs now) →
       (cache_size (step c op) ≤ cache_size c)%nat)
  ∧ (∀ (o : MemoryCacheOptions) (ops : list Op),
       Z.of_nat (cache_size (run ops (MemoryCache_new o)))
       ≤ Z.max 1 (maxSize (options (MemoryCache_new o)))).
Proof.
  split; [intros; by apply set_length|]. split.
  - intros c op Hwf Hop.
    pose proof (step_length op c Hwf) as Hlen.
    destruct op as [key now|key v ttlMs now|key| |now]; cbn [step] in *.
    + by apply get_length.
    + by destruct (Hop key v ttlMs now).
    + apply (evicts_length _ _ (delete_evicts key c)).
    + unfold cache_size. simpl. lia.
    + apply (evicts_length _ _ (smartCleanup_evicts true now c Hwf)).
  - intros o ops.
    assert (Hgen : ∀ c, wf c →
              Z.of_nat (cache_size c) ≤ Z.max 1 (maxSize (options c)) →
              Z.of_nat (cache_size (run ops c))
              ≤ Z.max 1 (maxSize (options c))).
    { induction ops as [|op ops IH]; intros c Hwf Hc; [done|].
      change (run (op :: ops) c) with (run ops (step c op)).
      rewrite <- (step_options op c Hwf).
      apply IH; [by apply step_wf|].
      rewrite (step_options op c Hwf).
      pose proof (step_length op c Hwf). lia. }
    apply Hgen; [apply new_wf|]. unfold cache_size. simpl. lia.
Qed.

Lemma size_bound_witness :
  Z.of_nat (cache_size (set "d" (JsString "w") (Finite 5) 3 agedCache))
  ≤ Z.max 1 (maxSize (options agedCache)).
Proof.
  exact (proj1 size_bound agedCache "d" (JsString "w") (Finite 5) 3
           agedCache_wf).
Defined.

Lemma afterCount_lastCleanup now c :
  wf c → lastCleanup (afterCount now c) = now.
Proof.
  intros Hwf. unfold afterCount. cbv zeta.
  destruct (0 <? _);
    [rewrite evictLRU_lastCleanup by (by apply purge_wf)|];
    by rewrite cleanupExpired_lastCleanup.
Qed.

Lemma afterCap_lastCleanup now c :
  wf c → lastCleanup (afterCap now c) = now.
Proof.
  intros Hwf. unfold afterCap. cbv zeta.
  destruct (0 <? _); [|by apply afterCount_lastCleanup].
  rewrite evictForMemory_lastCleanup; [by apply afterCount_lastCleanup|].
  eapply evicts_wf; [exact Hwf|]. by apply afterCount_evicts.
Qed.

Lemma smartCleanup_lastCleanup force now c :
  wf c →
  lastCleanup (smartCleanup force now c)
  = if negb force && (now - lastCleanup c <? cleanupInterval (options c))
    then lastCleanup c else now.
Proof.
  intros Hwf. rewrite smartCleanup_unfold.
  destruct (negb force && _); [done|].
  destruct (aboveThreshold _ _); [|by apply afterCap_lastCleanup].
  rewrite evictForMemory_lastCleanup; [by apply afterCap_lastCleanup|].
  eapply evicts_wf; [exact Hwf|]. by apply afterCap_evicts.
Qed.

Lemma makeRoom_lastCleanup (sz : Z) now c :
  wf c → lastCleanup (makeRoom sz now c) = lastCleanup c.
Proof.
  intros Hwf. unfold makeRoom. destruct (_ || _); [|done]. cbv zeta.
  assert (Hwf1 : wf (cleanupExpired now c).2).
  { eapply evicts_wf; [exact Hwf|apply cleanupExpired_evicts]. }
  rewrite <- (cleanupExpired_lastCleanup now c).
  destruct (_ <=? _); [by apply evictLRU_lastCleanup|].
  destruct (_ <? _); [by apply evictForMemory_lastCleanup|done].
Qed.

Lemma set_lastCleanup key v ttlMs now c :
  wf c →
  lastCleanup (set key v ttlMs now c)
  = lastCleanup (smartCleanup false now c).
Proof.
  intros Hwf. rewrite set_unfold. simpl.
  rewrite makeRoom_lastCleanup.
  - unfold prepared. cbv zeta. by destruct (JsMap.has _ _).
  - eapply evicts_wf; [exact Hwf|]. by apply prepared_evicts.
Qed.

(** X14. Round trip: a [get] made in the same millisecond as the [set] of
    its key returns the value just set, whatever the cache held before,
    provided the entry is set to live (its [ttlMs] is positive or
    [Infinity]) and the cleanup interval is positive, so that the cleanup
    pass of the [get] is held back. *)
Theorem set_get_same_instant key v ttlMs now c :
  wf c →
  0 < cleanupInterval (options c) →
  (ttlMs = Infinity ∨ ∃ z, ttlMs = Finite z ∧ 0 < z) →
  (get key now (set key v ttlMs now c)).1 = hitWith v.
Proof.
  intros Hwf Hint Httl.
  assert (Hlive : gtNow (addNow now (max0 ttlMs)) now = true).
  { destruct Httl as [->|(z & -> & Hz)]; simpl; [done|].
    apply Z.ltb_lt. lia. }
  assert (Hgate : (now - lastCleanup (set key v ttlMs now c)
                   <? cleanupInterval (options (set key v ttlMs now c)))
                  = true).
  { rewrite set_options, set_lastCleanup, smartCleanup_lastCleanup by done.
    simpl. apply Z.ltb_lt.
    destruct (Z.ltb_spec (now - lastCleanup c) (cleanupInterval (options c)));
      lia. }
  apply get_fresh_entry; [done|done|].
  rewrite smartCleanup_unfold. cbn [negb andb]. rewrite Hgate.
  rewrite get_after_set by done. eauto.
Qed.

Lemma set_get_same_instant_witness :
  (get "b" 3 (set "b" (JsString "new") (Finite 1) 3 agedCache)).1
  = hitWith (JsString "new").
Proof.
  apply (set_get_same_instant "b" (JsString "new") (Finite 1) 3 agedCache).
  - exact agedCache_wf.
  - vm_compute. reflexivity.
  - right. exists 1. split; [reflexivity|lia].
Defined.

(** X15. Writing a key that the cache already holds never makes the cache
    larger: the old entry of the key goes before the new one is stored. *)
Theorem set_existing_key key v ttlMs now c :
  wf c →
  is_Some (JsMap.get key (store c)) →
  (cache_size (set key v ttlMs now c) ≤ cache_size c)%nat.
Proof.
  intros Hwf [rec Hget]. unfold cache_size. rewrite set_store by done.
  rewrite length_app. simpl.
  pose proof (prepared_evicts key now c Hwf) as Hev.
  assert (Hwf1 : wf (prepared key now c)) by (by eapply evicts_wf).
  pose proof (evicts_length _ _ (makeRoom_evicts (estimateSize v) now _ Hwf1))
    as Hroom.
  assert (Hlt : (length (store (prepared key now c)) < length (store c))%nat).
  { eapply (sublist_length_lt _ _ (key, rec)); [apply Hev| |].
    - by apply JsMapFacts.get_Some_elem.
    - intros Hin. apply (prepared_notin key now c).
      unfold JsMap.keys. apply list_elem_of_fmap. by exists (key, rec). }
  lia.
Qed.

Lemma set_existing_key_witness :
  (cache_size (set "b" (JsString "new") (Finite 1) 3 agedCache)
   ≤ cache_size agedCache)%nat.
Proof.
  apply (set_existing_key "b" (JsString "new") (Finite 1) 3 agedCache).
  - exact agedCache_wf.
  - vm_compute. eauto.
Defined.

(** X16. [delete] removes the entry of its key and nothing else: the key is
    gone and a later [get] on it is a miss, every other key keeps its
    entry, and an entry that was there takes its size out of the usage and
    one out of the item count; deleting a key that is not in the cache
    changes nothing. The counters are not touched. *)
Theorem delete_key key c :
  wf c →
  JsMap.get key (store (delete key c)) = None
  ∧ (∀ now, (get key now (delete key c)).1 = miss)
  ∧ (∀ key', key' ≠ key →
       JsMap.get key' (store (delete key c)) = JsMap.get key' (store c))
  ∧ (∀ rec, JsMap.get key (store c) = Some rec →
       (cache_size (delete key c) + 1 = cache_size c)%nat
       ∧ memoryUsage (delete key c) + size rec = memoryUsage c)
  ∧ (JsMap.get key (store c) = None → delete key c = c)
  ∧ metrics (delete key c) = metrics c.
Proof.
  intros Hwf.
  assert (Hgone : JsMap.get key (store (delete key c)) = None).
  { apply JsMapFacts.get_delete_eq. }
  split; [exact Hgone|]. split; [|split; [|split; [|split]]].
  - intros now. apply get_absent; [|exact Hgone].
    eapply evicts_wf; [exact Hwf|apply delete_evicts].
  - intros key' Hne. by apply JsMapFacts.get_delete_ne.
  - intros rec Hget. split.
    + apply (length_delete_get _ _ rec); [apply Hwf|done].
    + unfold memoryUsage. rewrite !calculateMemoryUsage_memOf.
      apply (memOf_delete_get _ _ rec); [apply Hwf|done].
  - intros Hnone. unfold delete, store_delete.
    rewrite JsMapFacts.delete_notin by (by apply JsMapFacts.get_None).
    apply with_store_id.
  - done.
Qed.

Lemma delete_key_witness :
  (get "b" 3 (delete "b" agedCache)).1 = miss.
Proof.
  apply (delete_key "b" agedCache agedCache_wf).
Defined.

Lemma step_sized (op : Op) c :
  wf c → sized (store c) → sized (store (step c op)).
Proof.
  intros Hwf Hsized. unfold sized in *. rewrite Forall_forall in *.
  intros [k r] Hin.
  pose proof (step_wf c op Hwf) as Hwf'.
  apply (JsMapFacts.elem_get _ _ _ (proj1 Hwf')) in Hin.
  assert (Hold : ¬ setsKey k op → size r = estimateSize (value r)).
  { intros Hnot. apply (Hsized (k, r)).
    apply JsMapFacts.get_Some_elem. by eapply step_lookup. }
  destruct op as [key now|key v ttlMs now|key| |now];
    try (apply Hold; by intros []).
  destruct (decide (key = k)) as [->|Hne]; [|by apply Hold].
  cbn [step] in Hin. rewrite get_after_set in Hin by done.
  by injection Hin as <-.
Qed.

Lemma memOf_estimated s : sized s → memOf s = estimated s.
Proof.
  induction 1 as [|kv s Hkv Hs IH]; [done|]. simpl. by rewrite Hkv, IH.
Qed.

(** X17. In every state a cache can reach from its creation, each recorded
    size is the estimate of the value stored with it, so [memoryUsage] is
    the sum of the estimates of the values in the cache: evictions and
    deletions keep the books exact. *)
Theorem memoryUsage_estimated (o : MemoryCacheOptions) (ops : list Op) :
  sized (store (run ops (MemoryCache_new o)))
  ∧ memoryUsage (run ops (MemoryCache_new o))
    = estimated (store (run ops (MemoryCache_new o))).
Proof.
  assert (Hgen : ∀ c, wf c → sized (store c) → sized (store (run ops c))).
  { induction ops as [|op ops IH]; intros c Hwf Hs; [done|].
    change (run (op :: ops) c) with (run ops (step c op)).
    apply IH; [by apply step_wf|by apply step_sized]. }
  assert (Hs : sized (store (run ops (MemoryCache_new o)))).
  { apply Hgen; [apply new_wf|constructor]. }
  split; [exact Hs|].
  unfold memoryUsage. rewrite calculateMemoryUsage_memOf.
  by apply memOf_estimated.
Qed.

(** X18. A forced cleanup of a cache with nothing to clean is harmless:
    when no entry has expired, the item count is within [maxSize] and the
    usage is within [maxMemoryBytes] and not above the threshold, it
    changes nothing but the time of the last cleanup; no entry is evicted
    and no counter moves. *)
Theorem forceCleanup_quiet now c :
  quiet now c → forceCleanup now c = with_lastCleanup c now.
Proof.
  intros (Hlive & Hlen & Hmem & Hth). unfold forceCleanup.
  rewrite smartCleanup_unfold. simpl.
  assert (H1 : afterCount now c = with_lastCleanup c now).
  { unfold afterCount. rewrite cleanupExpired_live by done. simpl.
    destruct (Z.ltb_spec 0 (Z.of_nat (length (store c)) - maxSize (options c)));
      [lia|done]. }
  assert (H2 : afterCap now c = with_lastCleanup c now).
  { unfold afterCap. rewrite H1.
    change (calculateMemoryUsage (with_lastCleanup c now))
      with (calculateMemoryUsage c). simpl.
    destruct (Z.ltb_spec 0 (calculateMemoryUsage c - maxMemoryBytes (options c)));
      [lia|done]. }
  rewrite H1, H2.
  change (calculateMemoryUsage (with_lastCleanup c now))
    with (calculateMemoryUsage c). simpl. by rewrite Hth.
Qed.

Lemma forceCleanup_quiet_witness :
  forceCleanup 3 agedCache = with_lastCleanup agedCache 3.
Proof.
  apply (forceCleanup_quiet 3 agedCache).
  unfold quiet. split; [|split; [|split]].
  - apply (bool_decide_unpack _). by vm_compute.
  - vm_compute. discriminate.
  - vm_compute. discriminate.
  - vm_compute. reflexivity.
Defined.

(** X19. [evictLRU(count)] removes exactly the [count] oldest entries, or
    all of them when there are fewer, keeps the others in their order, and
    counts one eviction for each entry removed; a count of zero or less
    removes nothing. *)
Theorem evictLRU_exact (count : Z) c :
  wf c →
  store (evictLRU count c) = drop (Z.to_nat count) (store c)
  ∧ evictions (metrics (evictLRU count c))
    = (evictions (metrics c) + (Z.to_nat count `min` length (store c)))%nat
  ∧ hits (metrics (evictLRU count c)) = hits (metrics c)
  ∧ misses (metrics (evictLRU count c)) = misses (metrics c)
  ∧ options (evictLRU count c) = options c
  ∧ (count ≤ 0 → store (evictLRU count c) = store c).
Proof.
  intros Hwf.
  pose proof (evictLRU_store count c Hwf) as Hstore.
  destruct (evictLRU_accounts count c Hwf) as (Hh & Hm & He).
  split; [exact Hstore|]. split; [|split; [done|split; [done|split]]].
  - rewrite Hstore, length_drop in He. lia.
  - by apply evictLRU_options.
  - intros Hcount. rewrite Hstore.
    by replace (Z.to_nat count) with 0%nat by lia.
Qed.

Lemma evictLRU_exact_witness :
  store (evictLRU 2 agedCache) = drop (Z.to_nat 2) (store agedCache).
Proof.
  apply (evictLRU_exact 2 agedCache agedCache_wf).
Defined.

Lemma evictForMemory_loop_minimal (bytesToFree : Q) :
  ∀ s (freed : Z) o lc m, JsMap.wf s →
    ∃ n : nat,
      (n ≤ length s)%nat
      ∧ store (evictForMemory_loop bytesToFree (JsMap.keys s) freed
                 (mkCache s o lc m)) = drop n s
      ∧ (∀ k : nat, (k < n)%nat →
           Qltb (inject_Z (freed + memOf (take k s))) bytesToFree = true)
      ∧ ((n < length s)%nat →
         Qltb (inject_Z (freed + memOf (take n s))) bytesToFree = false).
Proof.
  induction s as [|[k v] rest IH]; intros freed o lc m Hwf; simpl.
  - exists 0%nat. split; [done|]. split; [done|]. split; intros; lia.
  - destruct (Qltb (inject_Z freed) bytesToFree) eqn:Hlt.
    + rewrite decide_True by done.
      unfold store_delete, eviction_incr, with_store, with_metrics. simpl.
      rewrite (JsMapFacts.delete_head rest k v Hwf).
      assert (Hrest : JsMap.wf rest).
      { eapply JsMapFacts.wf_sublist; [exact Hwf|]. by apply sublist_cons. }
      edestruct (IH (freed + size v) o lc) as (n & Hn & Hstore & Hbefore & Hstop);
        [exact Hrest|].
      exists (S n). split; [lia|]. split; [exact Hstore|]. split.
      * intros [|j] Hj; simpl.
        -- by rewrite Z.add_0_r.
        -- rewrite Z.add_assoc. apply Hbefore. lia.
      * intros Hlen. simpl. rewrite Z.add_assoc. apply Hstop. lia.
    + exists 0%nat. simpl. split; [lia|]. split; [done|]. split.
      * intros j Hj. lia.
      * intros _. by rewrite Z.add_0_r.
Qed.

(** X20. [evictForMemory(bytesToFree)] evicts a run of oldest entries that
    is as short as it can be: it stops at the first entry before which the
    sizes already freed reach [bytesToFree], every entry it removed was
    removed while less than [bytesToFree] had been freed, and it counts one
    eviction for each; with nothing to free it removes nothing. *)
Theorem evictForMemory_minimal (bytesToFree : Q) c :
  wf c →
  ∃ n : nat,
    (n ≤ length (store c))%nat
    ∧ store (evictForMemory bytesToFree c) = drop n (store c)
    ∧ evictions (metrics (evictForMemory bytesToFree c))
      = (evictions (metrics c) + n)%nat
    ∧ (∀ k : nat, (k < n)%nat →
         Qltb (inject_Z (memOf (take k (store c)))) bytesToFree = true)
    ∧ ((n < length (store c))%nat →
       Qltb (inject_Z (memOf (take n (store c)))) bytesToFree = false).
Proof.
  intros Hwf.
  destruct (evictForMemory_accounts bytesToFree c Hwf) as (_ & _ & He).
  destruct Hwf as [Hwf _]. unfold evictForMemory in *.
  destruct c as [s o lc m]. simpl in *.
  destruct (evictForMemory_loop_minimal bytesToFree s 0 o lc m Hwf)
    as (n & Hn & Hstore & Hbefore & Hstop).
  exists n. split; [done|]. split; [done|]. split; [|split].
  - rewrite Hstore, length_drop in He. lia.
  - intros k Hk. apply (Hbefore k Hk).
  - intros Hlen. apply (Hstop Hlen).
Qed.

Lemma evictForMemory_minimal_witness :
  ∃ n : nat,
    (n ≤ length (store agedCache))%nat
    ∧ store (evictForMemory 3 agedCache) = drop n (store agedCache)
    ∧ evictions (metrics (evictForMemory 3 agedCache))
      = (evictions (metrics agedCache) + n)%nat
    ∧ (∀ k : nat, (k < n)%nat →
         Qltb (inject_Z (memOf (take k (store agedCache)))) 3 = true)
    ∧ ((n < length (store agedCache))%nat →
       Qltb (inject_Z (memOf (take n (store agedCache)))) 3 = false).
Proof.
  exact (evictForMemory_minimal 3 agedCache agedCache_wf).
Defined.

End CacheExtra.

Module RegistryExtra.
Import Types Registry RegistryFacts.

Lemma find_head_filter {A} (Q : A → Prop) `{∀ x, Decision (Q x)} (l : list A) :
  find (λ x, bool_decide (Q x)) l = head (filter Q l).
Proof.
  induction l as [|x l IH]; [done|]. simpl. rewrite filter_cons.
  case_bool_decide.
  - by rewrite decide_True.
  - by rewrite decide_False.
Qed.

Lemma Array_sort_sorted_id {A} (key : A → Z) (l : list A) :
  StronglySorted (λ a b, key a ≤ key b) l →
  Array_sort (λ a b, key a - key b) l = l.
Proof.
  induction 1 as [|x l Hl IH Hx]; [done|].
  unfold Array_sort in *. simpl. rewrite IH.
  destruct l as [|y l']; [done|]. simpl.
  apply Forall_cons in Hx as [Hxy _].
  destruct (Z.leb_spec (key x - key y) 0); [done|lia].
Qed.

Lemma omap_id_Some {A} (l : list A) : omap id (Some <$> l) = l.
Proof. induction l as [|x l IH]; [done|]. simpl. by f_equal. Qed.

Section Manager.
Context {P : Type} `{AsyncSearchPlugin P}.

(** X21. [getPlugin(name)] returns the plugin of that name that was
    registered first: over any sequence of registrations, null entries
    included, it is the first registered plugin with that name, and
    nothing when there is none; a plugin registered later under a name
    already taken never replaces the earlier one. A name is found exactly
    when [getPlugins] lists a plugin of that name. *)
Theorem getPlugin_first_registered (n : string) :
  (∀ ps : list (option P),
     getPlugin n (registerPlugins ps PluginManager_new)
     = head (filter (λ p, name p = n) (omap id ps)))
  ∧ (∀ (m : PluginManager P) (p : P),
       getPlugin n (registerPlugin (Some p) m)
       = match getPlugin n m with
         | Some q => Some q
         | None => if decide (name p = n) then Some p else None
         end)
  ∧ (∀ m : PluginManager P,
       is_Some (getPlugin n m) ↔ ∃ p, p ∈ getPlugins m ∧ name p = n).
Proof.
  split; [|split].
  - intros ps. unfold getPlugin. rewrite registerPlugins_plugins. simpl.
    apply (find_head_filter (λ p, name p = n)).
  - intros m p. unfold getPlugin, registerPlugin. simpl.
    rewrite !(find_head_filter (λ p, name p = n)), filter_app.
    destruct (filter (λ p0, name p0 = n) (plugins m)) as [|q qs]; simpl.
    + rewrite filter_cons, filter_nil. by destruct (decide (name p = n)).
    + done.
  - intros m. unfold getPlugin, getPlugins.
    rewrite (find_head_filter (λ p, name p = n)). split.
    + intros [p Hp]. exists p.
      assert (Hin : p ∈ filter (λ p, name p = n) (plugins m)).
      { destruct (filter _ (plugins m)) as [|q qs]; [done|].
        injection Hp as ->. left. }
      apply list_elem_of_filter in Hin as [Hname Hin]. split; [|done].
      by rewrite (Array_sort_Permutation priority (plugins m)).
    + intros (p & Hin & Hname).
      rewrite (Array_sort_Permutation priority (plugins m)) in Hin.
      assert (Hf : p ∈ filter (λ p, name p = n) (plugins m)).
      { by apply list_elem_of_filter. }
      destruct (filter _ (plugins m)) as [|q qs]; [by apply elem_of_nil in Hf|].
      simpl. eauto.
Qed.

(** X22. The size of the manager counts the registrations that were not
    null: registering a list of plugins adds the number of its non-null
    entries, also after a [clear], which empties the manager, and
    [getPlugins] returns as many plugins as [size] says. *)
Theorem size_counts_registrations (m : PluginManager P) :
  (∀ ps : list (option P),
     size (registerPlugins ps m) = (size m + length (omap id ps))%nat
     ∧ size (registerPlugins ps (clear m)) = length (omap id ps))
  ∧ length (getPlugins m) = size m.
Proof.
  split.
  - intros ps. unfold size. by rewrite !registerPlugins_plugins, !length_app.
  - unfold getPlugins, size.
    by rewrite (Array_sort_Permutation priority (plugins m)).
Qed.

(** X23. The order that [getPlugins] returns is a fixed point: registering
    the plugins anew in that order gives a manager whose [getPlugins] is the
    same list, and a list already in ascending priority order is returned
    as it was registered. *)
Theorem getPlugins_fixed_point (m : PluginManager P) :
  getPlugins (registerPlugins (Some <$> getPlugins m) PluginManager_new)
  = getPlugins m
  ∧ (StronglySorted prio_le (plugins m) → getPlugins m = plugins m).
Proof.
  split.
  - unfold getPlugins at 1. rewrite registerPlugins_plugins. simpl.
    rewrite omap_id_Some. apply Array_sort_sorted_id.
    apply Array_sort_sorted.
  - intros Hsorted. by apply Array_sort_sorted_id.
Qed.

End Manager.

Lemma getPlugins_fixed_point_witness :
  getPlugins (registerPlugins
                [Some (BaseAsyncPlugin_new "p1" 1);
                 Some (BaseAsyncPlugin_new "p2" 2)] PluginManager_new)
  = [BaseAsyncPlugin_new "p1" 1; BaseAsyncPlugin_new "p2" 2].
Proof.
  apply (getPlugins_fixed_point
           (registerPlugins [Some (BaseAsyncPlugin_new "p1" 1);
                             Some (BaseAsyncPlugin_new "p2" 2)]
              PluginManager_new)).
  repeat constructor; unfold prio_le; simpl; lia.
Defined.

End RegistryExtra.

(** ** Unit tests of the repository, replayed on the model *)

Module RepositoryTests.
Import Registry Cache Fixtures.

(** memoryCache.test: set then get is a hit with the value. *)
Example cache_set_get :
  (get "key1" t0 (setString "key1" "value1" 1000 t0 cache)).1
  = hitWith (JsString "value1").
Proof. vm_compute. reflexivity. Qed.

(** memoryCache.test: a key never set is a miss. *)
Example cache_get_nonexistent : (get "nonexistent" t0 cache).1 = miss.
Proof. vm_compute. reflexivity. Qed.

(** memoryCache.test: delete removes the entry. *)
Example cache_delete :
  (get "key1" t0 (delete "key1" (setString "key1" "value1" 1000 t0 cache))).1
  = miss.
Proof. vm_compute. reflexivity. Qed.

(** memoryCache.test: three entries, then clear. *)
Example cache_clear :
  let c := setString "key3" "value3" 1000 t0
             (setString "key2" "value2" 1000 t0
                (setString "key1" "value1" 1000 t0 cache)) in
  cache_size c = 3%nat ∧ cache_size (clear c) = 0%nat
  ∧ (get "key1" t0 (clear c)).1 = miss.
Proof. vm_compute. done. Qed.

(** memoryCache.test: hit 999 ms after the set, miss one millisecond later. *)
Example cache_ttl :
  let c := setString "key1" "value1" 1000 t0 cache in
  (get "key1" (t0 + 999) c).1 = hitWith (JsString "value1")
  ∧ (get "key1" (t0 + 1000) (get "key1" (t0 + 999) c).2).1 = miss.
Proof. vm_compute. done. Qed.

(** memoryCache.test: an entry set with [Infinity] does not expire. *)
Example cache_never_expires :
  (get "key1" (t0 + 999999999)
     (set "key1" (JsString "value1") Infinity t0 cache)).1
  = hitWith (JsString "value1").
Proof. vm_compute. reflexivity. Qed.

(** memoryCache.test: the fourth entry of a cache of three evicts key1. *)
Example cache_lru_oldest :
  let c := setString "key4" "value4" 1000 t0
             (setString "key3" "value3" 1000 t0
                (setString "key2" "value2" 1000 t0
                   (setString "key1" "value1" 1000 t0 smallCache))) in
  cache_size c = 3%nat
  ∧ JsMap.keys (store c) = ["key2"; "key3"; "key4"]
  ∧ (get "key1" t0 c).1 = miss
  ∧ evictions (metrics c) = 1%nat.
Proof. vm_compute. done. Qed.

(** memoryCache.test: two hits and one miss are counted. *)
Example cache_stats :
  let c := (get "nonexistent" t0
              (get "key1" t0
                 (get "key1" t0 (setString "key1" "value1" 1000 t0 cache)).2).2).2 in
  hits (metrics c) = 2%nat ∧ misses (metrics c) = 1%nat.
Proof. vm_compute. done. Qed.

(** memoryCache.test: the default options. *)
Example cache_default_options :
  options (MemoryCache_new noOptions)
  = {| maxSize := 1000; maxMemoryBytes := 104857600;
       cleanupInterval := 300000; memoryThreshold := (8 # 10)%Q |}
  ∧ (get "key" t0 (setString "key" "value" 1000 t0 (MemoryCache_new noOptions))).1
    = hitWith (JsString "value").
Proof. vm_compute. done. Qed.

(** memoryCache.test: with [maxSize: 0] and [maxMemoryBytes: 0] a set still
    stores its entry. *)
Example cache_invalid_options :
  let c := setString "key" "value" 1000 t0 invalidCache in
  JsMap.keys (store c) = ["key"] ∧ memoryUsage c = 10.
Proof. vm_compute. done. Qed.

(** manager.test: the plugins come back by ascending priority. *)
Example manager_sorted :
  getPlugins (registerPlugins [Some high; Some low; Some medium] PluginManager_new)
  = [low; medium; high].
Proof. reflexivity. Qed.

(** manager.test: lookup by name. *)
Example manager_getPlugin :
  let m := registerPlugins [Some high; Some low] PluginManager_new in
  getPlugin "low" m = Some low ∧ getPlugin "gamma" m = None.
Proof. vm_compute. done. Qed.

(** manager.test: null and undefined registrations are ignored. *)
Example manager_null_registration :
  Registry.size
    (registerPlugins [None; None]
       (registerPlugin None (PluginManager_new (P := BaseAsyncPlugin))))
  = 0%nat.
Proof. reflexivity. Qed.

End RepositoryTests.
